(** * Geometric-optics tracer of the prism demo: a shallow embedding

    The TypeScript sources embedded here are [utils/vector] (the vector
    algebra and [intersectRaySegment]), [types] (the records) and
    [components/OpticsCanvas] ([SPECTRUM], [getPrismVertices], [traceRay]).

    Conventions of the embedding.
    - A JavaScript [number] holding a coordinate, an index of refraction or a
      parameter is an ideal real ([R]): [Math.sqrt], [Math.abs], [Math.cos],
      [Math.sin] and [Math.PI] are [sqrt], [Rabs], [cos], [sin] and [PI];
      rounding, NaN and the infinities are outside the model.  A division
      [a / b] is [Rdiv]; it agrees with the source wherever [b] is not zero.
    - The recursion counter [depth] is an integer ([Z]).
    - [Point] and [Vector] are the same structural type in the source, and the
      source passes one for the other; they are one record here.
    - The [segments] array that [traceRay] pushes to is threaded through the
      calls as a list, and reading [vertices[i]] beyond the end of the array
      (which makes [intersectRaySegment] throw a [TypeError]) is an explicit
      outcome. *)

From Stdlib Require Import Reals Lra Lia ZArith String Bool List Sorted.
From Equations Require Import Equations.
Import ListNotations.

Open Scope R_scope.

(** ** types.ts *)

Record Point : Type := mkPoint { x : R; y : R }.

Definition Vector : Type := Point.

Record Ray : Type := mkRay {
  origin : Point;
  direction : Vector;
  color : string;
  wavelength : R;
  intensity : R
}.

(** ** utils/vector.ts *)

Definition add (v1 : Point) (v2 : Vector) : Point :=
  {| x := x v1 + x v2; y := y v1 + y v2 |}.

Definition sub (v1 v2 : Point) : Vector :=
  {| x := x v1 - x v2; y := y v1 - y v2 |}.

Definition scale (v : Vector) (s : R) : Vector :=
  {| x := x v * s; y := y v * s |}.

Definition dot (v1 v2 : Vector) : R := x v1 * x v2 + y v1 * y v2.

Definition cross (v1 v2 : Vector) : R := x v1 * y v2 - y v1 * x v2.

Definition mag (v : Vector) : R := sqrt (x v * x v + y v * y v).

Definition zero : Vector := {| x := 0; y := 0 |}.

Definition normalize (v : Vector) : Vector :=
  let m := mag v in
  if Req_dec_T m 0 then zero else {| x := x v / m; y := y v / m |}.

Definition rotate (v : Vector) (angle : R) : Vector :=
  {| x := x v * cos angle - y v * sin angle;
     y := x v * sin angle + y v * cos angle |}.

Definition distance (p1 p2 : Point) : R :=
  sqrt ((x p2 - x p1) ^ 2 + (y p2 - y p1) ^ 2).

(** The comparison operators of the source, as booleans. *)

Definition Rltb (a b : R) : bool := if Rlt_dec a b then true else false.
Definition Rgtb (a b : R) : bool := if Rgt_dec a b then true else false.
Definition Rleb (a b : R) : bool := if Rle_dec a b then true else false.
Definition Rgeb (a b : R) : bool := if Rge_dec a b then true else false.

Infix "<?" := Rltb : R_scope.
Infix ">?" := Rgtb : R_scope.
Infix "<=?" := Rleb : R_scope.
Infix ">=?" := Rgeb : R_scope.

Record Hit : Type := mkHit { point : Point; t : R; normal : Vector }.

(** The determinant and the two solved parameters of [intersectRaySegment],
    named as its locals are. *)

Definition denom (rayOrigin : Point) (rayDir : Vector) (p1 p2 : Point) : R :=
  let v1 := rayOrigin in
  let v2 := add rayOrigin rayDir in
  let v3 := p1 in
  let v4 := p2 in
  (x v1 - x v2) * (y v3 - y v4) - (y v1 - y v2) * (x v3 - x v4).

Definition param_t (rayOrigin : Point) (rayDir : Vector) (p1 p2 : Point) : R :=
  let v1 := rayOrigin in
  let v3 := p1 in
  let v4 := p2 in
  ((x v1 - x v3) * (y v3 - y v4) - (y v1 - y v3) * (x v3 - x v4))
  / denom rayOrigin rayDir p1 p2.

Definition param_u (rayOrigin : Point) (rayDir : Vector) (p1 p2 : Point) : R :=
  let v1 := rayOrigin in
  let v2 := add rayOrigin rayDir in
  let v3 := p1 in
  (- ((x v1 - x v2) * (y v1 - y v3) - (y v1 - y v2) * (x v1 - x v3)))
  / denom rayOrigin rayDir p1 p2.

Definition intersectRaySegment
    (rayOrigin : Point) (rayDir : Vector) (p1 p2 : Point) : option Hit :=
  let v1 := rayOrigin in
  let v2 := add rayOrigin rayDir in
  if Rabs (denom rayOrigin rayDir p1 p2) <? 1e-6 then None
  else
    let t := param_t rayOrigin rayDir p1 p2 in
    let u := param_u rayOrigin rayDir p1 p2 in
    if (t >? 0.001) && (u >=? 0) && (u <=? 1) then
      let intersectPt :=
        {| x := x v1 + t * (x v2 - x v1); y := y v1 + t * (y v2 - y v1) |} in
      let segDir := sub p2 p1 in
      let normal := normalize {| x := - y segDir; y := x segDir |} in
      let normal :=
        if dot rayDir normal >? 0 then scale normal (-1) else normal in
      Some {| point := intersectPt; t := t; normal := normal |}
    else None.

(** ** components/OpticsCanvas.tsx *)

Record PrismData : Type := mkPrismData {
  center : Point;
  rotation : R;
  sideLength : R;
  refractiveIndex : R
}.

Record Sample : Type := mkSample {
  sample_color : string;
  wlOffset : R;
  sample_intensity : R
}.

Definition SPECTRUM : list Sample :=
  [ {| sample_color := "#ff0000"; wlOffset := -0.03; sample_intensity := 1.0 |};
    {| sample_color := "#ffa500"; wlOffset := -0.02; sample_intensity := 0.9 |};
    {| sample_color := "#ffff00"; wlOffset := -0.01; sample_intensity := 0.9 |};
    {| sample_color := "#00ff00"; wlOffset := 0.00; sample_intensity := 0.9 |};
    {| sample_color := "#00ffff"; wlOffset := 0.01; sample_intensity := 0.9 |};
    {| sample_color := "#0000ff"; wlOffset := 0.02; sample_intensity := 0.9 |};
    {| sample_color := "#8b00ff"; wlOffset := 0.03; sample_intensity := 0.8 |} ].

Definition getPrismVertices (p : PrismData) : list Point :=
  let radius := sideLength p / sqrt 3 in
  let angles :=
    [ rotation p - PI / 2;
      rotation p - PI / 2 + (2 * PI) / 3;
      rotation p - PI / 2 + (4 * PI) / 3 ] in
  map (fun a => {| x := x (center p) + radius * cos a;
                   y := y (center p) + radius * sin a |}) angles.

Record Segment : Type := mkSegment {
  seg_p1 : Point;
  seg_p2 : Point;
  seg_color : string;
  width : R;
  blur : R
}.

(** [closestHit] of the source: a hit spread into a record that also carries
    the index of the edge. *)
Record ClosestHit : Type := mkClosestHit { hit : Hit; boundaryIndex : nat }.

(** Outcome of a computation that reads [vertices]: reading a coordinate of a
    missing vertex throws a [TypeError]. *)
Inductive result (A : Type) : Type :=
| Ok : A -> result A
| TypeError : result A.
Arguments Ok {A} _.
Arguments TypeError {A}.

(** The two endpoints [vertices[i]] and [vertices[(i + 1) % 3]]. *)
Definition edge (vertices : list Point) (i : nat) : option (Point * Point) :=
  match nth_error vertices i, nth_error vertices ((i + 1) mod 3) with
  | Some p1, Some p2 => Some (p1, p2)
  | _, _ => None
  end.

(** Body of the loop over the three sides. *)
Definition updateClosest
    (closestHit : option ClosestHit) (i : nat) (found : option Hit)
  : option ClosestHit :=
  match found with
  | Some h =>
      match closestHit with
      | None => Some {| hit := h; boundaryIndex := i |}
      | Some c =>
          if t h <? t (hit c)
          then Some {| hit := h; boundaryIndex := i |}
          else closestHit
      end
  | None => closestHit
  end.

Fixpoint scanEdges (ray : Ray) (vertices : list Point) (indices : list nat)
    (closestHit : option ClosestHit) : result (option ClosestHit) :=
  match indices with
  | [] => Ok closestHit
  | i :: rest =>
      match edge vertices i with
      | None => TypeError
      | Some (p1, p2) =>
          let found :=
            intersectRaySegment (origin ray) (direction ray) p1 p2 in
          scanEdges ray vertices rest (updateClosest closestHit i found)
      end
  end.

(** [for (let i = 0; i < 3; i++)], starting from [closestHit = null]. *)
Definition findClosestHit (ray : Ray) (vertices : list Point)
  : result (option ClosestHit) :=
  scanEdges ray vertices (seq 0 3) None.

(** The hit case of [traceRay], local by local.  [prism] and [prismIOR] are
    the component state and the property that [traceRay] closes over. *)

Section Tracer.

Variable prism : PrismData.
Variable prismIOR : R.

Definition geoNormal (edgeP1 edgeP2 : Point) : Vector :=
  let edgeDir := sub edgeP2 edgeP1 in
  let geoNormal := normalize {| x := - y edgeDir; y := x edgeDir |} in
  let toCenter := sub (center prism) edgeP1 in
  if dot geoNormal toCenter >? 0 then scale geoNormal (-1) else geoNormal.

Definition entering (L geoNormal : Vector) : bool := dot L geoNormal <? 0.

Definition n1 (ray : Ray) (entering : bool) : R :=
  if negb entering then prismIOR + wavelength ray else 1.0.

Definition n2 (ray : Ray) (entering : bool) : R :=
  if negb entering then 1.0 else prismIOR + wavelength ray.

Definition orientedN (entering : bool) (geoNormal : Vector) : Vector :=
  if entering then geoNormal else scale geoNormal (-1).

(** [n1 / n2] is the quotient of the source wherever [n2] is not zero, that
    is unless [prismIOR + wavelength = 0] at an entering hit; what is proved
    below of the direction and the origin of the ray that leaves a hit is
    stated for [prismIOR + wavelength <> 0]. *)
Definition eta (n1 n2 : R) : R := n1 / n2.

Definition c1 (L orientedN : Vector) : R := - dot L orientedN.

Definition cs2 (eta c1 : R) : R := 1 - eta * eta * (1 - c1 * c1).

Definition reflectedDir (L orientedN : Vector) : Vector :=
  sub L (scale orientedN (2 * dot L orientedN)).

Definition refractDir (L orientedN : Vector) (eta c1 cs2 : R) : Vector :=
  add (scale L eta) (scale orientedN (eta * c1 - sqrt cs2)).

(** The ray handed to the recursive call, from the ray, the point of the hit
    and the two endpoints of the edge that was hit. *)
Definition childRay (ray : Ray) (hitPoint edgeP1 edgeP2 : Point) : Ray :=
  let L := direction ray in
  let geoNormal := geoNormal edgeP1 edgeP2 in
  let entering := entering L geoNormal in
  let n1 := n1 ray entering in
  let n2 := n2 ray entering in
  let orientedN := orientedN entering geoNormal in
  let eta := eta n1 n2 in
  let c1 := c1 L orientedN in
  let cs2 := cs2 eta c1 in
  if cs2 <? 0 then
    let reflectedDir := reflectedDir L orientedN in
    let offsetOrigin := add hitPoint (scale reflectedDir 0.01) in
    {| origin := offsetOrigin;
       direction := normalize reflectedDir;
       color := color ray;
       wavelength := wavelength ray;
       intensity := intensity ray |}
  else
    let refractDir := refractDir L orientedN eta c1 cs2 in
    let offsetOrigin := add hitPoint (scale refractDir 0.01) in
    {| origin := offsetOrigin;
       direction := normalize refractDir;
       color := color ray;
       wavelength := wavelength ray;
       intensity := intensity ray |}.

Definition hitSegment (ray : Ray) (depth : Z) (closestHit : ClosestHit)
  : Segment :=
  {| seg_p1 := origin ray;
     seg_p2 := point (hit closestHit);
     seg_color := color ray;
     width := if (depth =? 0)%Z then 3 else 1.5;
     blur := if (depth =? 0)%Z then 15 else 8 |}.

Definition escapeSegment (ray : Ray) (depth : Z) : Segment :=
  let endPoint := add (origin ray) (scale (direction ray) 2000) in
  {| seg_p1 := origin ray;
     seg_p2 := endPoint;
     seg_color := color ray;
     width := if (depth =? 0)%Z then 3 else if (depth =? 2)%Z then 2 else 6;
     blur := if (depth =? 0)%Z then 10 else 20 |}.

(** What [traceRay] works on: the [segments] array it pushes to, and a ghost
    log of the arguments of every invocation of [traceRay] so far, in call
    order.  The log is not in the source; it makes the calls countable. *)
Record Store : Type := mkStore {
  segments : list Segment;
  calls : list (Ray * Z)
}.

Definition push (s : Store) (seg : Segment) : Store :=
  {| segments := segments s ++ [seg]; calls := calls s |}.

Definition enter (s : Store) (ray : Ray) (depth : Z) : Store :=
  {| segments := segments s; calls := calls s ++ [(ray, depth)] |}.

(** How an invocation ends: it returns, or a [TypeError] propagates out of
    it; either way the array is left as it then is. *)
Inductive outcome : Type :=
| Returned : Store -> outcome
| Threw : Store -> outcome.

Definition final (o : outcome) : Store :=
  match o with Returned s => s | Threw s => s end.

(** The number of levels a call at [depth] still has before the depth test
    stops it: the measure of the recursion. *)
Definition levels (depth : Z) : nat := Z.to_nat (5 - depth).

Equations traceRay (ray : Ray) (depth : Z) (vertices : list Point)
    (s : Store) : outcome by wf (levels depth) lt :=
traceRay ray depth vertices s with Z_gt_dec depth 4 := {
  | left _ => Returned (enter s ray depth)
  | right _ with findClosestHit ray vertices := {
    | TypeError => Threw (enter s ray depth)
    | Ok None => Returned (push (enter s ray depth) (escapeSegment ray depth))
    | Ok (Some closestHit)
        with edge vertices (boundaryIndex closestHit) := {
      | None =>
          Threw (push (enter s ray depth) (hitSegment ray depth closestHit))
      | Some (edgeP1, edgeP2) =>
          traceRay (childRay ray (point (hit closestHit)) edgeP1 edgeP2)
                   (depth + 1) vertices
                   (push (enter s ray depth)
                         (hitSegment ray depth closestHit)) } } }.
Next Obligation. clear traceRay. unfold levels. lia. Qed.

End Tracer.

(** The ray-tracing step of the rendering effect: one trace per spectrum
    sample, all from the light source and in the same direction, all pushing
    to the same array.  A [TypeError] would leave the [forEach]. *)

Record LightSourceData : Type := mkLightSourceData {
  position : Point;
  angle : R
}.

Definition spectralRay (light : LightSourceData) (spec : Sample) : Ray :=
  let dir := {| x := cos (angle light); y := sin (angle light) |} in
  {| origin := position light;
     direction := dir;
     color := sample_color spec;
     wavelength := wlOffset spec;
     intensity := sample_intensity spec |}.

(** [segmentsToDraw] as the effect creates it, with nothing logged yet. *)
Definition emptyStore : Store := {| segments := []; calls := [] |}.

Fixpoint forEachSample (prism : PrismData) (prismIOR : R)
    (light : LightSourceData) (vertices : list Point)
    (samples : list Sample) (s : Store) : outcome :=
  match samples with
  | [] => Returned s
  | spec :: rest =>
      match traceRay prism prismIOR (spectralRay light spec) 0 vertices s with
      | Returned s' => forEachSample prism prismIOR light vertices rest s'
      | Threw s' => Threw s'
      end
  end.

Definition traceSpectrum (prism : PrismData) (prismIOR : R)
    (light : LightSourceData) : outcome :=
  let vertices := getPrismVertices prism in
  forEachSample prism prismIOR light vertices SPECTRUM emptyStore.

(** The two object spreads of the drag handlers: the prism with another
    center, and with another rotation. *)
Definition withCenter (p : PrismData) (c : Point) : PrismData :=
  {| center := c;
     rotation := rotation p;
     sideLength := sideLength p;
     refractiveIndex := refractiveIndex p |}.

Definition withRotation (p : PrismData) (r : R) : PrismData :=
  {| center := center p;
     rotation := r;
     sideLength := sideLength p;
     refractiveIndex := refractiveIndex p |}.

(** The pointer handlers.  [interactionRef] is the mutable ref of the
    component; [prism] and [light] are its state.  A handler is modelled on
    the state that its closure sees, which is the current one when the
    component has been rendered again since the last event.  [Math.atan2] is
    its real-valued definition: the angle in (-PI, PI] of the point
    [(dx, dy)], and 0 at the origin. *)

Inductive DragTarget : Type := DragPrism | DragLight | DragRotatePrism.

Record Interaction : Type := mkInteraction {
  dragging : option DragTarget;
  lastMouse : Point
}.

Record Canvas : Type := mkCanvas {
  prismState : PrismData;
  lightState : LightSourceData;
  interactionRef : Interaction
}.

Definition atan2 (dy dx : R) : R :=
  if dx >? 0 then atan (dy / dx)
  else if dx <? 0 then
    if dy >=? 0 then atan (dy / dx) + PI else atan (dy / dx) - PI
  else if dy >? 0 then PI / 2
  else if dy <? 0 then - (PI / 2)
  else 0.

Definition handleMouseDown (cv : Canvas) (mouse : Point) : Canvas :=
  let prism := prismState cv in
  let light := lightState cv in
  if distance mouse (position light) <? 20 then
    {| prismState := prism; lightState := light;
       interactionRef := {| dragging := Some DragLight; lastMouse := mouse |} |}
  else if distance mouse (center prism) <? 30 then
    {| prismState := prism; lightState := light;
       interactionRef := {| dragging := Some DragPrism; lastMouse := mouse |} |}
  else if distance mouse (center prism) <? sideLength prism / 2 then
    {| prismState := prism; lightState := light;
       interactionRef :=
         {| dragging := Some DragRotatePrism; lastMouse := mouse |} |}
  else cv.

Definition handleMouseMove (cv : Canvas) (mouse : Point) : Canvas :=
  let prism := prismState cv in
  let light := lightState cv in
  match dragging (interactionRef cv) with
  | None => cv
  | Some target =>
      let lastMouse := lastMouse (interactionRef cv) in
      let dx := x mouse - x lastMouse in
      let dy := y mouse - y lastMouse in
      let moved := {| dragging := Some target; lastMouse := mouse |} in
      match target with
      | DragLight =>
          let newPos :=
            {| x := x (position light) + dx; y := y (position light) + dy |} in
          let angleToPrism :=
            atan2 (y (center prism) - y newPos) (x (center prism) - x newPos) in
          {| prismState := prism;
             lightState := {| position := newPos; angle := angleToPrism |};
             interactionRef := moved |}
      | DragPrism =>
          {| prismState :=
               withCenter prism
                 {| x := x (center prism) + dx; y := y (center prism) + dy |};
             lightState := light;
             interactionRef := moved |}
      | DragRotatePrism =>
          let ang1 :=
            atan2 (y lastMouse - y (center prism))
                  (x lastMouse - x (center prism)) in
          let ang2 :=
            atan2 (y mouse - y (center prism)) (x mouse - x (center prism)) in
          let delta := ang2 - ang1 in
          {| prismState := withRotation prism (rotation prism + delta);
             lightState := light;
             interactionRef := moved |}
      end
  end.

Definition handleMouseUp (cv : Canvas) : Canvas :=
  {| prismState := prismState cv;
     lightState := lightState cv;
     interactionRef :=
       {| dragging := None; lastMouse := lastMouse (interactionRef cv) |} |}.

(** The state the component starts in, for a window of the given size. *)
Definition initialCanvas (innerWidth innerHeight prismIOR : R) : Canvas :=
  {| prismState :=
       {| center := {| x := innerWidth / 2; y := innerHeight / 2 |};
          rotation := PI / 6;
          sideLength := 250;
          refractiveIndex := prismIOR |};
     lightState :=
       {| position := {| x := innerWidth * 0.15; y := innerHeight / 2 |};
          angle := -0.1 |};
     interactionRef :=
       {| dragging := None; lastMouse := {| x := 0; y := 0 |} |} |}.

(** A run of pointer moves, one event after the other. *)
Definition mouseMoves (cv : Canvas) (path : list Point) : Canvas :=
  fold_left handleMouseMove path cv.

(** ** Vocabulary of the statements *)

(** [normalize] with its division made observable: [checked_div] has no
    result when the divisor is zero, where the source's division would leave
    the finite numbers. *)
Definition checked_div (a b : R) : option R :=
  if Req_dec_T b 0 then None else Some (a / b).

Definition normalize_checked (v : Vector) : option Vector :=
  let m := mag v in
  if Req_dec_T m 0 then Some zero
  else
    match checked_div (x v) m, checked_div (y v) m with
    | Some a, Some b => Some {| x := a; y := b |}
    | _, _ => None
    end.

(** The conditions under which [intersectRaySegment] reports nothing. *)
Definition noIntersection (rayOrigin : Point) (rayDir : Vector)
    (p1 p2 : Point) : Prop :=
  Rabs (denom rayOrigin rayDir p1 p2) < 1e-6 \/
  ~ param_t rayOrigin rayDir p1 p2 > 0.001 \/
  param_u rayOrigin rayDir p1 p2 < 0 \/
  param_u rayOrigin rayDir p1 p2 > 1.

(** A candidate: a valid intersection of the ray with the edge of index
    [boundaryIndex]. *)
Definition validHitOf (ray : Ray) (vertices : list Point) (c : ClosestHit)
  : Prop :=
  exists p1 p2,
    edge vertices (boundaryIndex c) = Some (p1, p2) /\
    intersectRaySegment (origin ray) (direction ray) p1 p2 = Some (hit c).

(** What one invocation contributes, seen from an empty array and an empty
    log. *)
Definition trace (prism : PrismData) (prismIOR : R)
    (ray : Ray) (depth : Z) (vertices : list Point) : Store :=
  final (traceRay prism prismIOR ray depth vertices emptyStore).

(** The four ways an invocation of [traceRay] can go. *)
Inductive callShape (prism : PrismData) (prismIOR : R)
    (ray : Ray) (depth : Z) (vertices : list Point) : Prop :=
| shape_stop :
    (depth > 4)%Z ->
    (forall s, traceRay prism prismIOR ray depth vertices s
               = Returned (enter s ray depth)) ->
    callShape prism prismIOR ray depth vertices
| shape_throw :
    (depth <= 4)%Z ->
    (length vertices < 3)%nat ->
    (forall s, traceRay prism prismIOR ray depth vertices s
               = Threw (enter s ray depth)) ->
    callShape prism prismIOR ray depth vertices
| shape_escape :
    (depth <= 4)%Z ->
    findClosestHit ray vertices = Ok None ->
    (forall s, traceRay prism prismIOR ray depth vertices s
               = Returned (push (enter s ray depth) (escapeSegment ray depth))) ->
    callShape prism prismIOR ray depth vertices
| shape_hit c e1 e2 :
    (depth <= 4)%Z ->
    findClosestHit ray vertices = Ok (Some c) ->
    edge vertices (boundaryIndex c) = Some (e1, e2) ->
    (forall s, traceRay prism prismIOR ray depth vertices s
               = traceRay prism prismIOR
                   (childRay prism prismIOR ray (point (hit c)) e1 e2)
                   (depth + 1) vertices
                   (push (enter s ray depth) (hitSegment ray depth c))) ->
    callShape prism prismIOR ray depth vertices.

(** A concrete scene for the instances: a 3-4-5 triangle, a ray that meets
    its lower side head-on, and the same ray turned around. *)
Definition demoPrism : PrismData :=
  {| center := {| x := 1; y := 1 |};
     rotation := 0;
     sideLength := 4;
     refractiveIndex := 1.5 |}.

Definition demoVertices : list Point :=
  [ {| x := 0; y := 0 |}; {| x := 4; y := 0 |}; {| x := 0; y := 3 |} ].

Definition demoRay : Ray :=
  {| origin := {| x := 1; y := -1 |};
     direction := {| x := 0; y := 1 |};
     color := "#00ff00";
     wavelength := 0;
     intensity := 0.9 |}.

Definition demoAwayRay : Ray :=
  {| origin := {| x := 1; y := -1 |};
     direction := {| x := 0; y := -1 |};
     color := "#00ff00";
     wavelength := 0;
     intensity := 0.9 |}.

(** The same source aimed obliquely at the lower side, and a ray that
    starts inside the glass and meets the lower side beyond the critical
    angle. *)
Definition demoObliqueRay : Ray :=
  {| origin := {| x := 1; y := -1 |};
     direction := {| x := 0.6; y := 0.8 |};
     color := "#00ff00";
     wavelength := 0;
     intensity := 0.9 |}.

Definition demoInsideRay : Ray :=
  {| origin := {| x := 1; y := 1 |};
     direction := {| x := 0.8; y := -0.6 |};
     color := "#00ff00";
     wavelength := 0;
     intensity := 0.9 |}.

(** A horizontal ray direction and a vertical segment across it. *)
Definition demoDir : Vector := {| x := 1; y := 0 |}.
Definition demoP1 : Point := {| x := 1; y := -1 |}.
Definition demoP2 : Point := {| x := 1; y := 1 |}.

(** The two ends of the spectrum table. *)
Definition demoRed : Sample :=
  {| sample_color := "#ff0000"; wlOffset := -0.03; sample_intensity := 1.0 |}.
Definition demoViolet : Sample :=
  {| sample_color := "#8b00ff"; wlOffset := 0.03; sample_intensity := 0.8 |}.

Definition demoSegment : Segment :=
  {| seg_p1 := {| x := 0; y := 0 |};
     seg_p2 := {| x := 1; y := 1 |};
     seg_color := "#ff0000";
     width := 3;
     blur := 15 |}.


(** The closed triangle spanned by three vertices, in barycentric form. *)
Definition inTriangle (v0 v1 v2 p : Point) : Prop :=
  exists a b c : R,
    0 <= a /\ 0 <= b /\ 0 <= c /\ a + b + c = 1 /\
    x p = a * x v0 + b * x v1 + c * x v2 /\
    y p = a * y v0 + b * y v1 + c * y v2.

(** A light source for the instances, below the triangle and pointing up. *)
Definition demoLight : LightSourceData :=
  {| position := {| x := 1; y := -1 |}; angle := PI / 2 |}.

(** The component in a window of 800 by 600, and pointer positions near its
    prism and its light. *)
Definition demoCanvas : Canvas := initialCanvas 800 600 1.5.
Definition demoPressPrism : Point := {| x := 410; y := 300 |}.
Definition demoPressLight : Point := {| x := 125; y := 300 |}.
Definition demoPressRing : Point := {| x := 500; y := 300 |}.
Definition demoPath : list Point :=
  [ {| x := 420; y := 310 |}; {| x := 450; y := 200 |} ].

(** A hit moved by a vector. *)
Definition translateHit (v : Vector) (h : Hit) : Hit :=
  {| point := add (point h) v; t := t h; normal := normal h |}.

(** A closest hit, a ray, a segment and a store moved by a vector. *)
Definition translateClosest (v : Vector) (c : ClosestHit) : ClosestHit :=
  {| hit := translateHit v (hit c); boundaryIndex := boundaryIndex c |}.

Definition translateRay (v : Vector) (ray : Ray) : Ray :=
  {| origin := add (origin ray) v;
     direction := direction ray;
     color := color ray;
     wavelength := wavelength ray;
     intensity := intensity ray |}.

Definition translateSegment (v : Vector) (seg : Segment) : Segment :=
  {| seg_p1 := add (seg_p1 seg) v;
     seg_p2 := add (seg_p2 seg) v;
     seg_color := seg_color seg;
     width := width seg;
     blur := blur seg |}.

Definition translateStore (v : Vector) (st : Store) : Store :=
  {| segments := map (translateSegment v) (segments st);
     calls := map (fun call => (translateRay v (fst call), snd call))
                  (calls st) |}.

(** ** Comparisons and vector algebra *)

Lemma Rltb_true a b : (a <? b) = true <-> a < b.
Proof. unfold Rltb. destruct (Rlt_dec a b); split; intros; try easy. Qed.

Lemma Rltb_false a b : (a <? b) = false <-> ~ a < b.
Proof. unfold Rltb. destruct (Rlt_dec a b); split; intros; try easy. Qed.

Lemma Rgtb_true a b : (a >? b) = true <-> a > b.
Proof. unfold Rgtb. destruct (Rgt_dec a b); split; intros; try easy. Qed.

Lemma Rgtb_false a b : (a >? b) = false <-> ~ a > b.
Proof. unfold Rgtb. destruct (Rgt_dec a b); split; intros; try easy. Qed.

Lemma Rleb_true a b : (a <=? b) = true <-> a <= b.
Proof. unfold Rleb. destruct (Rle_dec a b); split; intros; try easy. Qed.

Lemma Rleb_false a b : (a <=? b) = false <-> ~ a <= b.
Proof. unfold Rleb. destruct (Rle_dec a b); split; intros; try easy. Qed.

Lemma Rgeb_true a b : (a >=? b) = true <-> a >= b.
Proof. unfold Rgeb. destruct (Rge_dec a b); split; intros; try easy. Qed.

Lemma Rgeb_false a b : (a >=? b) = false <-> ~ a >= b.
Proof. unfold Rgeb. destruct (Rge_dec a b); split; intros; try easy. Qed.

Lemma point_eq (p q : Point) : x p = x q -> y p = y q -> p = q.
Proof. destruct p, q; simpl; intros -> ->; reflexivity. Qed.

Lemma sumsq_nonneg (a b : R) : 0 <= a * a + b * b.
Proof. nra. Qed.

Lemma mag_nonneg (v : Vector) : 0 <= mag v.
Proof. apply sqrt_pos. Qed.

Lemma mag_sq (v : Vector) : mag v * mag v = x v * x v + y v * y v.
Proof. unfold mag. apply sqrt_sqrt, sumsq_nonneg. Qed.

Lemma mag_zero_inv (v : Vector) : mag v = 0 -> v = zero.
Proof.
  intros H. pose proof (mag_sq v) as Hs. rewrite H in Hs.
  apply point_eq; simpl; nra.
Qed.

Lemma mag_of_sq (v : Vector) (m : R) :
  0 <= m -> x v * x v + y v * y v = m * m -> mag v = m.
Proof. intros Hm H. unfold mag. rewrite H. now apply sqrt_square. Qed.

Lemma normalize_nonzero (v : Vector) :
  mag v <> 0 -> normalize v = {| x := x v / mag v; y := y v / mag v |}.
Proof. intros H. unfold normalize. now destruct (Req_dec_T (mag v) 0). Qed.

Lemma normalize_zero (v : Vector) : mag v = 0 -> normalize v = zero.
Proof. intros H. unfold normalize. now destruct (Req_dec_T (mag v) 0). Qed.

Lemma mag_normalize (v : Vector) : mag v <> 0 -> mag (normalize v) = 1.
Proof.
  intros H. rewrite (normalize_nonzero v H).
  apply mag_of_sq; [lra|]. simpl.
  pose proof (mag_sq v) as Hs.
  replace (x v / mag v * (x v / mag v) + y v / mag v * (y v / mag v))
    with ((x v * x v + y v * y v) / (mag v * mag v)) by (field; assumption).
  rewrite <- Hs. field. assumption.
Qed.

Lemma normalize_unit (v : Vector) : mag v = 1 -> normalize v = v.
Proof.
  intros H. rewrite normalize_nonzero by lra. rewrite H.
  apply point_eq; simpl; field.
Qed.

Lemma scale_normalize (v : Vector) : scale (normalize v) (mag v) = v.
Proof.
  destruct (Req_dec_T (mag v) 0) as [H | H].
  - pose proof (mag_zero_inv v H) as Hv.
    rewrite normalize_zero, H by assumption. rewrite Hv.
    apply point_eq; simpl; ring.
  - rewrite normalize_nonzero by assumption.
    apply point_eq; simpl; field; assumption.
Qed.

(** ** normalize *)

(** C8: [normalize] returns the zero vector when the magnitude of its input
    is exactly zero; for an input of nonzero magnitude it returns the input
    divided by its magnitude, a vector of magnitude 1; and the division is
    never reached with a zero magnitude, so the checked version of
    [normalize] always has a result, the one [normalize] returns. *)
Theorem normalize_guarded (v : Vector) :
  (mag v = 0 -> normalize v = zero) /\
  (mag v <> 0 ->
     normalize v = {| x := x v / mag v; y := y v / mag v |} /\
     mag (normalize v) = 1) /\
  normalize_checked v = Some (normalize v).
Proof.
  split; [apply normalize_zero|].
  split.
  - intros H. split; [now apply normalize_nonzero | now apply mag_normalize].
  - unfold normalize_checked, normalize, checked_div.
    destruct (Req_dec_T (mag v) 0); reflexivity.
Qed.

Lemma mag_3_4 : mag {| x := 3; y := 4 |} = 5.
Proof. apply mag_of_sq; simpl; lra. Qed.

Lemma normalize_guarded_witness :
  normalize zero = zero /\
  normalize {| x := 3; y := 4 |} = {| x := 3 / 5; y := 4 / 5 |} /\
  mag (normalize {| x := 3; y := 4 |}) = 1.
Proof.
  split.
  - apply (proj1 (normalize_guarded zero)).
    apply mag_of_sq; simpl; lra.
  - pose proof (proj1 (proj2 (normalize_guarded {| x := 3; y := 4 |}))) as H.
    rewrite mag_3_4 in H. simpl in H. apply H. lra.
Defined.

(** ** intersectRaySegment *)

Lemma mag_scale_neg (v : Vector) : mag (scale v (-1)) = mag v.
Proof. unfold mag, scale; simpl. f_equal. ring. Qed.

Lemma denom_cross (o d p1 p2 : Point) :
  denom o d p1 p2 = x d * (y p1 - y p2) * (-1) + y d * (x p1 - x p2).
Proof. unfold denom, add; simpl. ring. Qed.

(** A segment on which the determinant is not zero has two distinct ends, so
    its rotated direction has a nonzero magnitude. *)
Lemma denom_nonzero_perp (o d p1 p2 : Point) :
  denom o d p1 p2 <> 0 ->
  mag {| x := - y (sub p2 p1); y := x (sub p2 p1) |} <> 0.
Proof.
  intros Hd Hm. apply Hd. apply mag_zero_inv in Hm.
  injection Hm as Hx Hy. simpl in Hx, Hy.
  rewrite denom_cross. nra.
Qed.

Lemma Rabs_not_small (a e : R) : 0 < e -> ~ Rabs a < e -> a <> 0.
Proof. intros He H Ha. apply H. rewrite Ha, Rabs_R0. exact He. Qed.

Lemma intersect_None (o d p1 p2 : Point) :
  intersectRaySegment o d p1 p2 = None <-> noIntersection o d p1 p2.
Proof.
  unfold intersectRaySegment, noIntersection.
  destruct (Rabs (denom o d p1 p2) <? 1e-6) eqn:Hd.
  { apply Rltb_true in Hd. tauto. }
  apply Rltb_false in Hd.
  destruct (param_t o d p1 p2 >? 0.001) eqn:Ht; simpl.
  2:{ apply Rgtb_false in Ht. tauto. }
  apply Rgtb_true in Ht.
  destruct (param_u o d p1 p2 >=? 0) eqn:Hu0; simpl.
  2:{ apply Rgeb_false in Hu0. split; [|reflexivity].
      intros _. right; right; left. lra. }
  apply Rgeb_true in Hu0.
  destruct (param_u o d p1 p2 <=? 1) eqn:Hu1.
  - apply Rleb_true in Hu1. split; [discriminate|].
    intros [H | [H | [H | H]]]; lra.
  - apply Rleb_false in Hu1. split; [|reflexivity].
    intros _. right; right; right. lra.
Qed.

Lemma intersect_Some (o d p1 p2 : Point) (h : Hit) :
  intersectRaySegment o d p1 p2 = Some h ->
  ~ Rabs (denom o d p1 p2) < 1e-6 /\
  param_t o d p1 p2 > 0.001 /\
  0 <= param_u o d p1 p2 <= 1 /\
  point h = add o (scale d (param_t o d p1 p2)) /\
  t h = param_t o d p1 p2 /\
  mag (normal h) = 1 /\
  dot (normal h) (sub p2 p1) = 0 /\
  dot d (normal h) <= 0.
Proof.
  unfold intersectRaySegment.
  destruct (Rabs (denom o d p1 p2) <? 1e-6) eqn:Hd; [discriminate|].
  apply Rltb_false in Hd.
  destruct (param_t o d p1 p2 >? 0.001) eqn:Ht; simpl; [|discriminate].
  destruct (param_u o d p1 p2 >=? 0) eqn:Hu0; simpl; [|discriminate].
  destruct (param_u o d p1 p2 <=? 1) eqn:Hu1; [|discriminate].
  apply Rgtb_true in Ht. apply Rgeb_true in Hu0. apply Rleb_true in Hu1.
  intros [= <-]. cbn [point t normal].
  assert (Hnz : denom o d p1 p2 <> 0) by (apply (Rabs_not_small _ 1e-6); lra).
  pose proof (denom_nonzero_perp o d p1 p2 Hnz) as Hm.
  set (perp := {| x := - (y p2 - y p1); y := x p2 - x p1 |}) in *.
  change (mag perp <> 0) in Hm.
  assert (Hperp : dot (normalize perp) (sub p2 p1) = 0).
  { rewrite normalize_nonzero by assumption.
    unfold dot, perp; simpl. field. exact Hm. }
  repeat split; try assumption; try lra.
  - apply point_eq; simpl; ring.
  - destruct (dot d (normalize perp) >? 0);
      [rewrite mag_scale_neg|]; now apply mag_normalize.
  - destruct (dot d (normalize perp) >? 0); [|assumption].
    unfold dot, scale in *; simpl in *. lra.
  - destruct (dot d (normalize perp) >? 0) eqn:Hf.
    + apply Rgtb_true in Hf. unfold dot, scale in *; simpl in *. lra.
    + apply Rgtb_false in Hf. lra.
Qed.

(** The two parameters are the solution of the linear system
    [origin + t * direction = p1 + u * (p2 - p1)]: wherever the determinant
    is not zero they solve it, and nothing else does. *)
Lemma denom_cross_dir (o d p1 p2 : Point) :
  denom o d p1 p2 = cross d (sub p2 p1).
Proof. unfold denom, cross, add, sub; simpl. ring. Qed.

Lemma params_solve (o d p1 p2 : Point) :
  denom o d p1 p2 <> 0 ->
  add o (scale d (param_t o d p1 p2))
  = add p1 (scale (sub p2 p1) (param_u o d p1 p2)).
Proof.
  intros Hd. unfold param_t, param_u.
  set (D := denom o d p1 p2) in *.
  assert (HD : D = x d * (y p2 - y p1) - y d * (x p2 - x p1))
    by (unfold D, denom, add; simpl; ring).
  apply point_eq; simpl; field_simplify_eq; try exact Hd; rewrite HD; ring.
Qed.

Lemma params_unique (o d p1 p2 : Point) (t' u' : R) :
  denom o d p1 p2 <> 0 ->
  add o (scale d t') = add p1 (scale (sub p2 p1) u') ->
  t' = param_t o d p1 p2 /\ u' = param_u o d p1 p2.
Proof.
  intros Hd Heq. injection Heq as Hx Hy. simpl in Hx, Hy.
  unfold param_t, param_u.
  set (D := denom o d p1 p2) in *.
  assert (HD : D = x d * (y p2 - y p1) - y d * (x p2 - x p1))
    by (unfold D, denom, add; simpl; ring).
  assert (Hwx : x o - x p1 = (x p2 - x p1) * u' - x d * t') by lra.
  assert (Hwy : y o - y p1 = (y p2 - y p1) * u' - y d * t') by lra.
  split.
  - apply (Rmult_eq_reg_r D); [|exact Hd].
    replace (((x o - x p1) * (y p1 - y p2) - (y o - y p1) * (x p1 - x p2))
             / D * D)
      with ((x o - x p1) * (y p1 - y p2) - (y o - y p1) * (x p1 - x p2))
      by (field; exact Hd).
    rewrite Hwx, Hwy, HD. ring.
  - apply (Rmult_eq_reg_r D); [|exact Hd].
    replace (- ((x o - x (add o d)) * (y o - y p1)
                - (y o - y (add o d)) * (x o - x p1)) / D * D)
      with (- ((x o - x (add o d)) * (y o - y p1)
               - (y o - y (add o d)) * (x o - x p1)))
      by (field; exact Hd).
    simpl. rewrite Hwx, Hwy, HD. ring.
Qed.

(** C3: for every ray origin, ray direction and segment ends: the
    determinant is the cross product of the ray direction and the segment
    vector; wherever it is not zero, [t] and [u] are the one solution of
    [origin + t * direction = p1 + u * (p2 - p1)].  [intersectRaySegment]
    returns no intersection exactly when the magnitude of the determinant is
    below 1e-6, or the solved ray parameter fails [t > 0.001], or the solved
    segment parameter is outside [0, 1]; otherwise it returns a hit made of
    the point [origin + t * direction], which is the point
    [p1 + u * (p2 - p1)] of the segment, of [t], and of a unit normal that is
    perpendicular to the segment and whose dot product with the ray
    direction is not positive. *)
Theorem intersectRaySegment_cases
    (rayOrigin : Point) (rayDir : Vector) (p1 p2 : Point) :
  let tt := param_t rayOrigin rayDir p1 p2 in
  let u := param_u rayOrigin rayDir p1 p2 in
  denom rayOrigin rayDir p1 p2 = cross rayDir (sub p2 p1) /\
  (denom rayOrigin rayDir p1 p2 <> 0 ->
   add rayOrigin (scale rayDir tt) = add p1 (scale (sub p2 p1) u) /\
   forall t' u' : R,
     add rayOrigin (scale rayDir t') = add p1 (scale (sub p2 p1) u') ->
     t' = tt /\ u' = u) /\
  (intersectRaySegment rayOrigin rayDir p1 p2 = None <->
   Rabs (cross rayDir (sub p2 p1)) < 1e-6 \/
   ~ tt > 0.001 \/ u < 0 \/ u > 1) /\
  (intersectRaySegment rayOrigin rayDir p1 p2 = None <->
   noIntersection rayOrigin rayDir p1 p2) /\
  (~ noIntersection rayOrigin rayDir p1 p2 ->
   exists h : Hit,
     intersectRaySegment rayOrigin rayDir p1 p2 = Some h /\
     point h = add rayOrigin (scale rayDir tt) /\
     point h = add p1 (scale (sub p2 p1) u) /\
     tt > 0.001 /\ 0 <= u <= 1 /\
     t h = tt /\
     mag (normal h) = 1 /\
     dot (normal h) (sub p2 p1) = 0 /\
     dot rayDir (normal h) <= 0).
Proof.
  intros tt u.
  split; [apply denom_cross_dir|].
  split.
  { intros Hd. split; [now apply params_solve|].
    intros t' u' Heq. now apply params_unique. }
  split.
  { rewrite <- (denom_cross_dir rayOrigin).
    exact (intersect_None rayOrigin rayDir p1 p2). }
  split; [apply intersect_None|].
  intros Hno.
  destruct (intersectRaySegment rayOrigin rayDir p1 p2) as [h|] eqn:Hi.
  - exists h. split; [reflexivity|].
    apply intersect_Some in Hi.
    destruct Hi as (Hd & Ht & Hu & Hp & Hth & Hm & Hperp & Hdot).
    assert (Hnz : denom rayOrigin rayDir p1 p2 <> 0)
      by (apply (Rabs_not_small _ 1e-6); lra).
    split; [exact Hp|].
    split; [rewrite Hp; now apply params_solve|].
    tauto.
  - exfalso. apply Hno. now apply intersect_None.
Qed.

Lemma intersectRaySegment_cases_witness :
  denom zero demoDir demoP1 demoP2 <> 0 /\
  ~ noIntersection zero demoDir demoP1 demoP2 /\
  add zero (scale demoDir 1) = add demoP1 (scale (sub demoP2 demoP1) (1 / 2)) /\
  param_t zero demoDir demoP1 demoP2 = 1 /\
  param_u zero demoDir demoP1 demoP2 = 1 / 2 /\
  exists h : Hit,
    intersectRaySegment zero demoDir demoP1 demoP2 = Some h /\
    point h = {| x := 1; y := 0 |} /\
    t h = 1 /\
    mag (normal h) = 1 /\
    dot (normal h) (sub demoP2 demoP1) = 0 /\
    dot demoDir (normal h) <= 0.
Proof.
  assert (Hd : denom zero demoDir demoP1 demoP2 = 2)
    by (unfold denom; simpl; lra).
  assert (Hnz : denom zero demoDir demoP1 demoP2 <> 0) by lra.
  assert (Hline : add zero (scale demoDir 1)
                  = add demoP1 (scale (sub demoP2 demoP1) (1 / 2)))
    by (apply point_eq; simpl; lra).
  destruct (intersectRaySegment_cases zero demoDir demoP1 demoP2)
    as (_ & Hsolved & _ & _ & Hhit).
  destruct (proj2 (Hsolved Hnz) 1 (1 / 2) Hline) as [Ht Hu].
  assert (Hno : ~ noIntersection zero demoDir demoP1 demoP2).
  { unfold noIntersection. rewrite Hd, <- Ht, <- Hu.
    rewrite Rabs_pos_eq by lra. lra. }
  split; [exact Hnz|]. split; [exact Hno|]. split; [exact Hline|].
  split; [now symmetry|]. split; [now symmetry|].
  destruct (Hhit Hno) as (h & Hh & Hp & _ & _ & _ & Hth & Hm & Hperp & Hdot).
  exists h. split; [exact Hh|].
  split; [rewrite Hp, <- Ht; apply point_eq; simpl; lra|].
  split; [congruence|]. auto.
Defined.

(** ** traceRay, one call at a time *)

Section TracerFacts.

Variable prism : PrismData.
Variable prismIOR : R.

Lemma traceRay_stop ray depth vertices s :
  (depth > 4)%Z ->
  traceRay prism prismIOR ray depth vertices s = Returned (enter s ray depth).
Proof.
  intros H. rewrite traceRay_equation_1.
  destruct (Z_gt_dec depth 4) as [g | n]; [|contradiction].
  simp traceRay. reflexivity.
Qed.

Lemma traceRay_throw ray depth vertices s :
  (depth <= 4)%Z ->
  findClosestHit ray vertices = TypeError ->
  traceRay prism prismIOR ray depth vertices s = Threw (enter s ray depth).
Proof.
  intros H Hc. rewrite traceRay_equation_1.
  destruct (Z_gt_dec depth 4) as [g | n]; [lia|].
  simp traceRay. rewrite Hc. simp traceRay. reflexivity.
Qed.

Lemma traceRay_escape ray depth vertices s :
  (depth <= 4)%Z ->
  findClosestHit ray vertices = Ok None ->
  traceRay prism prismIOR ray depth vertices s =
  Returned (push (enter s ray depth) (escapeSegment ray depth)).
Proof.
  intros H Hc. rewrite traceRay_equation_1.
  destruct (Z_gt_dec depth 4) as [g | n]; [lia|].
  simp traceRay. rewrite Hc. simp traceRay. reflexivity.
Qed.

Lemma traceRay_hit ray depth vertices s c e1 e2 :
  (depth <= 4)%Z ->
  findClosestHit ray vertices = Ok (Some c) ->
  edge vertices (boundaryIndex c) = Some (e1, e2) ->
  traceRay prism prismIOR ray depth vertices s =
  traceRay prism prismIOR
    (childRay prism prismIOR ray (point (hit c)) e1 e2) (depth + 1) vertices
    (push (enter s ray depth) (hitSegment ray depth c)).
Proof.
  intros H Hc He.
  remember (traceRay prism prismIOR
              (childRay prism prismIOR ray (point (hit c)) e1 e2) (depth + 1)
              vertices (push (enter s ray depth) (hitSegment ray depth c)))
    as rhs eqn:Hrhs.
  rewrite traceRay_equation_1.
  destruct (Z_gt_dec depth 4) as [g | n]; [lia|].
  simp traceRay. rewrite Hc. simp traceRay. rewrite He. simp traceRay.
  rewrite <- traceRay_equation_1. symmetry. exact Hrhs.
Qed.

Lemma traceRay_hit_throw ray depth vertices s c :
  (depth <= 4)%Z ->
  findClosestHit ray vertices = Ok (Some c) ->
  edge vertices (boundaryIndex c) = None ->
  traceRay prism prismIOR ray depth vertices s =
  Threw (push (enter s ray depth) (hitSegment ray depth c)).
Proof.
  intros H Hc He. rewrite traceRay_equation_1.
  destruct (Z_gt_dec depth 4) as [g | n]; [lia|].
  simp traceRay. rewrite Hc. simp traceRay. rewrite He. simp traceRay.
  reflexivity.
Qed.


(** *** The search for the closest hit *)

Lemma edge_Some_lt (vertices : list Point) (i : nat) :
  (i < 3)%nat -> (3 <= length vertices)%nat ->
  exists p1 p2, edge vertices i = Some (p1, p2).
Proof.
  intros Hi Hl. unfold edge.
  destruct (nth_error vertices i) as [p1|] eqn:H1.
  2:{ apply nth_error_None in H1. lia. }
  destruct (nth_error vertices ((i + 1) mod 3)) as [p2|] eqn:H2.
  2:{ apply nth_error_None in H2.
      pose proof (Nat.mod_upper_bound (i + 1) 3). lia. }
  now exists p1, p2.
Qed.

Lemma edge_None_short (vertices : list Point) :
  (length vertices < 3)%nat -> exists i, (i < 3)%nat /\ edge vertices i = None.
Proof.
  intros Hl.
  destruct vertices as [|v0 [|v1 [|v2 rest]]]; simpl in Hl; try lia.
  - exists 0%nat. split; [lia | reflexivity].
  - exists 0%nat. split; [lia | reflexivity].
  - exists 1%nat. split; [lia | reflexivity].
Qed.

Lemma scanEdges_TypeError ray vertices indices acc :
  scanEdges ray vertices indices acc = TypeError <->
  exists i, In i indices /\ edge vertices i = None.
Proof.
  revert acc. induction indices as [|i rest IH]; intros acc; simpl.
  - split; [discriminate | intros [i [[] _]]].
  - destruct (edge vertices i) as [[p1 p2]|] eqn:He.
    + rewrite IH. split.
      * intros [j [Hj Hn]]. exists j. auto.
      * intros [j [[<- | Hj] Hn]]; [congruence | exists j; auto].
    + split; [|reflexivity]. intros _. exists i. auto.
Qed.

Lemma scanEdges_None ray vertices indices acc :
  scanEdges ray vertices indices acc = Ok None <->
  acc = None /\
  forall i, In i indices ->
    exists p1 p2,
      edge vertices i = Some (p1, p2) /\
      intersectRaySegment (origin ray) (direction ray) p1 p2 = None.
Proof.
  revert acc. induction indices as [|i rest IH]; intros acc; simpl.
  - split.
    + intros [= ->]. split; [reflexivity | intros i []].
    + intros [-> _]. reflexivity.
  - destruct (edge vertices i) as [[p1 p2]|] eqn:He.
    + rewrite IH. unfold updateClosest.
      destruct (intersectRaySegment (origin ray) (direction ray) p1 p2)
        as [h|] eqn:Hi.
      * split.
        -- intros [Hu _]. destruct acc as [c|]; [|discriminate].
           destruct (t h <? t (hit c)); discriminate.
        -- intros [_ Hall]. destruct (Hall i (or_introl eq_refl))
             as [q1 [q2 [Hq Hn]]]. congruence.
      * split.
        -- intros [-> Hall]. split; [reflexivity|].
           intros j [<- | Hj]; [exists p1, p2; auto | auto].
        -- intros [-> Hall]. split; [reflexivity | auto].
    + split; [discriminate|]. intros [_ Hall].
      destruct (Hall i (or_introl eq_refl)) as [q1 [q2 [Hq _]]]. congruence.
Qed.

Lemma scanEdges_Some ray vertices indices acc c :
  scanEdges ray vertices indices acc = Ok (Some c) ->
  (acc = Some c \/ (In (boundaryIndex c) indices /\ validHitOf ray vertices c))
  /\
  (forall a, acc = Some a -> t (hit c) <= t (hit a)) /\
  (forall i p1 p2 h, In i indices ->
     edge vertices i = Some (p1, p2) ->
     intersectRaySegment (origin ray) (direction ray) p1 p2 = Some h ->
     t (hit c) <= t h).
Proof.
  revert acc. induction indices as [|i rest IH]; intros acc; simpl.
  - intros [= ->]. split; [auto|]. split.
    + intros a [= ->]. lra.
    + intros i p1 p2 h [].
  - destruct (edge vertices i) as [[p1 p2]|] eqn:He; [|discriminate].
    intros Hs. apply IH in Hs. destruct Hs as [Hwho [Hacc Hrest]].
    destruct (intersectRaySegment (origin ray) (direction ray) p1 p2)
      as [h|] eqn:Hi.
    + (* this edge has a valid hit *)
      assert (Hnew : forall a, updateClosest acc i (Some h) = Some a ->
                (a = {| hit := h; boundaryIndex := i |} \/ acc = Some a) /\
                t (hit a) <= t h /\
                (forall b, acc = Some b -> t (hit a) <= t (hit b))).
      { intros a. unfold updateClosest. destruct acc as [b|].
        - destruct (t h <? t (hit b)) eqn:Hlt.
          + apply Rltb_true in Hlt. intros [= <-]. simpl.
            split; [auto|]. split; [lra|]. intros b' [= <-]. lra.
          + apply Rltb_false in Hlt. intros [= <-].
            split; [auto|]. split; [lra|]. intros b' [= <-]. lra.
        - intros [= <-]. simpl. split; [auto|]. split; [lra|].
          intros b [=]. }
      assert (Hex : exists a, updateClosest acc i (Some h) = Some a).
      { unfold updateClosest. destruct acc as [b|]; [|eauto].
        destruct (t h <? t (hit b)); eauto. }
      destruct Hex as [a Ha]. destruct (Hnew a Ha) as [Hwa [Hah Hab]].
      pose proof (Hacc a Ha) as Hca.
      split; [|split].
      * destruct Hwho as [Hw | [Hin Hv]]; [|auto].
        rewrite Ha in Hw. injection Hw as <-.
        destruct Hwa as [-> | Hwa]; [|auto].
        right. simpl. split; [auto|]. exists p1, p2. simpl. auto.
      * intros b Hb. specialize (Hab b Hb). lra.
      * intros j q1 q2 h' [<- | Hj] Hq Hh'.
        -- rewrite He in Hq. injection Hq as <- <-.
           rewrite Hi in Hh'. injection Hh' as <-. lra.
        -- eapply Hrest; eauto.
    + (* this edge has none *)
      simpl in Hwho, Hacc.
      split; [|split].
      * destruct Hwho as [Hw | [Hin Hv]]; auto.
      * exact Hacc.
      * intros j q1 q2 h' [<- | Hj] Hq Hh'.
        -- rewrite He in Hq. injection Hq as <- <-. congruence.
        -- eapply Hrest; eauto.
Qed.

Lemma in_seq3 (i : nat) : In i (seq 0 3) <-> (i < 3)%nat.
Proof. rewrite in_seq. lia. Qed.

Lemma findClosestHit_TypeError ray vertices :
  findClosestHit ray vertices = TypeError <-> (length vertices < 3)%nat.
Proof.
  unfold findClosestHit. rewrite scanEdges_TypeError. split.
  - intros [i [Hi Hn]]. apply in_seq3 in Hi.
    destruct (le_lt_dec 3 (length vertices)) as [Hl | Hl]; [|exact Hl].
    destruct (edge_Some_lt vertices i Hi Hl) as [p1 [p2 He]]. congruence.
  - intros Hl. destruct (edge_None_short vertices Hl) as [i [Hi Hn]].
    exists i. split; [now apply in_seq3 | exact Hn].
Qed.

Lemma findClosestHit_Some ray vertices c :
  findClosestHit ray vertices = Ok (Some c) ->
  (boundaryIndex c < 3)%nat /\
  validHitOf ray vertices c /\
  (forall i p1 p2 h, (i < 3)%nat ->
     edge vertices i = Some (p1, p2) ->
     intersectRaySegment (origin ray) (direction ray) p1 p2 = Some h ->
     t (hit c) <= t h).
Proof.
  unfold findClosestHit. intros H. apply scanEdges_Some in H.
  destruct H as [[Hw | [Hin Hv]] [_ Hmin]]; [discriminate|].
  split; [now apply in_seq3|]. split; [exact Hv|].
  intros i p1 p2 h Hi. apply Hmin. now apply in_seq3.
Qed.

Lemma findClosestHit_None ray vertices :
  findClosestHit ray vertices = Ok None <->
  forall i, (i < 3)%nat ->
    exists p1 p2,
      edge vertices i = Some (p1, p2) /\
      intersectRaySegment (origin ray) (direction ray) p1 p2 = None.
Proof.
  unfold findClosestHit. rewrite scanEdges_None. split.
  - intros [_ H] i Hi. apply H. now apply in_seq3.
  - intros H. split; [reflexivity|]. intros i Hi. apply H. now apply in_seq3.
Qed.

(** *** The shape of one invocation *)

Lemma validHit_edge ray vertices c :
  findClosestHit ray vertices = Ok (Some c) ->
  exists e1 e2,
    edge vertices (boundaryIndex c) = Some (e1, e2) /\
    intersectRaySegment (origin ray) (direction ray) e1 e2 = Some (hit c).
Proof. intros H. apply findClosestHit_Some in H. apply H. Qed.

Lemma traceRay_shape ray depth vertices :
  callShape prism prismIOR ray depth vertices.
Proof.
  destruct (Z_gt_dec depth 4) as [Hg | Hg].
  { apply shape_stop; [exact Hg|]. intros s. now apply traceRay_stop. }
  assert (Hd : (depth <= 4)%Z) by lia.
  destruct (findClosestHit ray vertices) as [[c|]|] eqn:Hc.
  - destruct (validHit_edge ray vertices c Hc) as [e1 [e2 [He _]]].
    apply (shape_hit _ _ _ _ _ c e1 e2); auto.
    intros s. now apply traceRay_hit.
  - apply shape_escape; auto. intros s. now apply traceRay_escape.
  - apply shape_throw; auto.
    + now apply (proj1 (findClosestHit_TypeError ray vertices)).
    + intros s. now apply traceRay_throw.
Qed.

Lemma levels_step (depth : Z) :
  (depth <= 4)%Z -> levels depth = S (levels (depth + 1)).
Proof. unfold levels. lia. Qed.

Lemma levels_stop (depth : Z) : (depth > 4)%Z -> levels depth = 0%nat.
Proof. unfold levels. lia. Qed.

(** The effect of an invocation does not depend on what the array and the
    log already hold: it is what [trace] says, appended. *)
Lemma traceRay_frame ray depth vertices s :
  segments (final (traceRay prism prismIOR ray depth vertices s))
  = segments s ++ segments (trace prism prismIOR ray depth vertices) /\
  calls (final (traceRay prism prismIOR ray depth vertices s))
  = calls s ++ calls (trace prism prismIOR ray depth vertices).
Proof.
  remember (levels depth) as n eqn:Hn.
  revert ray depth s Hn.
  induction n as [|n IH]; intros ray depth s Hn; unfold trace;
    destruct (traceRay_shape ray depth vertices) as
      [Hg Heq | Hd Hl Heq | Hd Hc Heq | c e1 e2 Hd Hc He Heq];
    try (rewrite levels_step in Hn by assumption; discriminate Hn);
    try (rewrite levels_stop in Hn by assumption; discriminate Hn);
    rewrite (Heq s), (Heq emptyStore); simpl;
    try (rewrite ?app_nil_r; split; reflexivity).
  - rewrite levels_step in Hn by assumption. injection Hn as Hn.
    destruct (IH (childRay prism prismIOR ray (point (hit c)) e1 e2)
                 (depth + 1)%Z
                 (push (enter s ray depth) (hitSegment ray depth c)) Hn)
      as [Hs1 Hc1].
    destruct (IH (childRay prism prismIOR ray (point (hit c)) e1 e2)
                 (depth + 1)%Z
                 (push (enter emptyStore ray depth) (hitSegment ray depth c))
                 Hn)
      as [Hs2 Hc2].
    rewrite Hs1, Hc1, Hs2, Hc2. simpl.
    split; now rewrite <- !app_assoc.
Qed.

(** *** What one invocation contributes *)

Lemma trace_stop ray depth vertices :
  (depth > 4)%Z ->
  trace prism prismIOR ray depth vertices
  = {| segments := []; calls := [(ray, depth)] |}.
Proof. intros H. unfold trace. now rewrite traceRay_stop. Qed.

Lemma trace_throw ray depth vertices :
  (depth <= 4)%Z -> (length vertices < 3)%nat ->
  trace prism prismIOR ray depth vertices
  = {| segments := []; calls := [(ray, depth)] |}.
Proof.
  intros H Hl. unfold trace. rewrite traceRay_throw; auto.
  now apply findClosestHit_TypeError.
Qed.

Lemma trace_escape ray depth vertices :
  (depth <= 4)%Z ->
  findClosestHit ray vertices = Ok None ->
  trace prism prismIOR ray depth vertices
  = {| segments := [escapeSegment ray depth]; calls := [(ray, depth)] |}.
Proof. intros H Hc. unfold trace. now rewrite traceRay_escape. Qed.

Lemma trace_hit ray depth vertices c e1 e2 :
  (depth <= 4)%Z ->
  findClosestHit ray vertices = Ok (Some c) ->
  edge vertices (boundaryIndex c) = Some (e1, e2) ->
  let child := childRay prism prismIOR ray (point (hit c)) e1 e2 in
  trace prism prismIOR ray depth vertices
  = {| segments := hitSegment ray depth c
                   :: segments (trace prism prismIOR child (depth + 1) vertices);
       calls := (ray, depth)
                :: calls (trace prism prismIOR child (depth + 1) vertices) |}.
Proof.
  intros H Hc He child. unfold trace at 1.
  rewrite (traceRay_hit ray depth vertices emptyStore c e1 e2 H Hc He).
  fold child.
  destruct (traceRay_frame child (depth + 1)%Z vertices
              (push (enter emptyStore ray depth) (hitSegment ray depth c)))
    as [Hs Hl].
  destruct (final (traceRay prism prismIOR child (depth + 1) vertices
              (push (enter emptyStore ray depth) (hitSegment ray depth c))))
    as [segs log].
  simpl in Hs, Hl. now subst.
Qed.

(** Induction along the chain of invocations. *)
Lemma trace_ind (vertices : list Point) (P : Ray -> Z -> Store -> Prop) :
  (forall ray depth, (depth > 4)%Z \/ (length vertices < 3)%nat ->
     P ray depth {| segments := []; calls := [(ray, depth)] |}) ->
  (forall ray depth, (depth <= 4)%Z ->
     findClosestHit ray vertices = Ok None ->
     P ray depth
       {| segments := [escapeSegment ray depth]; calls := [(ray, depth)] |}) ->
  (forall ray depth c e1 e2, (depth <= 4)%Z ->
     findClosestHit ray vertices = Ok (Some c) ->
     edge vertices (boundaryIndex c) = Some (e1, e2) ->
     let child := childRay prism prismIOR ray (point (hit c)) e1 e2 in
     let rest := trace prism prismIOR child (depth + 1) vertices in
     P child (depth + 1)%Z rest ->
     P ray depth
       {| segments := hitSegment ray depth c :: segments rest;
          calls := (ray, depth) :: calls rest |}) ->
  forall ray depth, P ray depth (trace prism prismIOR ray depth vertices).
Proof.
  intros Hstop Hesc Hhit ray depth.
  remember (levels depth) as n eqn:Hn.
  revert ray depth Hn.
  induction n as [|n IH]; intros ray depth Hn;
    destruct (traceRay_shape ray depth vertices) as
      [Hg _ | Hd Hl _ | Hd Hc _ | c e1 e2 Hd Hc He _];
    try (rewrite levels_step in Hn by assumption; discriminate Hn);
    try (rewrite levels_stop in Hn by assumption; discriminate Hn).
  - rewrite trace_stop by assumption. auto.
  - rewrite trace_throw by assumption. auto.
  - rewrite trace_escape by assumption. auto.
  - rewrite (trace_hit ray depth vertices c e1 e2) by assumption.
    apply Hhit; try assumption. apply IH.
    rewrite levels_step in Hn by assumption. now injection Hn.
Qed.

Lemma trace_segments_bound ray depth vertices :
  (length (segments (trace prism prismIOR ray depth vertices))
   <= levels depth)%nat.
Proof.
  apply (trace_ind vertices
           (fun _ d st => (length (segments st) <= levels d)%nat)).
  - intros; simpl; lia.
  - intros r d Hd _. simpl. rewrite levels_step by assumption. lia.
  - intros r d c e1 e2 Hd _ _ child rest IH. simpl.
    rewrite (levels_step d) by assumption. lia.
Qed.

Lemma trace_calls_bound ray depth vertices :
  (length (calls (trace prism prismIOR ray depth vertices))
   <= 1 + levels depth)%nat.
Proof.
  apply (trace_ind vertices
           (fun _ d st => (length (calls st) <= 1 + levels d)%nat)).
  - intros; simpl; lia.
  - intros; simpl; lia.
  - intros r d c e1 e2 Hd _ _ child rest IH. simpl.
    rewrite (levels_step d) by assumption. lia.
Qed.

Lemma trace_calls_depths ray depth vertices :
  let log := calls (trace prism prismIOR ray depth vertices) in
  map snd log = map (fun k => (depth + Z.of_nat k)%Z) (seq 0 (length log)).
Proof.
  apply (trace_ind vertices
           (fun _ d st =>
              map snd (calls st)
              = map (fun k => (d + Z.of_nat k)%Z)
                    (seq 0 (length (calls st))))).
  - intros; simpl. f_equal. lia.
  - intros; simpl. f_equal. lia.
  - intros r d c e1 e2 Hd _ _ child rest IH. simpl.
    f_equal; [lia|]. rewrite IH. rewrite <- seq_shift, map_map.
    apply map_ext. intros k. lia.
Qed.

Lemma trace_calls_head ray depth vertices :
  exists log,
    calls (trace prism prismIOR ray depth vertices) = (ray, depth) :: log.
Proof.
  apply (trace_ind vertices
           (fun r d st => exists log, calls st = (r, d) :: log));
    intros; simpl; eauto.
Qed.

(** *** Termination and the frame of the output array *)

(** C5: the tracer terminates for every ray, depth and vertex list.  The
    invocations it makes form a finite chain: the k-th has depth [depth + k]
    (each recursive call adds exactly 1), there are at most
    [1 + (5 - depth)] of them, none of the recursive ones has a depth above
    5, and a call with [depth > 4] returns at once, with no segment pushed
    and no further invocation.  From a depth that is not negative the chain
    has at most 6 invocations. *)
Theorem traceRay_terminates ray depth vertices s :
  let log := calls (trace prism prismIOR ray depth vertices) in
  (exists st, traceRay prism prismIOR ray depth vertices s = Returned st \/
              traceRay prism prismIOR ray depth vertices s = Threw st) /\
  calls (final (traceRay prism prismIOR ray depth vertices s))
  = calls s ++ log /\
  map snd log = map (fun k => (depth + Z.of_nat k)%Z) (seq 0 (length log)) /\
  (length log <= 1 + Z.to_nat (5 - depth))%nat /\
  Forall (fun call => (snd call <= Z.max depth 5)%Z) log /\
  ((depth > 4)%Z ->
   traceRay prism prismIOR ray depth vertices s
   = Returned {| segments := segments s; calls := calls s ++ [(ray, depth)] |})
  /\
  ((0 <= depth)%Z -> (length log <= 6)%nat).
Proof.
  intros log.
  pose proof (trace_calls_bound ray depth vertices) as Hb.
  pose proof (trace_calls_depths ray depth vertices) as Hd.
  fold log in Hb. cbv zeta in Hd. fold log in Hd. unfold levels in Hb.
  split; [|split; [|split; [|split; [|split; [|split]]]]].
  - destruct (traceRay prism prismIOR ray depth vertices s) as [st | st];
      exists st; auto.
  - apply traceRay_frame.
  - exact Hd.
  - exact Hb.
  - apply Forall_forall. intros call Hin.
    apply (in_map snd) in Hin. rewrite Hd in Hin.
    apply in_map_iff in Hin. destruct Hin as [k [Hk Hin]].
    apply in_seq in Hin. lia.
  - intros Hg. now apply traceRay_stop.
  - intros H0. lia.
Qed.

(** C10: the tracer only appends to [segments].  After any call the array is
    what it was before, followed by what the call appended, so every entry
    that was present is still there, unchanged and at the same index.  A
    call appends at most one segment of its own and spawns at most one child,
    at [depth + 1]; what is appended in total is bounded by [5 - depth], so a
    trace started at depth 0 appends at most 5 segments. *)
Theorem traceRay_appends_only ray depth vertices s :
  let after := segments (final (traceRay prism prismIOR ray depth vertices s)) in
  let appended := segments (trace prism prismIOR ray depth vertices) in
  after = segments s ++ appended /\
  (forall i seg, nth_error (segments s) i = Some seg ->
                 nth_error after i = Some seg) /\
  (exists own children,
     (length own <= 1)%nat /\ (length children <= 1)%nat /\
     appended
     = own ++ concat (map (fun child =>
                             segments (trace prism prismIOR child (depth + 1)
                                             vertices)) children) /\
     calls (trace prism prismIOR ray depth vertices)
     = (ray, depth)
       :: concat (map (fun child =>
                         calls (trace prism prismIOR child (depth + 1)
                                      vertices)) children)) /\
  (length appended <= Z.to_nat (5 - depth))%nat /\
  (length (segments (trace prism prismIOR ray 0 vertices)) <= 5)%nat.
Proof.
  intros after appended.
  assert (Hfr : after = segments s ++ appended) by apply traceRay_frame.
  split; [exact Hfr|]. split; [|split; [|split]].
  - intros i seg Hi. rewrite Hfr. rewrite nth_error_app1; [exact Hi|].
    apply nth_error_Some. congruence.
  - unfold appended.
    destruct (traceRay_shape ray depth vertices) as
      [Hg _ | Hd Hl _ | Hd Hc _ | c e1 e2 Hd Hc He _].
    + exists [], []. rewrite trace_stop by assumption. simpl. auto.
    + exists [], []. rewrite trace_throw by assumption. simpl. auto.
    + exists [escapeSegment ray depth], [].
      rewrite trace_escape by assumption. simpl. auto.
    + exists [hitSegment ray depth c],
             [childRay prism prismIOR ray (point (hit c)) e1 e2].
      rewrite (trace_hit ray depth vertices c e1 e2) by assumption.
      simpl. rewrite !app_nil_r. auto.
  - apply trace_segments_bound.
  - apply (trace_segments_bound ray 0 vertices).
Qed.


(** *** The normal of the edge that was hit *)

Lemma geoNormal_cases (e1 e2 : Point) :
  let perp := {| x := - y (sub e2 e1); y := x (sub e2 e1) |} in
  (geoNormal prism e1 e2 = normalize perp \/
   geoNormal prism e1 e2 = scale (normalize perp) (-1)) /\
  dot (geoNormal prism e1 e2) (sub (center prism) e1) <= 0.
Proof.
  intros perp. unfold geoNormal. fold perp.
  destruct (dot (normalize perp) (sub (center prism) e1) >? 0) eqn:Hf.
  - apply Rgtb_true in Hf. split; [auto|].
    unfold dot, scale in *; simpl in *. lra.
  - apply Rgtb_false in Hf. split; [auto | lra].
Qed.



(** At a valid hit the edge has two distinct ends, so its normal is a unit
    vector. *)
Lemma geoNormal_unit (o d e1 e2 : Point) (h : Hit) :
  intersectRaySegment o d e1 e2 = Some h -> mag (geoNormal prism e1 e2) = 1.
Proof.
  intros Hi. apply intersect_Some in Hi. destruct Hi as [Hd _].
  assert (Hnz : denom o d e1 e2 <> 0) by (apply (Rabs_not_small _ 1e-6); lra).
  pose proof (denom_nonzero_perp o d e1 e2 Hnz) as Hm.
  destruct (geoNormal_cases e1 e2) as [[-> | ->] _];
    [|rewrite mag_scale_neg]; now apply mag_normalize.
Qed.

Lemma orientedN_unit (b : bool) (n : Vector) :
  mag n = 1 -> mag (orientedN b n) = 1.
Proof.
  intros H. unfold orientedN. destruct b; [exact H|].
  now rewrite mag_scale_neg.
Qed.

(** *** Reflection and refraction *)

Lemma mag_one_sq (v : Vector) : mag v = 1 -> x v * x v + y v * y v = 1.
Proof. intros H. rewrite <- mag_sq, H. ring. Qed.

Lemma reflectedDir_unit (L N : Vector) :
  mag L = 1 -> mag N = 1 -> mag (reflectedDir L N) = 1.
Proof.
  intros HL HN. apply mag_one_sq in HL, HN.
  apply mag_of_sq; [lra|].
  unfold reflectedDir, sub, scale, dot; simpl.
  match goal with
  | |- ?lhs = _ =>
      replace lhs
        with ((x L * x L + y L * y L)
              + 4 * (x L * x N + y L * y N) * (x L * x N + y L * y N)
                * ((x N * x N + y N * y N) - 1)) by ring
  end.
  rewrite HL, HN. ring.
Qed.

Lemma refractDir_unit (L N : Vector) (e : R) :
  mag L = 1 -> mag N = 1 -> 0 <= cs2 e (c1 L N) ->
  mag (refractDir L N e (c1 L N) (cs2 e (c1 L N))) = 1.
Proof.
  intros HL HN Hk. apply mag_one_sq in HL, HN.
  apply mag_of_sq; [lra|].
  pose proof (sqrt_sqrt _ Hk) as Hs.
  set (k := cs2 e (c1 L N)) in *.
  set (r := sqrt k) in *.
  assert (Hkdef : k = 1 - e * e * (1 - c1 L N * c1 L N)) by reflexivity.
  unfold c1, dot in Hkdef.
  unfold refractDir, add, scale, c1, dot; simpl. fold r.
  match goal with
  | |- ?lhs = _ =>
      replace lhs
        with (e * e * (x L * x L + y L * y L)
              + 2 * e * (e * - (x L * x N + y L * y N) - r)
                * (x L * x N + y L * y N)
              + (e * - (x L * x N + y L * y N) - r)
                * (e * - (x L * x N + y L * y N) - r)
                * (x N * x N + y N * y N)) by ring
  end.
  rewrite HL, HN.
  match goal with
  | |- ?lhs = _ =>
      replace lhs
        with (e * e * (1 - (x L * x N + y L * y N) * (x L * x N + y L * y N))
              + r * r) by ring
  end.
  rewrite Hs, Hkdef. ring.
Qed.

(** The direction computed at a hit, before it is normalized. *)
Lemma childRay_fields ray hitPoint e1 e2 :
  let L := direction ray in
  let gN := geoNormal prism e1 e2 in
  let N := orientedN (entering L gN) gN in
  let e := n1 prismIOR ray (entering L gN) / n2 prismIOR ray (entering L gN) in
  let cosI := - dot L N in
  let k := 1 - e * e * (1 - cosI * cosI) in
  let newDir :=
    if k <? 0 then sub L (scale N (2 * dot L N))
    else add (scale L e) (scale N (e * cosI - sqrt k)) in
  childRay prism prismIOR ray hitPoint e1 e2
  = {| origin := add hitPoint (scale newDir 0.01);
       direction := normalize newDir;
       color := color ray;
       wavelength := wavelength ray;
       intensity := intensity ray |}.
Proof.
  cbv zeta. unfold childRay, eta, c1, cs2, reflectedDir, refractDir.
  destruct (_ <? 0); reflexivity.
Qed.

Lemma newDir_unit ray (o d e1 e2 : Point) (h : Hit) :
  intersectRaySegment o d e1 e2 = Some h ->
  mag (direction ray) = 1 ->
  let L := direction ray in
  let gN := geoNormal prism e1 e2 in
  let N := orientedN (entering L gN) gN in
  let e := n1 prismIOR ray (entering L gN) / n2 prismIOR ray (entering L gN) in
  let cosI := - dot L N in
  let k := 1 - e * e * (1 - cosI * cosI) in
  mag (if k <? 0 then sub L (scale N (2 * dot L N))
       else add (scale L e) (scale N (e * cosI - sqrt k))) = 1.
Proof.
  intros Hi HL. cbv zeta.
  pose proof (orientedN_unit
                (entering (direction ray) (geoNormal prism e1 e2))
                (geoNormal prism e1 e2) (geoNormal_unit _ _ _ _ _ Hi)) as HN.
  set (N := orientedN _ _) in *.
  set (e := _ / _).
  destruct (_ <? 0) eqn:Hk.
  - now apply reflectedDir_unit.
  - apply Rltb_false in Hk.
    apply (refractDir_unit (direction ray) N e HL HN).
    unfold cs2, c1. lra.
Qed.

Lemma n2_nonzero ray (b : bool) :
  prismIOR + wavelength ray <> 0 -> n2 prismIOR ray b <> 0.
Proof. intros H. unfold n2. destruct b; simpl; [exact H | lra]. Qed.

(** The hit case hands the child ray to the next invocation: the call is the
    call on the child at [depth + 1] after one push, so the trace of the ray
    is its hit segment and its own log entry, followed by the whole trace of
    the child, whose log starts with the child at [depth + 1]. *)
Lemma hit_recursion ray depth vertices c e1 e2 :
  (depth <= 4)%Z ->
  findClosestHit ray vertices = Ok (Some c) ->
  edge vertices (boundaryIndex c) = Some (e1, e2) ->
  let child := childRay prism prismIOR ray (point (hit c)) e1 e2 in
  (forall s,
     traceRay prism prismIOR ray depth vertices s
     = traceRay prism prismIOR child (depth + 1) vertices
         (push (enter s ray depth) (hitSegment ray depth c))) /\
  segments (trace prism prismIOR ray depth vertices)
  = hitSegment ray depth c
    :: segments (trace prism prismIOR child (depth + 1) vertices) /\
  calls (trace prism prismIOR ray depth vertices)
  = (ray, depth) :: calls (trace prism prismIOR child (depth + 1) vertices) /\
  exists log,
    calls (trace prism prismIOR child (depth + 1) vertices)
    = (child, (depth + 1)%Z) :: log.
Proof.
  intros Hd Hc He child.
  split; [intros s; now apply traceRay_hit|].
  rewrite (trace_hit ray depth vertices c e1 e2 Hd Hc He). fold child.
  split; [reflexivity|]. split; [reflexivity|].
  apply trace_calls_head.
Qed.


(** C1: in the hit case, where the divisor [n2] of [eta = n1 / n2] is not
    zero, with [c1 = - dot direction N] and [cs2 = 1 - eta^2 (1 - c1^2)] for
    the oriented normal [N]: when [cs2 < 0] the direction of the child ray is
    the normalized mirror reflection [direction - N (2 dot direction N)],
    and when [cs2 >= 0] it is the normalized refraction
    [direction eta + N (eta c1 - sqrt cs2)].  In both cases the origin of the
    child is the hit point moved along the new direction, by 0.01 times the
    length of the direction before it is normalized, which is exactly 0.01
    for a ray whose direction is a unit vector; the child keeps the color,
    the wavelength offset and the intensity of its parent.  The tracer pushes
    the hit segment and then invokes itself on this child at [depth + 1]:
    the segments and the invocations of the trace of the ray are its hit
    segment and itself, followed by those of the trace of the child, whose
    first invocation is the child at [depth + 1]. *)
Theorem hit_child_ray ray depth vertices c :
  (depth <= 4)%Z ->
  prismIOR + wavelength ray <> 0 ->
  findClosestHit ray vertices = Ok (Some c) ->
  exists e1 e2,
    edge vertices (boundaryIndex c) = Some (e1, e2) /\
    let L := direction ray in
    let gN := geoNormal prism e1 e2 in
    let N := orientedN (entering L gN) gN in
    let e := n1 prismIOR ray (entering L gN) / n2 prismIOR ray (entering L gN) in
    let cosI := - dot L N in
    let k := 1 - e * e * (1 - cosI * cosI) in
    let newDir :=
      if k <? 0 then sub L (scale N (2 * dot L N))
      else add (scale L e) (scale N (e * cosI - sqrt k)) in
    let child :=
      {| origin := add (point (hit c)) (scale newDir 0.01);
         direction := normalize newDir;
         color := color ray;
         wavelength := wavelength ray;
         intensity := intensity ray |} in
    n2 prismIOR ray (entering L gN) <> 0 /\
    (k < 0 -> direction child = normalize (sub L (scale N (2 * dot L N)))) /\
    (k >= 0 ->
       direction child
       = normalize (add (scale L e) (scale N (e * cosI - sqrt k)))) /\
    origin child
    = add (point (hit c)) (scale (direction child) (0.01 * mag newDir)) /\
    (mag L = 1 ->
       mag newDir = 1 /\
       origin child = add (point (hit c)) (scale (direction child) 0.01)) /\
    color child = color ray /\
    wavelength child = wavelength ray /\
    intensity child = intensity ray /\
    (forall s,
       traceRay prism prismIOR ray depth vertices s
       = traceRay prism prismIOR child (depth + 1) vertices
           (push (enter s ray depth) (hitSegment ray depth c))) /\
    segments (trace prism prismIOR ray depth vertices)
    = hitSegment ray depth c
      :: segments (trace prism prismIOR child (depth + 1) vertices) /\
    calls (trace prism prismIOR ray depth vertices)
    = (ray, depth) :: calls (trace prism prismIOR child (depth + 1) vertices) /\
    exists log,
      calls (trace prism prismIOR child (depth + 1) vertices)
      = (child, (depth + 1)%Z) :: log.
Proof.
  intros Hd Hn2 Hc.
  destruct (validHit_edge ray vertices c Hc) as [e1 [e2 [He Hi]]].
  exists e1, e2.
  split; [exact He|].
  pose proof (hit_recursion ray depth vertices c e1 e2 Hd Hc He) as Hrec.
  pose proof (newDir_unit ray _ _ e1 e2 (hit c) Hi) as Hunit.
  rewrite (childRay_fields ray (point (hit c)) e1 e2) in Hrec.
  cbv zeta in *.
  set (L := direction ray) in *.
  set (N := orientedN (entering L (geoNormal prism e1 e2))
              (geoNormal prism e1 e2)) in *.
  set (e := _ / _) in *.
  set (k := 1 - e * e * (1 - - dot L N * - dot L N)) in *.
  set (newDir := if k <? 0 then _ else _) in *.
  set (child := {| origin := _; direction := _; color := _;
                   wavelength := _; intensity := _ |}) in *.
  destruct Hrec as (Hcall & Hsegs & Hcalls & Hhead).
  assert (Hoff : add (point (hit c)) (scale newDir 0.01)
                 = add (point (hit c))
                       (scale (normalize newDir) (0.01 * mag newDir))).
  { rewrite <- (scale_normalize newDir) at 1.
    apply point_eq; simpl; ring. }
  split; [now apply n2_nonzero|].
  split.
  { intros Hk. unfold child, newDir. cbn [direction].
    destruct (k <? 0) eqn:E; [reflexivity|]. apply Rltb_false in E. lra. }
  split.
  { intros Hk. unfold child, newDir. cbn [direction].
    destruct (k <? 0) eqn:E; [|reflexivity]. apply Rltb_true in E. lra. }
  split; [exact Hoff|].
  split.
  { intros HL. split; [now apply Hunit|].
    unfold child. cbn [origin direction].
    rewrite Hoff, (Hunit HL). f_equal. f_equal. lra. }
  split; [reflexivity|]. split; [reflexivity|]. split; [reflexivity|].
  split; [exact Hcall|]. split; [exact Hsegs|]. split; [exact Hcalls|].
  exact Hhead.
Qed.

(** C7: at normal incidence, [c1 = - dot direction N = 1] for a unit
    direction and the unit oriented normal, [cs2 = 1] whatever [eta] is (so
    for every [eta > 0]); the test [cs2 < 0] fails, the refraction branch is
    taken, and the refracted direction, once normalized, is the incident
    direction.  This holds of the formulas, and, where the divisor of
    [eta = n1 / n2] is not zero, of the child ray at every hit of the tracer:
    the next invocation is on a ray with the direction of its parent. *)
Theorem normal_incidence_no_bending :
  (forall (e : R) (L N : Vector),
     mag L = 1 -> mag N = 1 -> c1 L N = 1 ->
     cs2 e (c1 L N) = 1 /\
     (cs2 e (c1 L N) <? 0) = false /\
     normalize (refractDir L N e (c1 L N) (cs2 e (c1 L N))) = L) /\
  (forall ray vertices c e1 e2,
     findClosestHit ray vertices = Ok (Some c) ->
     edge vertices (boundaryIndex c) = Some (e1, e2) ->
     let L := direction ray in
     let gN := geoNormal prism e1 e2 in
     let b := entering L gN in
     let child := childRay prism prismIOR ray (point (hit c)) e1 e2 in
     prismIOR + wavelength ray <> 0 ->
     mag L = 1 ->
     c1 L (orientedN b gN) = 1 ->
     n2 prismIOR ray b <> 0 /\
     cs2 (eta (n1 prismIOR ray b) (n2 prismIOR ray b)) (c1 L (orientedN b gN))
     = 1 /\
     direction child = L /\
     forall depth, (depth <= 4)%Z ->
       exists log,
         calls (trace prism prismIOR ray depth vertices)
         = (ray, depth) :: (child, (depth + 1)%Z) :: log).
Proof.
  assert (Hformula : forall (e : R) (L N : Vector),
     mag L = 1 -> mag N = 1 -> c1 L N = 1 ->
     cs2 e (c1 L N) = 1 /\
     (cs2 e (c1 L N) <? 0) = false /\
     normalize (refractDir L N e (c1 L N) (cs2 e (c1 L N))) = L).
  { intros e L N HL HN Hc1.
    assert (Hk : cs2 e (c1 L N) = 1) by (rewrite Hc1; unfold cs2; ring).
    split; [exact Hk|]. split; [apply Rltb_false; lra|].
    rewrite Hk, Hc1.
    assert (HLN : L = scale N (-1)).
    { pose proof (mag_one_sq L HL) as HL2.
      pose proof (mag_one_sq N HN) as HN2.
      unfold c1, dot in Hc1.
      assert (Hsum : Rsqr (x L + x N) + Rsqr (y L + y N) = 0).
      { unfold Rsqr.
        replace ((x L + x N) * (x L + x N) + (y L + y N) * (y L + y N))
          with ((x L * x L + y L * y L) + (x N * x N + y N * y N)
                - 2 * - (x L * x N + y L * y N)) by ring.
        rewrite HL2, HN2, Hc1. ring. }
      apply Rplus_sqr_eq_0 in Hsum. destruct Hsum as [Hx Hy].
      apply point_eq; simpl; lra. }
    assert (Hr : refractDir L N e 1 1 = L).
    { unfold refractDir. rewrite sqrt_1, HLN.
      apply point_eq; simpl; ring. }
    rewrite Hr. now apply normalize_unit. }
  split; [exact Hformula|].
  intros ray vertices c e1 e2 Hc He L gN b child Hn2 HL Hc1.
  destruct (validHit_edge ray vertices c Hc) as [e1' [e2' [He' Hi]]].
  rewrite He in He'. injection He' as <- <-.
  pose proof (orientedN_unit b gN (geoNormal_unit _ _ _ _ _ Hi)) as HN.
  destruct (Hformula (eta (n1 prismIOR ray b) (n2 prismIOR ray b))
                     L (orientedN b gN) HL HN Hc1)
    as [Hk [Hbranch Hdir]].
  split; [now apply n2_nonzero|].
  split; [exact Hk|].
  split.
  { unfold child, childRay. fold L. fold gN. fold b.
    rewrite Hbranch. exact Hdir. }
  intros depth Hd.
  destruct (hit_recursion ray depth vertices c e1 e2 Hd Hc He)
    as (_ & _ & Hcalls & log & Hhead).
  fold child in Hcalls, Hhead.
  exists log. rewrite Hcalls, Hhead. reflexivity.
Qed.

(** *** Rays that leave the triangle behind *)

(** The point of a valid hit lies on the ray and on the segment. *)
Lemma intersect_on_segment (o d p1 p2 : Point) (h : Hit) :
  intersectRaySegment o d p1 p2 = Some h ->
  let tt := param_t o d p1 p2 in
  let u := param_u o d p1 p2 in
  0 < tt /\ 0 <= u <= 1 /\
  x o + x d * tt = (1 - u) * x p1 + u * x p2 /\
  y o + y d * tt = (1 - u) * y p1 + u * y p2.
Proof.
  intros Hi tt u. apply intersect_Some in Hi.
  destruct Hi as (Hd & Ht & Hu & _).
  assert (Hnz : denom o d p1 p2 <> 0) by (apply (Rabs_not_small _ 1e-6); lra).
  split; [unfold tt; lra|]. split; [exact Hu|].
  unfold tt, u, param_t, param_u.
  rewrite denom_cross in *.
  unfold add; simpl. split; field; exact Hnz.
Qed.

Lemma inTriangle_convex (v0 v1 v2 a b p : Point) (l : R) :
  inTriangle v0 v1 v2 a -> inTriangle v0 v1 v2 b ->
  0 <= l <= 1 ->
  x p = (1 - l) * x a + l * x b ->
  y p = (1 - l) * y a + l * y b ->
  inTriangle v0 v1 v2 p.
Proof.
  intros (a0 & a1 & a2 & Ha0 & Ha1 & Ha2 & Has & Hax & Hay)
         (b0 & b1 & b2 & Hb0 & Hb1 & Hb2 & Hbs & Hbx & Hby) Hl Hx Hy.
  exists ((1 - l) * a0 + l * b0), ((1 - l) * a1 + l * b1),
         ((1 - l) * a2 + l * b2).
  assert (H1l : 0 <= 1 - l) by lra.
  repeat split.
  - apply Rplus_le_le_0_compat; apply Rmult_le_pos; lra.
  - apply Rplus_le_le_0_compat; apply Rmult_le_pos; lra.
  - apply Rplus_le_le_0_compat; apply Rmult_le_pos; lra.
  - replace ((1 - l) * a0 + l * b0 + ((1 - l) * a1 + l * b1)
             + ((1 - l) * a2 + l * b2))
      with ((1 - l) * (a0 + a1 + a2) + l * (b0 + b1 + b2)) by ring.
    rewrite Has, Hbs. ring.
  - rewrite Hx, Hax, Hbx. ring.
  - rewrite Hy, Hay, Hby. ring.
Qed.

Lemma inTriangle_v0 (v0 v1 v2 : Point) : inTriangle v0 v1 v2 v0.
Proof. exists 1, 0, 0. repeat split; try lra; ring. Qed.

Lemma inTriangle_v1 (v0 v1 v2 : Point) : inTriangle v0 v1 v2 v1.
Proof. exists 0, 1, 0. repeat split; try lra; ring. Qed.

Lemma inTriangle_v2 (v0 v1 v2 : Point) : inTriangle v0 v1 v2 v2.
Proof. exists 0, 0, 1. repeat split; try lra; ring. Qed.

(** A ray that starts outside the triangle and runs straight away from one
    of its points meets no segment drawn inside the triangle. *)
Lemma away_no_hit (v0 v1 v2 o d q p1 p2 : Point) (k : R) :
  ~ inTriangle v0 v1 v2 o ->
  inTriangle v0 v1 v2 q ->
  k > 0 ->
  d = scale (sub o q) k ->
  inTriangle v0 v1 v2 p1 ->
  inTriangle v0 v1 v2 p2 ->
  intersectRaySegment o d p1 p2 = None.
Proof.
  intros Hout Hq Hk Hd Hp1 Hp2.
  destruct (intersectRaySegment o d p1 p2) as [h|] eqn:Hi; [|reflexivity].
  exfalso. apply Hout.
  destruct (intersect_on_segment o d p1 p2 h Hi) as (Ht & Hu & Hx & Hy).
  set (tt := param_t o d p1 p2) in *. set (u := param_u o d p1 p2) in *.
  set (hp := {| x := (1 - u) * x p1 + u * x p2;
                y := (1 - u) * y p1 + u * y p2 |}).
  assert (Hhp : inTriangle v0 v1 v2 hp)
    by (apply (inTriangle_convex v0 v1 v2 p1 p2 hp u); auto).
  assert (Hpos : 0 < k * tt) by (apply Rmult_lt_0_compat; lra).
  assert (Hne : 1 + k * tt <> 0) by lra.
  apply (inTriangle_convex v0 v1 v2 hp q o (k * tt / (1 + k * tt))); auto.
  - split.
    + apply Rlt_le. apply Rdiv_lt_0_compat; lra.
    + apply (Rmult_le_reg_r (1 + k * tt)); [lra|].
      unfold Rdiv. rewrite Rmult_assoc, Rinv_l by exact Hne. lra.
  - rewrite Hd in Hx. unfold scale, sub in Hx; simpl in Hx.
    unfold hp; simpl. rewrite <- Hx. field. exact Hne.
  - rewrite Hd in Hy. unfold scale, sub in Hy; simpl in Hy.
    unfold hp; simpl. rewrite <- Hy. field. exact Hne.
Qed.

Lemma away_escapes (v0 v1 v2 q : Point) (rest : list Point) (ray : Ray)
    (k : R) :
  ~ inTriangle v0 v1 v2 (origin ray) ->
  inTriangle v0 v1 v2 q ->
  k > 0 ->
  direction ray = scale (sub (origin ray) q) k ->
  findClosestHit ray (v0 :: v1 :: v2 :: rest) = Ok None.
Proof.
  intros Hout Hq Hk Hd. apply findClosestHit_None. intros i Hi.
  pose proof (inTriangle_v0 v0 v1 v2). pose proof (inTriangle_v1 v0 v1 v2).
  pose proof (inTriangle_v2 v0 v1 v2).
  destruct i as [|[|[|i]]]; [| | |lia].
  - exists v0, v1. split; [reflexivity|].
    apply (away_no_hit v0 v1 v2 _ _ q v0 v1 k); assumption.
  - exists v1, v2. split; [reflexivity|].
    apply (away_no_hit v0 v1 v2 _ _ q v1 v2 k); assumption.
  - exists v2, v0. split; [reflexivity|].
    apply (away_no_hit v0 v1 v2 _ _ q v2 v0 k); assumption.
Qed.

Lemma intersect_exists (o d p1 p2 : Point) :
  ~ noIntersection o d p1 p2 ->
  exists h, intersectRaySegment o d p1 p2 = Some h.
Proof.
  intros Hno. destruct (intersectRaySegment o d p1 p2) as [h|] eqn:Hi.
  - now exists h.
  - exfalso. apply Hno. now apply intersect_None.
Qed.

(** Some edge is hit, among the three. *)
Lemma findClosestHit_finds ray vertices :
  (3 <= length vertices)%nat ->
  (exists i p1 p2 h, (i < 3)%nat /\ edge vertices i = Some (p1, p2) /\
     intersectRaySegment (origin ray) (direction ray) p1 p2 = Some h) ->
  exists c, findClosestHit ray vertices = Ok (Some c).
Proof.
  intros Hl (i & p1 & p2 & h & Hi & He & Hh).
  destruct (findClosestHit ray vertices) as [[c|]|] eqn:Hc.
  - now exists c.
  - exfalso. rewrite findClosestHit_None in Hc.
    destruct (Hc i Hi) as (q1 & q2 & Hq & Hn). congruence.
  - exfalso. apply findClosestHit_TypeError in Hc. lia.
Qed.


(** *** Invariants along a trace *)

(** With three vertices to read, no invocation throws. *)
Lemma traceRay_returns ray depth vertices s :
  (3 <= length vertices)%nat ->
  exists st, traceRay prism prismIOR ray depth vertices s = Returned st.
Proof.
  intros Hl.
  remember (levels depth) as n eqn:Hn.
  revert ray depth s Hn.
  induction n as [|n IH]; intros ray depth s Hn;
    destruct (traceRay_shape ray depth vertices) as
      [Hg Heq | Hd Hs Heq | Hd Hc Heq | c e1 e2 Hd Hc He Heq];
    try (rewrite levels_step in Hn by assumption; discriminate Hn);
    try (rewrite levels_stop in Hn by assumption; discriminate Hn);
    try lia; rewrite (Heq s); eauto.
  apply IH. rewrite levels_step in Hn by assumption. now injection Hn.
Qed.

(** A ray whose direction is a unit vector only spawns rays whose direction
    is a unit vector: every invocation of a trace is made on such a ray. *)
Lemma trace_directions_unit ray depth vertices :
  mag (direction ray) = 1 ->
  Forall (fun call => mag (direction (fst call)) = 1)
         (calls (trace prism prismIOR ray depth vertices)).
Proof.
  apply (trace_ind vertices
           (fun r _ st =>
              mag (direction r) = 1 ->
              Forall (fun call => mag (direction (fst call)) = 1) (calls st))).
  - intros r d _ Hr. simpl. auto.
  - intros r d _ _ Hr. simpl. auto.
  - intros r d c e1 e2 Hd Hc He child rest IH Hr. simpl.
    constructor; [exact Hr|]. apply IH.
    destruct (validHit_edge r vertices c Hc) as (e1' & e2' & He' & Hi).
    rewrite He in He'. injection He' as <- <-.
    unfold child. rewrite childRay_fields. cbv zeta. simpl.
    apply mag_normalize.
    rewrite (newDir_unit r _ _ e1 e2 (hit c) Hi Hr). lra.
Qed.

End TracerFacts.


(** ** getPrismVertices *)

Lemma sqrt3_sq : sqrt 3 * sqrt 3 = 3.
Proof. apply sqrt_sqrt. lra. Qed.

Lemma sqrt3_pos : 0 < sqrt 3.
Proof. apply sqrt_lt_R0. lra. Qed.

Lemma cos_third (a : R) :
  cos (a + 2 * PI / 3) = - (1 / 2) * cos a - sqrt 3 / 2 * sin a.
Proof.
  replace (2 * PI / 3) with (2 * (PI / 3)) by lra.
  rewrite cos_plus, cos_2PI3, sin_2PI3. lra.
Qed.

Lemma sin_third (a : R) :
  sin (a + 2 * PI / 3) = - (1 / 2) * sin a + sqrt 3 / 2 * cos a.
Proof.
  replace (2 * PI / 3) with (2 * (PI / 3)) by lra.
  rewrite sin_plus, cos_2PI3, sin_2PI3. lra.
Qed.

Lemma cos_two_thirds (a : R) :
  cos (a + 4 * PI / 3) = - (1 / 2) * cos a + sqrt 3 / 2 * sin a.
Proof.
  replace (a + 4 * PI / 3) with (a + 2 * PI / 3 + 2 * PI / 3) by lra.
  rewrite cos_third, cos_third, sin_third.
  match goal with
  | |- ?l = ?r =>
      replace l with (r + (3 - sqrt 3 * sqrt 3) / 4 * cos a) by field
  end.
  rewrite sqrt3_sq. field.
Qed.

Lemma sin_two_thirds (a : R) :
  sin (a + 4 * PI / 3) = - (1 / 2) * sin a - sqrt 3 / 2 * cos a.
Proof.
  replace (a + 4 * PI / 3) with (a + 2 * PI / 3 + 2 * PI / 3) by lra.
  rewrite sin_third, sin_third, cos_third.
  match goal with
  | |- ?l = ?r =>
      replace l with (r + (3 - sqrt 3 * sqrt 3) / 4 * sin a) by field
  end.
  rewrite sqrt3_sq. field.
Qed.

Lemma cos2_sin2 (a : R) : cos a * cos a + sin a * sin a = 1.
Proof. pose proof (sin2_cos2 a) as H. unfold Rsqr in H. lra. Qed.

Lemma distance_of_sq (p1 p2 : Point) (d : R) :
  0 <= d ->
  (x p2 - x p1) * (x p2 - x p1) + (y p2 - y p1) * (y p2 - y p1) = d * d ->
  distance p1 p2 = d.
Proof.
  intros Hd H. unfold distance.
  replace ((x p2 - x p1) ^ 2 + (y p2 - y p1) ^ 2) with (d * d)
    by (rewrite <- H; ring).
  now apply sqrt_square.
Qed.

(** C6: for every center, rotation and positive side length [s],
    [getPrismVertices] returns exactly three vertices, at
    [center + (s / sqrt 3) (cos a, sin a)] for the angles [rotation - PI/2],
    [rotation - PI/2 + 2 PI/3] and [rotation - PI/2 + 4 PI/3].  Any two of
    them are at distance [s], all three are at distance [s / sqrt 3] from the
    center, which is their centroid; and when the rotation is 0, vertex 0 is
    straight above the center (same abscissa, smaller ordinate: the ordinate
    of the canvas grows downwards) and is the topmost of the three. *)
Theorem getPrismVertices_equilateral (p : PrismData) :
  0 < sideLength p ->
  let c := center p in
  let s := sideLength p in
  let r := s / sqrt 3 in
  let a0 := rotation p - PI / 2 in
  let v0 := {| x := x c + r * cos a0; y := y c + r * sin a0 |} in
  let v1 := {| x := x c + r * cos (a0 + 2 * PI / 3);
               y := y c + r * sin (a0 + 2 * PI / 3) |} in
  let v2 := {| x := x c + r * cos (a0 + 4 * PI / 3);
               y := y c + r * sin (a0 + 4 * PI / 3) |} in
  getPrismVertices p = [v0; v1; v2] /\
  (distance v0 v1 = s /\ distance v1 v2 = s /\ distance v2 v0 = s) /\
  (distance v1 v0 = s /\ distance v2 v1 = s /\ distance v0 v2 = s) /\
  (distance c v0 = r /\ distance c v1 = r /\ distance c v2 = r) /\
  (x v0 + x v1 + x v2 = 3 * x c /\ y v0 + y v1 + y v2 = 3 * y c) /\
  (rotation p = 0 ->
     x v0 = x c /\ y v0 = y c - r /\ y v0 < y c /\
     y v0 < y v1 /\ y v0 < y v2).
Proof.
  intros Hs c s r a0 v0 v1 v2.
  split; [reflexivity|].
  pose proof sqrt3_sq as Hq. pose proof sqrt3_pos as Hq0.
  pose proof (cos2_sin2 a0) as Hcs.
  assert (Hr : 0 < r) by (apply Rdiv_lt_0_compat; assumption).
  assert (Hsr : s = r * sqrt 3) by (unfold r; field; lra).
  assert (Hss : s * s = 3 * (r * r)).
  { rewrite Hsr. replace (r * sqrt 3 * (r * sqrt 3))
      with (r * r * (sqrt 3 * sqrt 3)) by field. rewrite Hq. field. }
  unfold v0, v1, v2.
  rewrite cos_third, sin_third, cos_two_thirds, sin_two_thirds.
  fold s in Hs. clearbody r s.
  set (C := cos a0) in *. set (S := sin a0) in *. set (q := sqrt 3) in *.
  assert (Hchord01 :
    (r * (- (1 / 2) * C - q / 2 * S) - r * C)
    * (r * (- (1 / 2) * C - q / 2 * S) - r * C)
    + (r * (- (1 / 2) * S + q / 2 * C) - r * S)
      * (r * (- (1 / 2) * S + q / 2 * C) - r * S) = s * s).
  { rewrite Hss.
    replace (3 * (r * r))
      with (r * r * ((9 / 4 + q * q / 4) * (C * C + S * S)))
      by (rewrite Hq, Hcs; field).
    field. }
  assert (Hchord12 :
    (r * (- (1 / 2) * C + q / 2 * S) - r * (- (1 / 2) * C - q / 2 * S))
    * (r * (- (1 / 2) * C + q / 2 * S) - r * (- (1 / 2) * C - q / 2 * S))
    + (r * (- (1 / 2) * S - q / 2 * C) - r * (- (1 / 2) * S + q / 2 * C))
      * (r * (- (1 / 2) * S - q / 2 * C) - r * (- (1 / 2) * S + q / 2 * C))
    = s * s).
  { rewrite Hss.
    replace (3 * (r * r)) with (r * r * ((q * q) * (C * C + S * S)))
      by (rewrite Hq, Hcs; field).
    field. }
  assert (Hchord20 :
    (r * C - r * (- (1 / 2) * C + q / 2 * S))
    * (r * C - r * (- (1 / 2) * C + q / 2 * S))
    + (r * S - r * (- (1 / 2) * S - q / 2 * C))
      * (r * S - r * (- (1 / 2) * S - q / 2 * C)) = s * s).
  { rewrite Hss.
    replace (3 * (r * r))
      with (r * r * ((9 / 4 + q * q / 4) * (C * C + S * S)))
      by (rewrite Hq, Hcs; field).
    field. }
  assert (Hrad : forall C' S', C' * C' + S' * S' = 1 ->
            distance c {| x := x c + r * C'; y := y c + r * S' |} = r).
  { intros C' S' H. apply distance_of_sq; [lra|]. simpl.
    replace ((x c + r * C' - x c) * (x c + r * C' - x c)
             + (y c + r * S' - y c) * (y c + r * S' - y c))
      with (r * r * (C' * C' + S' * S')) by field.
    rewrite H. field. }
  split; [|split; [|split; [|split; [|]]]].
  - repeat split; apply distance_of_sq; try lra; simpl.
    + rewrite <- Hchord01. field.
    + rewrite <- Hchord12. field.
    + rewrite <- Hchord20. field.
  - repeat split; apply distance_of_sq; try lra; simpl.
    + rewrite <- Hchord01. field.
    + rewrite <- Hchord12. field.
    + rewrite <- Hchord20. field.
  - repeat split; apply Hrad.
    + exact Hcs.
    + replace (_ + _) with ((1 / 4 + q * q / 4) * (C * C + S * S)) by field.
      rewrite Hq, Hcs. lra.
    + replace (_ + _) with ((1 / 4 + q * q / 4) * (C * C + S * S)) by field.
      rewrite Hq, Hcs. lra.
  - simpl. split; field.
  - intros Hrot. simpl.
    assert (HC : C = 0).
    { unfold C, a0. rewrite Hrot.
      replace (0 - PI / 2) with (- (PI / 2)) by lra.
      rewrite cos_neg. apply cos_PI2. }
    assert (HS : S = -1).
    { unfold S, a0. rewrite Hrot.
      replace (0 - PI / 2) with (- (PI / 2)) by lra.
      rewrite sin_neg, sin_PI2. reflexivity. }
    rewrite HC, HS. repeat split; nra.
Qed.


(** ** SPECTRUM *)








(** ** The rendering pass *)

Lemma getPrismVertices_length (p : PrismData) :
  length (getPrismVertices p) = 3%nat.
Proof. reflexivity. Qed.

Lemma spectralRay_unit (light : LightSourceData) (spec : Sample) :
  mag (direction (spectralRay light spec)) = 1.
Proof. apply mag_of_sq; [lra|]. simpl. rewrite cos2_sin2. ring. Qed.

Lemma forEachSample_returns prism prismIOR light vertices samples s :
  (3 <= length vertices)%nat ->
  exists st,
    forEachSample prism prismIOR light vertices samples s = Returned st /\
    (length (segments st) <= length (segments s) + 5 * length samples)%nat /\
    firstn (length (segments s)) (segments st) = segments s.
Proof.
  intros Hl. revert s.
  induction samples as [|spec rest IH]; intros s; simpl.
  - exists s. split; [reflexivity|]. split; [lia|]. apply firstn_all.
  - destruct (traceRay_returns prism prismIOR (spectralRay light spec) 0
                vertices s Hl) as [s' Hs'].
    rewrite Hs'.
    destruct (traceRay_frame prism prismIOR (spectralRay light spec) 0
                vertices s) as [Hseg _].
    rewrite Hs' in Hseg. simpl in Hseg.
    pose proof (trace_segments_bound prism prismIOR (spectralRay light spec)
                  0 vertices) as Hb.
    change (levels 0) with 5%nat in Hb.
    destruct (IH s') as (st & Hst & Hlen & Hpre).
    exists st. split; [exact Hst|].
    assert (Hlen' : length (segments s')
                    = (length (segments s)
                       + length (segments (trace prism prismIOR
                                             (spectralRay light spec) 0
                                             vertices)))%nat)
      by (rewrite Hseg; apply length_app).
    split; [lia|].
    rewrite <- (firstn_skipn (length (segments s')) (segments st)).
    rewrite Hpre, Hseg, <- app_assoc.
    rewrite firstn_app, firstn_all, Nat.sub_diag. simpl. apply app_nil_r.
Qed.

(** One pass over the seven samples returns, with at most 35 segments. *)
Lemma traceSpectrum_returns prism prismIOR light :
  exists st,
    traceSpectrum prism prismIOR light = Returned st /\
    (length (segments st) <= 35)%nat.
Proof.
  unfold traceSpectrum.
  destruct (forEachSample_returns prism prismIOR light
              (getPrismVertices prism) SPECTRUM emptyStore)
    as (st & Hst & Hlen & _).
  - rewrite getPrismVertices_length. lia.
  - exists st. split; [exact Hst|]. simpl in Hlen. lia.
Qed.

(** ** Instances on the concrete scene *)

(** The loop over the three sides, unrolled. *)
Lemma findClosestHit_three (ray : Ray) (v0 v1 v2 : Point) (rest : list Point) :
  findClosestHit ray (v0 :: v1 :: v2 :: rest)
  = Ok (updateClosest
          (updateClosest
             (updateClosest None 0
                (intersectRaySegment (origin ray) (direction ray) v0 v1))
             1 (intersectRaySegment (origin ray) (direction ray) v1 v2))
          2 (intersectRaySegment (origin ray) (direction ray) v2 v0)).
Proof. reflexivity. Qed.

Lemma demo_side0 :
  exists h,
    intersectRaySegment (origin demoRay) (direction demoRay)
      {| x := 0; y := 0 |} {| x := 4; y := 0 |} = Some h /\
    t h = 1 /\ point h = {| x := 1; y := 0 |}.
Proof.
  set (o := origin demoRay). set (d := direction demoRay).
  set (p1 := {| x := 0; y := 0 |}). set (p2 := {| x := 4; y := 0 |}).
  assert (Hd : denom o d p1 p2 = -4) by (unfold denom; simpl; lra).
  assert (Ht : param_t o d p1 p2 = 1)
    by (unfold param_t; rewrite Hd; simpl; lra).
  assert (Hu : param_u o d p1 p2 = 1 / 4)
    by (unfold param_u; rewrite Hd; simpl; lra).
  assert (Hno : ~ noIntersection o d p1 p2).
  { unfold noIntersection. rewrite Hd, Ht, Hu.
    rewrite Rabs_left by lra. lra. }
  destruct (intersect_exists o d p1 p2 Hno) as [h Hh].
  exists h. split; [exact Hh|].
  apply intersect_Some in Hh. destruct Hh as (_ & _ & _ & Hp & Hth & _).
  split; [congruence|]. rewrite Hp, Ht. apply point_eq; simpl; lra.
Qed.

Lemma demo_side1 (h : Hit) :
  intersectRaySegment (origin demoRay) (direction demoRay)
    {| x := 4; y := 0 |} {| x := 0; y := 3 |} = Some h ->
  t h = 13 / 4.
Proof.
  intros Hh. apply intersect_Some in Hh.
  destruct Hh as (_ & _ & _ & _ & Hth & _). rewrite Hth.
  unfold param_t, denom; simpl. lra.
Qed.

Lemma demo_side2 :
  intersectRaySegment (origin demoRay) (direction demoRay)
    {| x := 0; y := 3 |} {| x := 0; y := 0 |} = None.
Proof.
  apply intersect_None. left.
  replace (denom _ _ _ _) with 0 by (unfold denom; simpl; lra).
  rewrite Rabs_R0. lra.
Qed.

Lemma demo_closest :
  exists c,
    findClosestHit demoRay demoVertices = Ok (Some c) /\
    boundaryIndex c = 0%nat /\
    t (hit c) = 1 /\
    point (hit c) = {| x := 1; y := 0 |}.
Proof.
  destruct demo_side0 as (h0 & H0 & Ht0 & Hp0).
  exists {| hit := h0; boundaryIndex := 0 |}.
  split; [|simpl; auto].
  unfold demoVertices. rewrite findClosestHit_three.
  rewrite H0, demo_side2.
  destruct (intersectRaySegment (origin demoRay) (direction demoRay)
              {| x := 4; y := 0 |} {| x := 0; y := 3 |}) as [h1|] eqn:H1;
    simpl; [|reflexivity].
  apply demo_side1 in H1.
  destruct (t h1 <? t h0) eqn:Hlt; [|reflexivity].
  apply Rltb_true in Hlt. lra.
Qed.

Lemma demo_geoNormal :
  geoNormal demoPrism {| x := 0; y := 0 |} {| x := 4; y := 0 |}
  = {| x := 0; y := -1 |}.
Proof.
  unfold geoNormal.
  set (perp := {| x := - y (sub {| x := 4; y := 0 |} {| x := 0; y := 0 |});
                  y := x (sub {| x := 4; y := 0 |} {| x := 0; y := 0 |}) |}).
  assert (Hm : mag perp = 4) by (apply mag_of_sq; simpl; lra).
  assert (Hn : normalize perp = {| x := 0; y := 1 |}).
  { rewrite normalize_nonzero by lra. rewrite Hm.
    apply point_eq; simpl; lra. }
  rewrite Hn.
  destruct (_ >? 0) eqn:Hf.
  - apply point_eq; simpl; lra.
  - apply Rgtb_false in Hf. exfalso. apply Hf.
    unfold dot; simpl. lra.
Qed.

Lemma demo_entering :
  entering (direction demoRay)
    (geoNormal demoPrism {| x := 0; y := 0 |} {| x := 4; y := 0 |}) = true.
Proof.
  rewrite demo_geoNormal. apply Rltb_true. unfold dot; simpl. lra.
Qed.

Lemma demo_mag_direction : mag (direction demoRay) = 1.
Proof. apply mag_of_sq; simpl; lra. Qed.

Lemma demo_c1 :
  c1 (direction demoRay)
     (orientedN
        (entering (direction demoRay)
           (geoNormal demoPrism {| x := 0; y := 0 |} {| x := 4; y := 0 |}))
        (geoNormal demoPrism {| x := 0; y := 0 |} {| x := 4; y := 0 |})) = 1.
Proof.
  rewrite demo_entering, demo_geoNormal. unfold c1, orientedN, dot; simpl. lra.
Qed.

Lemma demo_outside :
  ~ inTriangle {| x := 0; y := 0 |} {| x := 4; y := 0 |} {| x := 0; y := 3 |}
      (origin demoAwayRay).
Proof.
  intros (a & b & c & Ha & Hb & Hc & Hs & Hx & Hy). simpl in Hx, Hy. lra.
Qed.

Lemma demo_center_inside :
  inTriangle {| x := 0; y := 0 |} {| x := 4; y := 0 |} {| x := 0; y := 3 |}
    (center demoPrism).
Proof.
  exists (5 / 12), (1 / 4), (1 / 3). simpl. repeat split; lra.
Qed.

Lemma demo_away_direction :
  direction demoAwayRay
  = scale (sub (origin demoAwayRay) (center demoPrism)) (1 / 2).
Proof. apply point_eq; simpl; lra. Qed.

Lemma traceRay_terminates_witness :
  traceRay demoPrism 1.5 demoRay 5 demoVertices emptyStore
  = Returned {| segments := []; calls := [(demoRay, 5%Z)] |} /\
  (length (calls (trace demoPrism 1.5 demoRay 0 demoVertices)) <= 6)%nat.
Proof.
  destruct (traceRay_terminates demoPrism 1.5 demoRay 5 demoVertices
              emptyStore) as (_ & _ & _ & _ & _ & H5 & _).
  destruct (traceRay_terminates demoPrism 1.5 demoRay 0 demoVertices
              emptyStore) as (_ & _ & _ & _ & _ & _ & H0).
  split.
  - apply H5. lia.
  - apply H0. lia.
Defined.

Lemma traceRay_appends_only_witness :
  nth_error
    (segments (final (traceRay demoPrism 1.5 demoRay 0 demoVertices
                        {| segments := [demoSegment]; calls := [] |})))
    0
  = Some demoSegment.
Proof.
  apply (traceRay_appends_only demoPrism 1.5 demoRay 0 demoVertices
           {| segments := [demoSegment]; calls := [] |}).
  reflexivity.
Defined.

Lemma demo_edge0 (c : ClosestHit) :
  boundaryIndex c = 0%nat ->
  edge demoVertices (boundaryIndex c)
  = Some ({| x := 0; y := 0 |}, {| x := 4; y := 0 |}).
Proof. intros ->. reflexivity. Qed.

Lemma demo_away_escapes : findClosestHit demoAwayRay demoVertices = Ok None.
Proof.
  apply (away_escapes _ _ _ (center demoPrism) [] demoAwayRay (1 / 2)).
  - exact demo_outside.
  - exact demo_center_inside.
  - lra.
  - exact demo_away_direction.
Qed.

(** The oblique ray meets the lower side first, at [(7/4, 0)]. *)
Lemma side_hit (o d p1 p2 : Point) (tt u : R) :
  ~ Rabs (denom o d p1 p2) < 1e-6 ->
  add o (scale d tt) = add p1 (scale (sub p2 p1) u) ->
  tt > 0.001 -> 0 <= u <= 1 ->
  exists h,
    intersectRaySegment o d p1 p2 = Some h /\
    t h = tt /\ point h = add o (scale d tt).
Proof.
  intros Hd Hline Ht Hu.
  assert (Hnz : denom o d p1 p2 <> 0) by (apply (Rabs_not_small _ 1e-6); lra).
  destruct (params_unique o d p1 p2 tt u Hnz Hline) as [Et Eu].
  destruct (intersect_exists o d p1 p2) as [h Hh].
  { unfold noIntersection. rewrite <- Et, <- Eu. lra. }
  exists h. split; [exact Hh|].
  apply intersect_Some in Hh. destruct Hh as (_ & _ & _ & Hp & Hth & _).
  rewrite Hth, Hp, <- Et. auto.
Qed.

Lemma side_behind (o d p1 p2 : Point) (tt u : R) :
  denom o d p1 p2 <> 0 ->
  add o (scale d tt) = add p1 (scale (sub p2 p1) u) ->
  ~ tt > 0.001 ->
  intersectRaySegment o d p1 p2 = None.
Proof.
  intros Hnz Hline Ht.
  destruct (params_unique o d p1 p2 tt u Hnz Hline) as [Et Eu].
  apply intersect_None. unfold noIntersection. rewrite <- Et. tauto.
Qed.

Lemma side_parallel (o d p1 p2 : Point) :
  denom o d p1 p2 = 0 -> intersectRaySegment o d p1 p2 = None.
Proof.
  intros Hd. apply intersect_None. left. rewrite Hd, Rabs_R0. lra.
Qed.

Lemma demo_oblique_closest :
  exists c,
    findClosestHit demoObliqueRay demoVertices = Ok (Some c) /\
    boundaryIndex c = 0%nat /\
    t (hit c) = 5 / 4 /\
    point (hit c) = {| x := 7 / 4; y := 0 |}.
Proof.
  set (o := origin demoObliqueRay). set (d := direction demoObliqueRay).
  destruct (side_hit o d {| x := 0; y := 0 |} {| x := 4; y := 0 |}
              (5 / 4) (7 / 16)) as (h0 & H0 & Ht0 & Hp0).
  { replace (denom _ _ _ _) with (-3.2) by (unfold denom; simpl; lra).
    rewrite Rabs_left by lra. lra. }
  { apply point_eq; simpl; lra. }
  { lra. }
  { lra. }
  assert (H2 : intersectRaySegment o d {| x := 0; y := 3 |} {| x := 0; y := 0 |}
               = None).
  { apply (side_behind _ _ _ _ (- (5 / 3)) (16 / 9)).
    - replace (denom _ _ _ _) with (-1.8) by (unfold denom; simpl; lra). lra.
    - apply point_eq; simpl; lra.
    - lra. }
  exists {| hit := h0; boundaryIndex := 0 |}.
  split.
  - unfold demoVertices. rewrite findClosestHit_three.
    fold o. fold d. rewrite H0, H2.
    destruct (intersectRaySegment o d {| x := 4; y := 0 |} {| x := 0; y := 3 |})
      as [h1|] eqn:H1; simpl; [|reflexivity].
    apply intersect_Some in H1. destruct H1 as (_ & _ & _ & _ & Hth & _).
    assert (Ht1 : t h1 = 13 / 5)
      by (rewrite Hth; unfold param_t, denom; simpl; lra).
    destruct (t h1 <? t h0) eqn:Hlt; [|reflexivity].
    apply Rltb_true in Hlt. lra.
  - simpl. split; [reflexivity|]. split; [exact Ht0|].
    rewrite Hp0. apply point_eq; simpl; lra.
Qed.

(** The ray from inside meets the lower side only, at [(7/3, 0)]: it runs
    parallel to the slanted side and away from the left one. *)
Lemma demo_inside_closest :
  exists c,
    findClosestHit demoInsideRay demoVertices = Ok (Some c) /\
    boundaryIndex c = 0%nat /\
    point (hit c) = {| x := 7 / 3; y := 0 |}.
Proof.
  set (o := origin demoInsideRay). set (d := direction demoInsideRay).
  destruct (side_hit o d {| x := 0; y := 0 |} {| x := 4; y := 0 |}
              (5 / 3) (7 / 12)) as (h0 & H0 & Ht0 & Hp0).
  { replace (denom _ _ _ _) with 2.4 by (unfold denom; simpl; lra).
    rewrite Rabs_pos_eq by lra. lra. }
  { apply point_eq; simpl; lra. }
  { lra. }
  { lra. }
  assert (H1 : intersectRaySegment o d {| x := 4; y := 0 |} {| x := 0; y := 3 |}
               = None).
  { apply side_parallel. unfold denom; simpl; lra. }
  assert (H2 : intersectRaySegment o d {| x := 0; y := 3 |} {| x := 0; y := 0 |}
               = None).
  { apply (side_behind _ _ _ _ (- (5 / 4)) (5 / 12)).
    - replace (denom _ _ _ _) with (-2.4) by (unfold denom; simpl; lra). lra.
    - apply point_eq; simpl; lra.
    - lra. }
  exists {| hit := h0; boundaryIndex := 0 |}.
  split.
  - unfold demoVertices. rewrite findClosestHit_three.
    fold o. fold d. rewrite H0, H1, H2. reflexivity.
  - simpl. split; [reflexivity|].
    rewrite Hp0. apply point_eq; simpl; lra.
Qed.

Lemma demo_oblique_entering :
  entering (direction demoObliqueRay)
    (geoNormal demoPrism {| x := 0; y := 0 |} {| x := 4; y := 0 |}) = true.
Proof.
  rewrite demo_geoNormal. apply Rltb_true. unfold dot; simpl. lra.
Qed.

Lemma demo_inside_exiting :
  entering (direction demoInsideRay)
    (geoNormal demoPrism {| x := 0; y := 0 |} {| x := 4; y := 0 |}) = false.
Proof.
  rewrite demo_geoNormal. apply Rltb_false. unfold dot; simpl. lra.
Qed.


(** A ray that leaves glass of index [g > 1.25] at this angle is reflected
    back: the component of its direction across the side changes sign. *)
Lemma demo_inside_child (g : R) (hitPoint : Point) :
  1.25 < g ->
  let child := childRay demoPrism g demoInsideRay hitPoint
                 {| x := 0; y := 0 |} {| x := 4; y := 0 |} in
  direction child = {| x := 0.8; y := 0.6 |} /\
  origin child = add hitPoint (scale (direction child) 0.01).
Proof.
  intros Hg child. unfold child.
  rewrite childRay_fields. cbv zeta.
  rewrite demo_inside_exiting, demo_geoNormal.
  cbn [origin direction orientedN n1 n2 negb].
  set (L := direction demoInsideRay).
  set (N := scale {| x := 0; y := -1 |} (-1)).
  set (e := (g + wavelength demoInsideRay) / 1.0).
  assert (He : e = g) by (unfold e; simpl; lra).
  set (k := 1 - e * e * (1 - - dot L N * - dot L N)).
  assert (Hk0 : k < 0) by (unfold k; rewrite He; unfold dot; simpl; nra).
  replace (k <? 0) with true by (symmetry; apply Rltb_true; lra).
  assert (Hnew : sub L (scale N (2 * dot L N)) = {| x := 0.8; y := 0.6 |}).
  { apply point_eq; unfold dot; simpl; lra. }
  rewrite Hnew.
  assert (Hm : mag {| x := 0.8; y := 0.6 |} = 1)
    by (apply mag_of_sq; simpl; lra).
  rewrite (normalize_unit _ Hm). split; reflexivity.
Qed.

(** The head-on ray goes straight on, whatever the index is. *)
Lemma demo_child (g : R) (hitPoint : Point) :
  g <> 0 ->
  let child := childRay demoPrism g demoRay hitPoint
                 {| x := 0; y := 0 |} {| x := 4; y := 0 |} in
  direction child = {| x := 0; y := 1 |} /\
  origin child = add hitPoint {| x := 0; y := 0.01 |}.
Proof.
  intros Hg child. unfold child.
  rewrite childRay_fields. cbv zeta.
  rewrite demo_entering, demo_geoNormal.
  cbn [origin direction orientedN n1 n2 negb].
  set (L := direction demoRay).
  set (N := {| x := 0; y := -1 |}).
  set (e := 1.0 / (g + wavelength demoRay)).
  set (k := 1 - e * e * (1 - - dot L N * - dot L N)).
  assert (Hk : k = 1) by (unfold k, dot; simpl; ring).
  replace (k <? 0) with false by (symmetry; apply Rltb_false; lra).
  rewrite Hk, sqrt_1.
  assert (Hnew : add (scale L e) (scale N (e * - dot L N - 1))
                 = {| x := 0; y := 1 |}).
  { apply point_eq; unfold dot; simpl; ring. }
  rewrite Hnew.
  assert (Hm : mag {| x := 0; y := 1 |} = 1)
    by (apply mag_of_sq; simpl; lra).
  rewrite (normalize_unit _ Hm).
  split; [reflexivity|]. f_equal. apply point_eq; simpl; lra.
Qed.
Lemma demo_oblique_mag : mag (direction demoObliqueRay) = 1.
Proof. apply mag_of_sq; simpl; lra. Qed.

Lemma demo_inside_mag : mag (direction demoInsideRay) = 1.
Proof. apply mag_of_sq; simpl; lra. Qed.

(** With index 1.5 the oblique ray is below the critical angle and the ray
    from inside is beyond it. *)
Lemma demo_oblique_cs2 :
  let L := direction demoObliqueRay in
  let gN := geoNormal demoPrism {| x := 0; y := 0 |} {| x := 4; y := 0 |} in
  let N := orientedN (entering L gN) gN in
  let e := n1 1.5 demoObliqueRay (entering L gN)
           / n2 1.5 demoObliqueRay (entering L gN) in
  let cosI := - dot L N in
  1 - e * e * (1 - cosI * cosI) >= 0.
Proof.
  cbv zeta. rewrite demo_oblique_entering, demo_geoNormal.
  cbn [orientedN n1 n2 negb].
  replace (1.0 / (1.5 + wavelength demoObliqueRay)) with (2 / 3)
    by (simpl; lra).
  unfold dot; simpl. lra.
Qed.

Lemma demo_inside_cs2 :
  let L := direction demoInsideRay in
  let gN := geoNormal demoPrism {| x := 0; y := 0 |} {| x := 4; y := 0 |} in
  let N := orientedN (entering L gN) gN in
  let e := n1 1.5 demoInsideRay (entering L gN)
           / n2 1.5 demoInsideRay (entering L gN) in
  let cosI := - dot L N in
  1 - e * e * (1 - cosI * cosI) < 0.
Proof.
  cbv zeta. rewrite demo_inside_exiting, demo_geoNormal.
  cbn [orientedN n1 n2 negb].
  replace ((1.5 + wavelength demoInsideRay) / 1.0) with (3 / 2)
    by (simpl; lra).
  unfold dot; simpl. lra.
Qed.



Lemma normal_incidence_no_bending_witness :
  normalize
    (refractDir {| x := 0; y := 1 |} {| x := 0; y := -1 |} (2 / 3)
       (c1 {| x := 0; y := 1 |} {| x := 0; y := -1 |})
       (cs2 (2 / 3) (c1 {| x := 0; y := 1 |} {| x := 0; y := -1 |})))
  = {| x := 0; y := 1 |} /\
  exists c e1 e2 log,
    findClosestHit demoRay demoVertices = Ok (Some c) /\
    edge demoVertices (boundaryIndex c) = Some (e1, e2) /\
    n2 1.5 demoRay (entering (direction demoRay) (geoNormal demoPrism e1 e2))
    <> 0 /\
    direction (childRay demoPrism 1.5 demoRay (point (hit c)) e1 e2)
    = direction demoRay /\
    calls (trace demoPrism 1.5 demoRay 0 demoVertices)
    = (demoRay, 0%Z)
      :: (childRay demoPrism 1.5 demoRay (point (hit c)) e1 e2, 1%Z) :: log.
Proof.
  destruct (normal_incidence_no_bending demoPrism 1.5) as [Hformula Htracer].
  split.
  - apply Hformula.
    + apply mag_of_sq; simpl; lra.
    + apply mag_of_sq; simpl; lra.
    + unfold c1, dot; simpl. lra.
  - destruct demo_closest as (c & Hc & Hi & _).
    assert (Hn2 : 1.5 + wavelength demoRay <> 0) by (simpl; lra).
    assert (H04 : (0 <= 4)%Z) by lia.
    destruct (Htracer demoRay demoVertices c _ _ Hc (demo_edge0 c Hi) Hn2
                demo_mag_direction demo_c1) as (Hnz & _ & Hdir & Hcalls).
    destruct (Hcalls 0%Z H04) as [log Hlog].
    exists c, {| x := 0; y := 0 |}, {| x := 4; y := 0 |}, log.
    split; [exact Hc|]. split; [exact (demo_edge0 c Hi)|].
    split; [exact Hnz|]. split; [exact Hdir | exact Hlog].
Defined.

Lemma hit_child_ray_witness :
  (exists c e1 e2 child log,
     findClosestHit demoObliqueRay demoVertices = Ok (Some c) /\
     edge demoVertices (boundaryIndex c) = Some (e1, e2) /\
     calls (trace demoPrism 1.5 demoObliqueRay 0 demoVertices)
     = (demoObliqueRay, 0%Z) :: (child, 1%Z) :: log /\
     segments (trace demoPrism 1.5 demoObliqueRay 0 demoVertices)
     = hitSegment demoObliqueRay 0 c
       :: segments (trace demoPrism 1.5 child 1 demoVertices) /\
     (let L := direction demoObliqueRay in
      let gN := geoNormal demoPrism e1 e2 in
      let N := orientedN (entering L gN) gN in
      let e := n1 1.5 demoObliqueRay (entering L gN)
               / n2 1.5 demoObliqueRay (entering L gN) in
      let cosI := - dot L N in
      let k := 1 - e * e * (1 - cosI * cosI) in
      direction child
      = normalize (add (scale L e) (scale N (e * cosI - sqrt k)))) /\
     origin child = add (point (hit c)) (scale (direction child) 0.01) /\
     wavelength child = wavelength demoObliqueRay) /\
  (exists c e1 e2 child log,
     findClosestHit demoInsideRay demoVertices = Ok (Some c) /\
     edge demoVertices (boundaryIndex c) = Some (e1, e2) /\
     calls (trace demoPrism 1.5 demoInsideRay 0 demoVertices)
     = (demoInsideRay, 0%Z) :: (child, 1%Z) :: log /\
     segments (trace demoPrism 1.5 demoInsideRay 0 demoVertices)
     = hitSegment demoInsideRay 0 c
       :: segments (trace demoPrism 1.5 child 1 demoVertices) /\
     (let L := direction demoInsideRay in
      let gN := geoNormal demoPrism e1 e2 in
      let N := orientedN (entering L gN) gN in
      direction child = normalize (sub L (scale N (2 * dot L N)))) /\
     origin child = add (point (hit c)) (scale (direction child) 0.01) /\
     wavelength child = wavelength demoInsideRay).
Proof.
  assert (H04 : (0 <= 4)%Z) by lia.
  split.
  - destruct demo_oblique_closest as (c & Hc & Hi & _).
    assert (Hn2 : 1.5 + wavelength demoObliqueRay <> 0) by (simpl; lra).
    destruct (hit_child_ray demoPrism 1.5 demoObliqueRay 0 demoVertices c
                H04 Hn2 Hc) as (e1 & e2 & He & H).
    pose proof He as He0.
    rewrite (demo_edge0 c Hi) in He0. injection He0 as <- <-.
    cbv zeta in H.
    destruct H as (_ & _ & Hrefr & _ & Hunit & _ & Hwl & _ & _ & Hsegs
                   & Hcalls & log & Hhead).
    eexists c, _, _, _, log.
    split; [exact Hc|]. split; [exact He|].
    split; [rewrite Hcalls, Hhead; reflexivity|].
    split; [exact Hsegs|].
    split; [cbv zeta; exact (Hrefr demo_oblique_cs2)|].
    split; [exact (proj2 (Hunit demo_oblique_mag)) | exact Hwl].
  - destruct demo_inside_closest as (c & Hc & Hi & _).
    assert (Hn2 : 1.5 + wavelength demoInsideRay <> 0) by (simpl; lra).
    destruct (hit_child_ray demoPrism 1.5 demoInsideRay 0 demoVertices c
                H04 Hn2 Hc) as (e1 & e2 & He & H).
    pose proof He as He0.
    rewrite (demo_edge0 c Hi) in He0. injection He0 as <- <-.
    cbv zeta in H.
    destruct H as (_ & Hrefl & _ & _ & Hunit & _ & Hwl & _ & _ & Hsegs
                   & Hcalls & log & Hhead).
    eexists c, _, _, _, log.
    split; [exact Hc|]. split; [exact He|].
    split; [rewrite Hcalls, Hhead; reflexivity|].
    split; [exact Hsegs|].
    split; [cbv zeta; exact (Hrefl demo_inside_cs2)|].
    split; [exact (proj2 (Hunit demo_inside_mag)) | exact Hwl].
Defined.


Lemma getPrismVertices_equilateral_witness :
  exists v0 v1 v2,
    getPrismVertices demoPrism = [v0; v1; v2] /\
    distance v0 v1 = 4 /\ distance v1 v2 = 4 /\ distance v2 v0 = 4 /\
    x v0 = 1 /\ y v0 < 1.
Proof.
  assert (Hs : 0 < sideLength demoPrism) by (simpl; lra).
  destruct (getPrismVertices_equilateral demoPrism Hs)
    as (Hv & (H01 & H12 & H20) & _ & _ & _ & Htop).
  destruct (Htop eq_refl) as (Hx & _ & Hy & _).
  eexists _, _, _. split; [exact Hv|].
  split; [exact H01|]. split; [exact H12|]. split; [exact H20|].
  split; [exact Hx | exact Hy].
Defined.


(** * Further properties of the code *)

(** ** The vector algebra *)

(** [add] and [sub] undo each other: moving a point by the vector that
    leads to another point reaches that point, and the vector from a point to
    its translate is the translation. *)
Theorem add_sub_roundtrip (p q : Point) (v : Vector) :
  add p (sub q p) = q /\ sub (add p v) p = v.
Proof. split; apply point_eq; simpl; ring. Qed.

Lemma Rabs_le_of_sq (a m : R) : 0 <= m -> a * a <= m * m -> Rabs a <= m.
Proof.
  intros Hm H. rewrite <- (Rabs_pos_eq m Hm).
  apply Rsqr_le_abs_0. unfold Rsqr. exact H.
Qed.

Lemma le_of_sq (a m : R) : 0 <= m -> a * a <= m * m -> a <= m.
Proof.
  intros Hm H. apply Rsqr_incr_0_var; [|exact Hm]. unfold Rsqr. exact H.
Qed.

Lemma lagrange (a b : Vector) :
  dot a b * dot a b + cross a b * cross a b
  = (mag a * mag a) * (mag b * mag b).
Proof. rewrite !mag_sq. unfold dot, cross. ring. Qed.

(** X1: [dot] and [cross] are the two parts of the product of the
    magnitudes (Lagrange's identity), so each is bounded by it in absolute
    value (Cauchy-Schwarz); [cross] changes sign when its arguments are
    swapped and [dot] does not. *)
Theorem dot_cross_bounds (a b : Vector) :
  dot a b * dot a b + cross a b * cross a b
  = (mag a * mag a) * (mag b * mag b) /\
  Rabs (dot a b) <= mag a * mag b /\
  Rabs (cross a b) <= mag a * mag b /\
  dot b a = dot a b /\
  cross b a = - cross a b.
Proof.
  pose proof (lagrange a b) as H.
  pose proof (mag_nonneg a) as Ha. pose proof (mag_nonneg b) as Hb.
  assert (Hm : 0 <= mag a * mag b) by (apply Rmult_le_pos; assumption).
  split; [exact H|].
  split; [apply Rabs_le_of_sq; [exact Hm | nra]|].
  split; [apply Rabs_le_of_sq; [exact Hm | nra]|].
  split; unfold dot, cross; ring.
Qed.

Lemma mag_scale (v : Vector) (s : R) : mag (scale v s) = Rabs s * mag v.
Proof.
  apply mag_of_sq.
  - apply Rmult_le_pos; [apply Rabs_pos | apply mag_nonneg].
  - simpl.
    replace (Rabs s * mag v * (Rabs s * mag v))
      with ((Rabs s * Rabs s) * (mag v * mag v)) by ring.
    rewrite mag_sq. replace (Rabs s * Rabs s) with (s * s).
    + ring.
    + pose proof (Rsqr_abs s) as E. unfold Rsqr in E. exact E.
Qed.

Lemma mag_add_le (a b : Vector) : mag (add a b) <= mag a + mag b.
Proof.
  pose proof (mag_nonneg a) as Ha. pose proof (mag_nonneg b) as Hb.
  apply le_of_sq; [lra|].
  rewrite mag_sq. simpl.
  pose proof (mag_sq a) as Hsa. pose proof (mag_sq b) as Hsb.
  assert (Hcs : dot a b <= mag a * mag b).
  { apply Rle_trans with (Rabs (dot a b)); [apply Rle_abs|].
    apply Rabs_le_of_sq; [apply Rmult_le_pos; assumption|].
    pose proof (lagrange a b). nra. }
  unfold dot in Hcs. nra.
Qed.

(** X2: [mag] is a norm: it is never negative, it is zero only for the zero
    vector, scaling a vector by [s] multiplies it by the absolute value of
    [s], and the magnitude of a sum is at most the sum of the magnitudes. *)
Theorem mag_norm (a b : Vector) (s : R) :
  0 <= mag a /\
  (mag a = 0 <-> a = zero) /\
  mag (scale a s) = Rabs s * mag a /\
  mag (add a b) <= mag a + mag b.
Proof.
  split; [apply mag_nonneg|].
  split.
  - split; [apply mag_zero_inv|].
    intros ->. apply mag_of_sq; simpl; lra.
  - split; [apply mag_scale | apply mag_add_le].
Qed.

Lemma mag_norm_witness : mag zero = 0.
Proof.
  destruct (mag_norm zero zero 1) as (_ & [_ H] & _).
  apply H. reflexivity.
Defined.

(** X3: [rotate] is an isometry: it keeps the magnitude of a vector, and the
    dot and cross products of two vectors rotated by the same angle. *)
Theorem rotate_isometry (u v : Vector) (a : R) :
  mag (rotate v a) = mag v /\
  dot (rotate u a) (rotate v a) = dot u v /\
  cross (rotate u a) (rotate v a) = cross u v.
Proof.
  pose proof (cos2_sin2 a) as H.
  split; [|split].
  - apply mag_of_sq; [apply mag_nonneg|]. rewrite mag_sq. simpl.
    replace ((x v * cos a - y v * sin a) * (x v * cos a - y v * sin a)
             + (x v * sin a + y v * cos a) * (x v * sin a + y v * cos a))
      with ((x v * x v + y v * y v) * (cos a * cos a + sin a * sin a))
      by ring.
    rewrite H. ring.
  - unfold dot; simpl.
    replace ((x u * cos a - y u * sin a) * (x v * cos a - y v * sin a)
             + (x u * sin a + y u * cos a) * (x v * sin a + y v * cos a))
      with ((x u * x v + y u * y v) * (cos a * cos a + sin a * sin a))
      by ring.
    rewrite H. ring.
  - unfold cross; simpl.
    replace ((x u * cos a - y u * sin a) * (x v * sin a + y v * cos a)
             - (x u * sin a + y u * cos a) * (x v * cos a - y v * sin a))
      with ((x u * y v - y u * x v) * (cos a * cos a + sin a * sin a))
      by ring.
    rewrite H. ring.
Qed.

(** X4: rotations compose by adding their angles: rotating by 0 changes
    nothing, rotating by [a] and then by [b] is rotating by [a + b], and
    rotating back by [- a] undoes a rotation by [a].  A rotation by [PI / 2]
    is the quarter turn [(x, y) |-> (- y, x)] that [intersectRaySegment] and
    [traceRay] apply to the direction of an edge to get its normal. *)
Theorem rotate_compose (v : Vector) (a b : R) :
  rotate v 0 = v /\
  rotate (rotate v a) b = rotate v (a + b) /\
  rotate (rotate v a) (- a) = v /\
  rotate v (PI / 2) = {| x := - y v; y := x v |}.
Proof.
  assert (Hadd : forall c d, rotate (rotate v c) d = rotate v (c + d)).
  { intros c d. unfold rotate; simpl. rewrite cos_plus, sin_plus.
    apply point_eq; simpl; ring. }
  assert (H0 : rotate v 0 = v).
  { unfold rotate. rewrite cos_0, sin_0. apply point_eq; simpl; ring. }
  split; [exact H0|]. split; [apply Hadd|]. split.
  - rewrite Hadd. replace (a + - a) with 0 by ring. exact H0.
  - unfold rotate. rewrite cos_PI2, sin_PI2. apply point_eq; simpl; ring.
Qed.

Lemma distance_mag (p q : Point) : distance p q = mag (sub q p).
Proof. unfold distance, mag. f_equal. simpl. ring. Qed.

(** X5: [distance] is a metric on points: it is the magnitude of the
    difference, it is symmetric, it is zero exactly between a point and
    itself, it satisfies the triangle inequality, and it does not change
    when both points are moved by the same vector. *)
Theorem distance_metric (p q r : Point) (v : Vector) :
  distance p q = mag (sub q p) /\
  0 <= distance p q /\
  distance p q = distance q p /\
  (distance p q = 0 <-> p = q) /\
  distance p r <= distance p q + distance q r /\
  distance (add p v) (add q v) = distance p q.
Proof.
  split; [apply distance_mag|].
  split; [rewrite distance_mag; apply mag_nonneg|].
  split.
  { rewrite !distance_mag.
    replace (sub q p) with (scale (sub p q) (-1))
      by (apply point_eq; simpl; ring).
    apply mag_scale_neg. }
  split.
  { rewrite distance_mag. split.
    - intros H. apply mag_zero_inv in H. injection H as Hx Hy.
      apply point_eq; lra.
    - intros ->. apply mag_of_sq; simpl; lra. }
  split.
  { rewrite !distance_mag.
    replace (sub r p) with (add (sub q p) (sub r q))
      by (apply point_eq; simpl; ring).
    apply mag_add_le. }
  rewrite !distance_mag. f_equal. apply point_eq; simpl; ring.
Qed.

Lemma distance_metric_witness : distance demoP1 demoP1 = 0.
Proof.
  destruct (distance_metric demoP1 demoP1 demoP1 zero) as (_ & _ & _ & [_ H] & _).
  apply H. reflexivity.
Defined.

Lemma normalize_scale_pos (v : Vector) (k : R) :
  0 < k -> normalize (scale v k) = normalize v.
Proof.
  intros Hk. unfold normalize.
  rewrite mag_scale, (Rabs_pos_eq k) by lra.
  destruct (Req_dec_T (mag v) 0) as [H0 | H0].
  - rewrite H0, Rmult_0_r. destruct (Req_dec_T 0 0); [reflexivity | lra].
  - destruct (Req_dec_T (k * mag v) 0) as [H | H].
    + exfalso. apply Rmult_integral in H. lra.
    + apply point_eq; simpl; field; lra.
Qed.

(** X6: [normalize] keeps the direction and forgets the length: scaling its
    result by the magnitude gives the vector back, a positive multiple of a
    vector has the same normalization, a negative multiple has the opposite
    one, and normalizing twice is the same as normalizing once. *)
Theorem normalize_direction (v : Vector) (k : R) :
  scale (normalize v) (mag v) = v /\
  (0 < k -> normalize (scale v k) = normalize v) /\
  (k < 0 -> normalize (scale v k) = scale (normalize v) (-1)) /\
  normalize (normalize v) = normalize v /\
  (normalize v = zero <-> v = zero).
Proof.
  split; [apply scale_normalize|].
  split; [apply normalize_scale_pos|].
  split.
  { intros Hk.
    replace (scale v k) with (scale (scale v (-1)) (- k))
      by (apply point_eq; simpl; ring).
    rewrite normalize_scale_pos by lra.
    unfold normalize. rewrite mag_scale_neg.
    destruct (Req_dec_T (mag v) 0).
    - apply point_eq; simpl; ring.
    - apply point_eq; simpl; field; assumption. }
  split.
  { destruct (Req_dec_T (mag v) 0) as [H0 | H0].
    - rewrite (normalize_zero v H0). apply normalize_zero.
      apply mag_of_sq; simpl; lra.
    - apply normalize_unit. now apply mag_normalize. }
  split.
  - intros H. destruct (Req_dec_T (mag v) 0) as [H0 | H0].
    + now apply mag_zero_inv.
    + exfalso. pose proof (mag_normalize v H0) as H1. rewrite H in H1.
      assert (mag zero = 0) by (apply mag_of_sq; simpl; lra). lra.
  - intros ->. apply normalize_zero. apply mag_of_sq; simpl; lra.
Qed.

Lemma normalize_direction_witness :
  normalize (scale {| x := 3; y := 4 |} 2) = normalize {| x := 3; y := 4 |} /\
  normalize (scale {| x := 3; y := 4 |} (-2))
  = scale (normalize {| x := 3; y := 4 |}) (-1).
Proof.
  destruct (normalize_direction {| x := 3; y := 4 |} 2) as (_ & Hp & _).
  destruct (normalize_direction {| x := 3; y := 4 |} (-2)) as (_ & _ & Hn & _).
  split; [apply Hp | apply Hn]; lra.
Defined.

(** ** More on intersectRaySegment *)

Lemma denom_is_cross (o d p1 p2 : Point) :
  denom o d p1 p2 = cross d (sub p2 p1).
Proof. unfold denom, cross, add, sub; simpl. ring. Qed.

Lemma intersect_normal_strict (o d p1 p2 : Point) (h : Hit) :
  intersectRaySegment o d p1 p2 = Some h -> dot d (normal h) < 0.
Proof.
  intros Hi. pose proof (intersect_Some o d p1 p2 h Hi)
    as (Hd & _ & _ & _ & _ & Hm & Hperp & Hle).
  assert (Hnz : denom o d p1 p2 <> 0) by (apply (Rabs_not_small _ 1e-6); lra).
  destruct Hle as [Hlt | Heq]; [exact Hlt|]. exfalso. apply Hnz.
  (* a unit vector orthogonal to both the ray and the segment would make
     them parallel *)
  rewrite denom_is_cross.
  apply mag_one_sq in Hm. unfold dot, cross in *.
  set (n := normal h) in *. set (s := sub p2 p1) in *.
  assert (E : (x d * y s - y d * x s) * (x n * x n + y n * y n)
              = (x d * x n + y d * y n) * (x n * y s - y n * x s)
                + (x n * x s + y n * y s) * (y n * x d - x n * y d)) by ring.
  rewrite Hm, Heq, Hperp in E. lra.
Qed.

(** X7: a hit reported by [intersectRaySegment] is a point of the ray, at
    parameter [t > 0.001], and a point of the segment, between its two ends;
    for a unit ray direction [t] is the distance from the origin of the ray
    to the hit; and the reported normal strictly opposes the ray. *)
Theorem hit_on_ray_and_segment (o d p1 p2 : Point) (h : Hit) :
  intersectRaySegment o d p1 p2 = Some h ->
  t h > 0.001 /\
  point h = add o (scale d (t h)) /\
  (exists u, 0 <= u <= 1 /\ point h = add p1 (scale (sub p2 p1) u)) /\
  dot d (normal h) < 0 /\
  (mag d = 1 -> distance o (point h) = t h).
Proof.
  intros Hi.
  pose proof (intersect_normal_strict o d p1 p2 h Hi) as Hstrict.
  pose proof (intersect_on_segment o d p1 p2 h Hi) as (Ht0 & Hu & Hx & Hy).
  pose proof (intersect_Some o d p1 p2 h Hi) as (_ & Ht & _ & Hp & Hth & _).
  rewrite Hth. split; [exact Ht|]. split; [exact Hp|].
  split; [|split; [exact Hstrict|]].
  - exists (param_u o d p1 p2). split; [exact Hu|].
    rewrite Hp. apply point_eq; simpl; lra.
  - intros Hd. rewrite distance_mag, Hp.
    replace (sub (add o (scale d (param_t o d p1 p2))) o)
      with (scale d (param_t o d p1 p2)) by (apply point_eq; simpl; ring).
    rewrite mag_scale, Hd, Rabs_pos_eq by lra. ring.
Qed.

Lemma hit_on_ray_and_segment_witness :
  exists h,
    intersectRaySegment zero demoDir demoP1 demoP2 = Some h /\
    t h > 0.001 /\
    dot demoDir (normal h) < 0 /\
    distance zero (point h) = t h.
Proof.
  assert (Hd : denom zero demoDir demoP1 demoP2 = 2)
    by (unfold denom; simpl; lra).
  assert (Ht : param_t zero demoDir demoP1 demoP2 = 1)
    by (unfold param_t; rewrite Hd; simpl; lra).
  assert (Hu : param_u zero demoDir demoP1 demoP2 = 1 / 2)
    by (unfold param_u; rewrite Hd; simpl; lra).
  assert (Hno : ~ noIntersection zero demoDir demoP1 demoP2).
  { unfold noIntersection. rewrite Hd, Ht, Hu.
    rewrite Rabs_pos_eq by lra. lra. }
  destruct (intersect_exists zero demoDir demoP1 demoP2 Hno) as [h Hh].
  destruct (hit_on_ray_and_segment zero demoDir demoP1 demoP2 h Hh)
    as (H1 & _ & _ & H2 & H3).
  exists h. split; [exact Hh|]. split; [exact H1|]. split; [exact H2|].
  apply H3. apply mag_of_sq; simpl; lra.
Defined.

(** X8: [intersectRaySegment] reports nothing when the cross product of the
    ray direction and the segment is smaller than 1e-6 in absolute value
    (the determinant is that cross product); so a zero direction, a segment
    reduced to a point and a segment parallel to the ray are never hit. *)
Theorem intersect_degenerate (o d p1 p2 : Point) :
  denom o d p1 p2 = cross d (sub p2 p1) /\
  (Rabs (cross d (sub p2 p1)) < 1e-6 -> intersectRaySegment o d p1 p2 = None)
  /\
  intersectRaySegment o zero p1 p2 = None /\
  intersectRaySegment o d p1 p1 = None /\
  (forall k, intersectRaySegment o (scale (sub p2 p1) k) p1 p2 = None).
Proof.
  assert (Hsmall : forall o' d' q1 q2, cross d' (sub q2 q1) = 0 ->
            intersectRaySegment o' d' q1 q2 = None).
  { intros o' d' q1 q2 H. apply intersect_None. left.
    rewrite denom_is_cross, H, Rabs_R0. lra. }
  split; [apply denom_is_cross|].
  split.
  { intros H. apply intersect_None. left. now rewrite denom_is_cross. }
  split; [apply Hsmall; unfold cross; simpl; ring|].
  split; [apply Hsmall; unfold cross; simpl; ring|].
  intros k. apply Hsmall. unfold cross; simpl. ring.
Qed.

Lemma intersect_degenerate_witness :
  intersectRaySegment zero demoDir demoP1
    {| x := 1 + 1 / 10000000; y := -1 |} = None.
Proof.
  apply (intersect_degenerate zero demoDir demoP1
           {| x := 1 + 1 / 10000000; y := -1 |}).
  unfold cross; simpl.
  replace (1 * (-1 - -1) - 0 * (1 + 1 / 10000000 - 1)) with 0 by lra.
  rewrite Rabs_R0. lra.
Defined.

Lemma denom_swap (o d p1 p2 : Point) :
  denom o d p2 p1 = - denom o d p1 p2.
Proof. unfold denom, add; simpl. ring. Qed.

Lemma param_t_swap (o d p1 p2 : Point) :
  denom o d p1 p2 <> 0 -> param_t o d p2 p1 = param_t o d p1 p2.
Proof.
  intros H. unfold param_t. rewrite denom_swap.
  unfold denom, add in *; simpl in *. field. exact H.
Qed.

Lemma param_u_swap (o d p1 p2 : Point) :
  denom o d p1 p2 <> 0 -> param_u o d p2 p1 = 1 - param_u o d p1 p2.
Proof.
  intros H. unfold param_u. rewrite denom_swap.
  unfold denom, add in *; simpl in *. field. exact H.
Qed.

Lemma normalize_neg (v : Vector) :
  normalize (scale v (-1)) = scale (normalize v) (-1).
Proof.
  unfold normalize. rewrite mag_scale_neg.
  destruct (Req_dec_T (mag v) 0).
  - apply point_eq; simpl; ring.
  - apply point_eq; simpl; field; assumption.
Qed.

(** X9: the order in which the two ends of the segment are given does not
    matter: [intersectRaySegment] returns the same answer, with the same
    point, the same [t] and the same normal, for [p1, p2] and for
    [p2, p1]. *)
Theorem intersect_ends_swap (o d p1 p2 : Point) :
  intersectRaySegment o d p2 p1 = intersectRaySegment o d p1 p2.
Proof.
  unfold intersectRaySegment.
  rewrite denom_swap, Rabs_Ropp.
  destruct (Rabs (denom o d p1 p2) <? 1e-6) eqn:Hd; [reflexivity|].
  apply Rltb_false in Hd.
  assert (Hnz : denom o d p1 p2 <> 0) by (apply (Rabs_not_small _ 1e-6); lra).
  rewrite (param_t_swap o d p1 p2 Hnz), (param_u_swap o d p1 p2 Hnz).
  set (tt := param_t o d p1 p2). set (u := param_u o d p1 p2).
  assert (Hcond : (1 - u >=? 0) && (1 - u <=? 1) = (u >=? 0) && (u <=? 1)).
  { destruct (1 - u >=? 0) eqn:A; destruct (1 - u <=? 1) eqn:B;
      destruct (u >=? 0) eqn:C; destruct (u <=? 1) eqn:D;
      try reflexivity; exfalso;
      repeat match goal with
      | H : (_ >=? _) = true |- _ => apply Rgeb_true in H
      | H : (_ >=? _) = false |- _ => apply Rgeb_false in H
      | H : (_ <=? _) = true |- _ => apply Rleb_true in H
      | H : (_ <=? _) = false |- _ => apply Rleb_false in H
      end; lra. }
  rewrite <- !andb_assoc, Hcond.
  destruct ((tt >? 0.001) && ((u >=? 0) && (u <=? 1))); [|reflexivity].
  f_equal. f_equal.
  replace {| x := - y (sub p1 p2); y := x (sub p1 p2) |}
    with (scale {| x := - y (sub p2 p1); y := x (sub p2 p1) |} (-1))
    by (apply point_eq; simpl; ring).
  rewrite normalize_neg.
  pose proof (denom_nonzero_perp o d p1 p2 Hnz) as Hm.
  set (perp := {| x := - y (sub p2 p1); y := x (sub p2 p1) |}) in *.
  assert (Hdot : dot d (normalize perp) <> 0).
  { rewrite normalize_nonzero by exact Hm. intros H0. apply Hnz.
    rewrite denom_is_cross. unfold dot, cross, perp in *; simpl in *.
    assert (Hmp : 0 < mag {| x := - (y p2 - y p1); y := x p2 - x p1 |}).
    { pose proof (mag_nonneg {| x := - (y p2 - y p1); y := x p2 - x p1 |}).
      unfold perp in Hm; simpl in Hm. lra. }
    set (m := mag {| x := - (y p2 - y p1); y := x p2 - x p1 |}) in *.
    assert (E : x d * (- (y p2 - y p1) / m) + y d * ((x p2 - x p1) / m)
                = - (x d * (y p2 - y p1) - y d * (x p2 - x p1)) / m)
      by (field; lra).
    rewrite E in H0.
    assert (E2 : - (x d * (y p2 - y p1) - y d * (x p2 - x p1))
                 = (- (x d * (y p2 - y p1) - y d * (x p2 - x p1)) / m) * m)
      by (field; lra).
    rewrite H0 in E2. lra. }
  assert (Hneg : dot d (scale (normalize perp) (-1))
                 = - dot d (normalize perp))
    by (unfold dot, scale; simpl; ring).
  destruct (dot d (normalize perp) >? 0) eqn:A;
    destruct (dot d (scale (normalize perp) (-1)) >? 0) eqn:B.
  - apply Rgtb_true in A, B. lra.
  - reflexivity.
  - apply point_eq; simpl; ring.
  - apply Rgtb_false in A, B. lra.
Qed.

(** X10: moving the origin of the ray and both ends of the segment by the
    same vector moves the reported point by that vector and changes nothing
    else: same [t], same normal, and no hit where there was none. *)
Theorem intersect_translate (o d p1 p2 : Point) (v : Vector) :
  intersectRaySegment (add o v) d (add p1 v) (add p2 v)
  = option_map (translateHit v) (intersectRaySegment o d p1 p2).
Proof.
  unfold intersectRaySegment.
  assert (Hden : denom (add o v) d (add p1 v) (add p2 v) = denom o d p1 p2)
    by (unfold denom, add; simpl; ring).
  assert (Ht : param_t (add o v) d (add p1 v) (add p2 v) = param_t o d p1 p2).
  { unfold param_t. rewrite Hden. f_equal. simpl. ring. }
  assert (Hu : param_u (add o v) d (add p1 v) (add p2 v) = param_u o d p1 p2).
  { unfold param_u. rewrite Hden. f_equal. simpl. ring. }
  assert (Hs : sub (add p2 v) (add p1 v) = sub p2 p1)
    by (apply point_eq; simpl; ring).
  rewrite Hden, Ht, Hu, Hs.
  destruct (Rabs (denom o d p1 p2) <? 1e-6); [reflexivity|].
  destruct ((param_t o d p1 p2 >? 0.001) && (param_u o d p1 p2 >=? 0)
            && (param_u o d p1 p2 <=? 1)); [|reflexivity].
  simpl. f_equal. unfold translateHit. simpl. f_equal.
  apply point_eq; simpl; ring.
Qed.

(** ** More on the tracer *)

Section TracerMore.

Variable prism : PrismData.
Variable prismIOR : R.

Lemma intersect_Some_normal (o d p1 p2 : Point) (h : Hit) :
  intersectRaySegment o d p1 p2 = Some h ->
  let n := normalize {| x := - y (sub p2 p1); y := x (sub p2 p1) |} in
  normal h = (if dot d n >? 0 then scale n (-1) else n).
Proof.
  unfold intersectRaySegment.
  destruct (Rabs (denom o d p1 p2) <? 1e-6); [discriminate|].
  destruct (_ && _); [|discriminate].
  intros [= <-]. reflexivity.
Qed.

Lemma scale_neg_neg (v : Vector) : scale (scale v (-1)) (-1) = v.
Proof. apply point_eq; simpl; ring. Qed.

Lemma dot_scale_neg (u v : Vector) : dot u (scale v (-1)) = - dot u v.
Proof. unfold dot, scale; simpl. ring. Qed.

Lemma abs_dot_le (a b : Vector) : Rabs (dot a b) <= mag a * mag b.
Proof.
  apply Rabs_le_of_sq.
  - apply Rmult_le_pos; apply mag_nonneg.
  - pose proof (lagrange a b). nra.
Qed.

Lemma orientedN_hit_normal ray vertices c e1 e2 :
  findClosestHit ray vertices = Ok (Some c) ->
  edge vertices (boundaryIndex c) = Some (e1, e2) ->
  let L := direction ray in
  let gN := geoNormal prism e1 e2 in
  orientedN (entering L gN) gN = normal (hit c) /\
  dot L (normal (hit c)) < 0.
Proof.
  intros Hc He L gN.
  destruct (validHit_edge ray vertices c Hc) as (e1' & e2' & He' & Hi).
  rewrite He in He'. injection He' as <- <-.
  pose proof (intersect_normal_strict _ _ _ _ _ Hi) as Hstrict.
  pose proof (intersect_Some_normal _ _ _ _ _ Hi) as Hn. cbv zeta in Hn.
  destruct (geoNormal_cases prism e1 e2) as [Hcase _].
  set (n := normalize {| x := - y (sub e2 e1); y := x (sub e2 e1) |}) in *.
  fold L in Hstrict, Hn. fold gN in Hcase.
  split; [|exact Hstrict].
  unfold orientedN, entering. rewrite Hn in *.
  destruct Hcase as [-> | ->].
  - destruct (dot L n >? 0) eqn:A; destruct (dot L n <? 0) eqn:B;
      try reflexivity.
    + apply Rgtb_true in A. apply Rltb_true in B. lra.
    + apply Rgtb_false in A. apply Rltb_false in B. lra.
  - rewrite dot_scale_neg.
    destruct (dot L n >? 0) eqn:A; destruct (- dot L n <? 0) eqn:B;
      try reflexivity.
    + apply Rgtb_true in A. apply Rltb_false in B. lra.
    + apply Rgtb_false in A. apply Rltb_true in B. lra.
    + apply scale_neg_neg.
Qed.

(** X11: the two derivations of the normal agree.  At every hit handled by
    [traceRay] the oriented normal, computed from the center of the prism and
    the entering test, is the normal that [intersectRaySegment] returned
    with the hit; the cosine [c1] of the incidence angle is therefore
    positive, and at most 1 for a unit ray direction. *)
Theorem oriented_normal_is_hit_normal ray vertices c e1 e2 :
  findClosestHit ray vertices = Ok (Some c) ->
  edge vertices (boundaryIndex c) = Some (e1, e2) ->
  let L := direction ray in
  let gN := geoNormal prism e1 e2 in
  let N := orientedN (entering L gN) gN in
  N = normal (hit c) /\
  0 < c1 L N /\
  (mag L = 1 -> c1 L N <= 1).
Proof.
  intros Hc He L gN N.
  destruct (orientedN_hit_normal ray vertices c e1 e2 Hc He) as [HN Hstrict].
  fold L gN in HN, Hstrict. fold N in HN.
  destruct (validHit_edge ray vertices c Hc) as (e1' & e2' & He' & Hi).
  rewrite He in He'. injection He' as <- <-.
  pose proof (geoNormal_unit prism _ _ _ _ _ Hi) as Hunit. fold gN in Hunit.
  split; [exact HN|].
  split; [unfold c1; rewrite HN; lra|].
  intros HL. unfold c1.
  pose proof (orientedN_unit (entering L gN) gN Hunit) as HNu. fold N in HNu.
  pose proof (abs_dot_le L N) as Hcs.
  rewrite HL, HNu in Hcs.
  apply Rle_trans with (Rabs (dot L N)); [|lra].
  rewrite <- Rabs_Ropp. apply Rle_abs.
Qed.

(** X12: the mirror law.  About a unit normal, [reflectedDir] reverses the
    component of the direction along the normal and keeps the component
    along the surface, so it keeps the magnitude of the direction, and
    reflecting twice gives the direction back. *)
Theorem reflection_mirror_law (L N : Vector) :
  mag N = 1 ->
  dot (reflectedDir L N) N = - dot L N /\
  cross (reflectedDir L N) N = cross L N /\
  mag (reflectedDir L N) = mag L /\
  reflectedDir (reflectedDir L N) N = L.
Proof.
  intros HN. apply mag_one_sq in HN.
  assert (Hdot : dot (reflectedDir L N) N = - dot L N).
  { unfold reflectedDir, dot; simpl.
    replace ((x L - x N * (2 * (x L * x N + y L * y N))) * x N
             + (y L - y N * (2 * (x L * x N + y L * y N))) * y N)
      with ((x L * x N + y L * y N)
            * (1 - 2 * (x N * x N + y N * y N))) by ring.
    rewrite HN. ring. }
  split; [exact Hdot|]. split; [|split].
  - unfold reflectedDir, cross; simpl. ring.
  - apply mag_of_sq; [apply mag_nonneg|]. rewrite mag_sq.
    unfold reflectedDir, dot; simpl.
    match goal with
    | |- ?lhs = _ =>
        replace lhs
          with ((x L * x L + y L * y L)
                + 4 * (x L * x N + y L * y N) * (x L * x N + y L * y N)
                  * ((x N * x N + y N * y N) - 1)) by ring
    end.
    rewrite HN. ring.
  - unfold reflectedDir at 1. rewrite Hdot.
    unfold reflectedDir, dot. apply point_eq; simpl; ring.
Qed.

(** X13: Snell's law.  About a unit normal, and when [cs2 >= 0], the
    refracted direction has [eta] times the component of the incident
    direction along the surface, so that [n2 sin theta2 = n1 sin theta1] for
    [eta = n1 / n2]; its component along the oriented normal is
    [- sqrt cs2], so it never comes back into the incident medium. *)
Theorem refraction_snell_law (L N : Vector) (e : R) :
  mag N = 1 ->
  0 <= cs2 e (c1 L N) ->
  let T := refractDir L N e (c1 L N) (cs2 e (c1 L N)) in
  cross T N = e * cross L N /\
  dot T N = - sqrt (cs2 e (c1 L N)) /\
  dot T N <= 0 /\
  (forall n1 n2, n2 <> 0 -> e = eta n1 n2 ->
     n2 * cross T N = n1 * cross L N).
Proof.
  intros HN Hk T. apply mag_one_sq in HN.
  assert (Hcross : cross T N = e * cross L N).
  { unfold T, refractDir, cross; simpl. ring. }
  assert (Hdot : dot T N = - sqrt (cs2 e (c1 L N))).
  { unfold T, refractDir, dot; simpl.
    set (r := sqrt (cs2 e (c1 L N))).
    unfold c1, dot.
    replace ((x L * e + x N * (e * - (x L * x N + y L * y N) - r)) * x N
             + (y L * e + y N * (e * - (x L * x N + y L * y N) - r)) * y N)
      with (e * (x L * x N + y L * y N) * (1 - (x N * x N + y N * y N))
            - r * (x N * x N + y N * y N)) by ring.
    rewrite HN. ring. }
  split; [exact Hcross|]. split; [exact Hdot|]. split.
  - rewrite Hdot. pose proof (sqrt_pos (cs2 e (c1 L N))). lra.
  - intros a b Hb ->. rewrite Hcross. unfold eta. field. exact Hb.
Qed.

(** [cs2] cannot be negative when [eta] is at most 1 in absolute value. *)
Lemma cs2_nonneg_small_eta (e c : R) : e * e <= 1 -> 0 <= cs2 e c.
Proof.
  intros He. unfold cs2.
  replace (1 - e * e * (1 - c * c)) with ((1 - e * e) + (e * c) * (e * c))
    by ring.
  pose proof (Rle_0_sqr (e * c)) as H. unfold Rsqr in H. lra.
Qed.

(** X14: no total internal reflection on the way in.  At a hit where the ray
    is entering and the index of the glass, [prismIOR + wavelength], is at
    least 1, [cs2] is not negative and the child ray is the refracted one. *)
Theorem entering_always_refracts ray vertices c e1 e2 :
  findClosestHit ray vertices = Ok (Some c) ->
  edge vertices (boundaryIndex c) = Some (e1, e2) ->
  let L := direction ray in
  let gN := geoNormal prism e1 e2 in
  entering L gN = true ->
  1 <= prismIOR + wavelength ray ->
  let e := eta 1 (prismIOR + wavelength ray) in
  0 <= cs2 e (c1 L gN) /\
  direction (childRay prism prismIOR ray (point (hit c)) e1 e2)
  = normalize (refractDir L gN e (c1 L gN) (cs2 e (c1 L gN))).
Proof.
  intros Hc He L gN Hent Hg e.
  assert (Hk : 0 <= cs2 e (c1 L gN)).
  { apply cs2_nonneg_small_eta. unfold e, eta.
    assert (H1 : 0 < 1 / (prismIOR + wavelength ray) <= 1).
    { split.
      - apply Rdiv_lt_0_compat; lra.
      - apply (Rmult_le_reg_r (prismIOR + wavelength ray)); [lra|].
        unfold Rdiv. rewrite Rmult_assoc, Rinv_l by lra. lra. }
    nra. }
  split; [exact Hk|].
  unfold childRay. fold L. fold gN. rewrite Hent.
  unfold n1, n2, orientedN. simpl.
  replace 1.0 with 1 by lra. fold e.
  destruct (cs2 e (c1 L gN) <? 0) eqn:A; [|reflexivity].
  apply Rltb_true in A. lra.
Qed.

(** X15: with an index of 1 the prism is invisible.  At a hit of a ray with
    a unit direction, if [prismIOR + wavelength = 1] the child ray goes on
    in the direction of its parent. *)
Theorem index_one_goes_straight ray vertices c e1 e2 :
  findClosestHit ray vertices = Ok (Some c) ->
  edge vertices (boundaryIndex c) = Some (e1, e2) ->
  mag (direction ray) = 1 ->
  prismIOR + wavelength ray = 1 ->
  direction (childRay prism prismIOR ray (point (hit c)) e1 e2)
  = direction ray.
Proof.
  intros Hc He HL Hg.
  destruct (orientedN_hit_normal ray vertices c e1 e2 Hc He)
    as [HN Hstrict].
  cbv zeta in HN, Hstrict.
  assert (Hpos : 0 < c1 (direction ray)
                       (orientedN
                          (entering (direction ray) (geoNormal prism e1 e2))
                          (geoNormal prism e1 e2)))
    by (unfold c1; rewrite HN; lra).
  clear HN Hstrict.
  rewrite childRay_fields. cbv zeta. simpl.
  set (L := direction ray) in *.
  set (gN := geoNormal prism e1 e2) in *.
  set (N := orientedN (entering L gN) gN) in *.
  assert (He1 : n1 prismIOR ray (entering L gN)
                / n2 prismIOR ray (entering L gN) = 1).
  { unfold n1, n2. rewrite Hg.
    destruct (entering L gN); simpl; replace 1.0 with 1 by lra; field. }
  rewrite He1.
  change (- dot L N) with (c1 L N). set (k := c1 L N) in *.
  replace (1 - 1 * 1 * (1 - k * k)) with (k * k) by ring.
  destruct (k * k <? 0) eqn:A.
  { apply Rltb_true in A. pose proof (Rle_0_sqr k) as H. unfold Rsqr in H.
    lra. }
  rewrite sqrt_square by lra.
  replace (add (scale L 1) (scale N (1 * k - k))) with L
    by (apply point_eq; simpl; ring).
  now apply normalize_unit.
Qed.

Lemma last_default {A : Type} (l : list A) (d d' : A) :
  l <> [] -> last l d = last l d'.
Proof.
  induction l as [|a [|b l] IH]; intros H; [contradiction | reflexivity |].
  change (last (b :: l) d = last (b :: l) d'). apply IH. discriminate.
Qed.

Lemma hit_distance (o d p1 p2 : Point) (h : Hit) :
  intersectRaySegment o d p1 p2 = Some h ->
  mag d = 1 ->
  distance o (point h) = t h /\ t h > 0.001.
Proof.
  intros Hi Hd.
  pose proof (intersect_Some o d p1 p2 h Hi) as (_ & Ht & _ & Hp & Hth & _).
  rewrite Hth. split; [|exact Ht].
  rewrite distance_mag, Hp.
  replace (sub (add o (scale d (param_t o d p1 p2))) o)
    with (scale d (param_t o d p1 p2)) by (apply point_eq; simpl; ring).
  rewrite mag_scale, Hd, Rabs_pos_eq by lra. ring.
Qed.

Lemma childRay_unit ray (o d e1 e2 : Point) (h : Hit) hitPoint :
  intersectRaySegment o d e1 e2 = Some h ->
  mag (direction ray) = 1 ->
  mag (direction (childRay prism prismIOR ray hitPoint e1 e2)) = 1 /\
  distance hitPoint (origin (childRay prism prismIOR ray hitPoint e1 e2))
  = 0.01.
Proof.
  intros Hi HL.
  pose proof (newDir_unit prism prismIOR ray o d e1 e2 h Hi HL) as Hu.
  rewrite childRay_fields. cbv zeta in *. simpl.
  set (newDir := if _ <? 0 then _ else _) in *.
  split.
  - apply mag_normalize. lra.
  - rewrite distance_mag.
    replace (sub (add hitPoint (scale newDir 0.01)) hitPoint)
      with (scale newDir 0.01) by (apply point_eq; simpl; ring).
    rewrite mag_scale, Hu, Rabs_pos_eq by lra. ring.
Qed.

(** X16: [traceRay] throws exactly when it has work to do and fewer than
    three vertices to read: [depth <= 4] and a vertex list shorter than 3.
    It then throws at once, before any segment is pushed. *)
Theorem traceRay_throws_iff ray depth vertices s :
  ((exists st, traceRay prism prismIOR ray depth vertices s = Threw st) <->
   (depth <= 4)%Z /\ (length vertices < 3)%nat) /\
  (forall st, traceRay prism prismIOR ray depth vertices s = Threw st ->
              segments st = segments s).
Proof.
  destruct (traceRay_shape prism prismIOR ray depth vertices) as
    [Hg Heq | Hd Hl Heq | Hd Hc Heq | c e1 e2 Hd Hc He Heq].
  - rewrite (Heq s). split.
    + split; [intros [st H]; discriminate | intros [H _]; lia].
    + intros st H. discriminate.
  - rewrite (Heq s). split.
    + split; [auto | eauto].
    + intros st [= <-]. reflexivity.
  - assert (Hl : (3 <= length vertices)%nat).
    { destruct (le_lt_dec 3 (length vertices)) as [H | H]; [exact H|].
      apply findClosestHit_TypeError with (ray := ray) in H. congruence. }
    rewrite (Heq s). split.
    + split; [intros [st H]; discriminate | intros [_ H]; lia].
    + intros st H. discriminate.
  - assert (Hl : (3 <= length vertices)%nat).
    { destruct (le_lt_dec 3 (length vertices)) as [H | H]; [exact H|].
      apply findClosestHit_TypeError with (ray := ray) in H. congruence. }
    destruct (traceRay_returns prism prismIOR ray depth vertices s Hl)
      as [st' Hst']. rewrite Hst'. split.
    + split; [intros [st H]; discriminate | intros [_ H]; lia].
    + intros st H. discriminate.
Qed.

(** X17: a trace keeps what it was given.  Every ray on which [traceRay] is
    invoked during a trace has the color, the wavelength offset and the
    intensity of the first ray, every segment of the trace has that color,
    and if the direction of the first ray is a unit vector, and the glass
    index [prismIOR + wavelength] of the ray is not zero, then the direction
    of every ray of the trace is a unit vector and the same glass index
    serves at every hit. *)
Theorem trace_keeps_ray_attributes ray depth vertices :
  let st := trace prism prismIOR ray depth vertices in
  Forall (fun call => color (fst call) = color ray /\
                      wavelength (fst call) = wavelength ray /\
                      intensity (fst call) = intensity ray) (calls st) /\
  Forall (fun seg => seg_color seg = color ray) (segments st) /\
  (mag (direction ray) = 1 ->
   prismIOR + wavelength ray <> 0 ->
   Forall (fun call => mag (direction (fst call)) = 1 /\
                       prismIOR + wavelength (fst call) <> 0) (calls st)).
Proof.
  cbv zeta.
  assert (Hkeep :
    Forall (fun call => color (fst call) = color ray /\
                        wavelength (fst call) = wavelength ray /\
                        intensity (fst call) = intensity ray)
           (calls (trace prism prismIOR ray depth vertices))).
  { apply (trace_ind prism prismIOR vertices
             (fun r _ st =>
                Forall (fun call => color (fst call) = color r /\
                                    wavelength (fst call) = wavelength r /\
                                    intensity (fst call) = intensity r)
                       (calls st))).
    + intros; simpl; auto.
    + intros; simpl; auto.
    + intros r d c e1 e2 _ _ _ child rest IH. simpl.
      constructor; [auto|].
      eapply Forall_impl; [|exact IH].
      unfold child. rewrite childRay_fields. cbv zeta. simpl. auto. }
  split; [exact Hkeep|]. split.
  - apply (trace_ind prism prismIOR vertices
             (fun r _ st =>
                Forall (fun seg => seg_color seg = color r) (segments st))).
    + intros; simpl; auto.
    + intros; simpl; auto.
    + intros r d c e1 e2 _ _ _ child rest IH. simpl.
      constructor; [reflexivity|].
      eapply Forall_impl; [|exact IH].
      unfold child. rewrite childRay_fields. cbv zeta. simpl. auto.
  - intros Hmag Hn2.
    pose proof (trace_directions_unit prism prismIOR ray depth vertices Hmag)
      as Hunit.
    rewrite Forall_forall in *. intros call Hin.
    split; [now apply Hunit|].
    destruct (Hkeep call Hin) as (_ & Hw & _). rewrite Hw. exact Hn2.
Qed.

(** X18: the segments of a trace form a chain.  For a first ray with a unit
    direction and a glass index [prismIOR + wavelength] that is not zero,
    the first segment starts at the origin of the ray, and each next segment
    starts 0.01 away from the end of the one before it. *)
Theorem trace_segments_chain ray depth vertices :
  mag (direction ray) = 1 ->
  prismIOR + wavelength ray <> 0 ->
  let segs := segments (trace prism prismIOR ray depth vertices) in
  (forall a, hd_error segs = Some a -> seg_p1 a = origin ray) /\
  (forall k a b, nth_error segs k = Some a -> nth_error segs (S k) = Some b ->
     distance (seg_p2 a) (seg_p1 b) = 0.01).
Proof.
  intros Hmag _. cbv zeta. revert Hmag.
  apply (trace_ind prism prismIOR vertices
           (fun r _ st =>
              mag (direction r) = 1 ->
              (forall a, hd_error (segments st) = Some a ->
                         seg_p1 a = origin r) /\
              (forall k a b, nth_error (segments st) k = Some a ->
                 nth_error (segments st) (S k) = Some b ->
                 distance (seg_p2 a) (seg_p1 b) = 0.01))).
  - intros r d _ _. simpl. split; [discriminate|].
    intros [|k] a b H; discriminate.
  - intros r d _ _ _. simpl. split; [intros a [= <-]; reflexivity|].
    intros [|k] a b H H'; [discriminate|]. destruct k; discriminate.
  - intros r d c e1 e2 _ Hc He child rest IH Hr. simpl.
    destruct (validHit_edge r vertices c Hc) as (e1' & e2' & He' & Hi).
    rewrite He in He'. injection He' as <- <-.
    destruct (childRay_unit r _ _ e1 e2 (hit c) (point (hit c)) Hi Hr)
      as [Hcu Hgap].
    fold child in Hcu, Hgap.
    destruct (IH Hcu) as [IHhd IHgap].
    split; [intros a [= <-]; reflexivity|].
    intros [|k] a b Ha Hb; simpl in Ha, Hb.
    + injection Ha as <-. simpl.
      rewrite (IHhd b); [exact Hgap|].
      destruct (segments rest); [discriminate | exact Hb].
    + eapply IHgap; eauto.
Qed.

(** X19: no segment of a trace is shorter than the threshold of the
    intersection test.  For a first ray with a unit direction and a glass
    index [prismIOR + wavelength] that is not zero, every segment of the
    trace is longer than 0.001. *)
Theorem trace_segments_length ray depth vertices :
  mag (direction ray) = 1 ->
  prismIOR + wavelength ray <> 0 ->
  Forall (fun seg => distance (seg_p1 seg) (seg_p2 seg) > 0.001)
         (segments (trace prism prismIOR ray depth vertices)).
Proof.
  intros Hmag _. revert Hmag.
  apply (trace_ind prism prismIOR vertices
           (fun r _ st =>
              mag (direction r) = 1 ->
              Forall (fun seg => distance (seg_p1 seg) (seg_p2 seg) > 0.001)
                     (segments st))).
  - intros; simpl; auto.
  - intros r d _ _ Hr. constructor; [|constructor].
    change (distance (origin r) (add (origin r) (scale (direction r) 2000))
            > 0.001).
    rewrite distance_mag.
    replace (sub (add (origin r) (scale (direction r) 2000)) (origin r))
      with (scale (direction r) 2000) by (apply point_eq; simpl; ring).
    rewrite mag_scale, Hr, Rabs_pos_eq by lra. lra.
  - intros r d c e1 e2 _ Hc He child rest IH Hr. simpl.
    destruct (validHit_edge r vertices c Hc) as (e1' & e2' & He' & Hi).
    rewrite He in He'. injection He' as <- <-.
    constructor.
    + change (distance (origin r) (point (hit c)) > 0.001).
      destruct (hit_distance _ _ _ _ _ Hi Hr) as [-> Ht]. exact Ht.
    + apply IH.
      now destruct (childRay_unit r _ _ e1 e2 (hit c) (point (hit c)) Hi Hr).
Qed.

(** X20: how many segments a trace has.  With three vertices to read and
    [depth <= 4], a trace has at least one segment and either as many
    segments as invocations, the last one being the escape segment of the
    last ray, or one segment less than invocations, in which case the depth
    limit stopped it after exactly [5 - depth] segments. *)
Theorem trace_segments_count ray depth vertices :
  (depth <= 4)%Z ->
  (3 <= length vertices)%nat ->
  let st := trace prism prismIOR ray depth vertices in
  (1 <= length (segments st))%nat /\
  ((length (calls st) = length (segments st) /\
    exists r d, last (calls st) (ray, depth) = (r, d) /\
                last (segments st) (escapeSegment ray depth)
                = escapeSegment r d)
   \/
   (length (calls st) = S (length (segments st)) /\
    length (segments st) = Z.to_nat (5 - depth))).
Proof.
  intros Hd Hl. cbv zeta. revert Hd.
  apply (trace_ind prism prismIOR vertices
           (fun r d st =>
              (d <= 4)%Z ->
              (1 <= length (segments st))%nat /\
              ((length (calls st) = length (segments st) /\
                exists r' d', last (calls st) (r, d) = (r', d') /\
                              last (segments st) (escapeSegment r d)
                              = escapeSegment r' d')
               \/
               (length (calls st) = S (length (segments st)) /\
                length (segments st) = Z.to_nat (5 - d))))).
  - intros r d [Hg | Hs] Hd; lia.
  - intros r d _ _ _. simpl. split; [lia|]. left. split; [reflexivity|].
    exists r, d. split; reflexivity.
  - intros r d c e1 e2 Hd Hc He child rest IH _.
    cbn [segments calls length].
    split; [lia|].
    destruct (Z_le_gt_dec (d + 1) 4) as [Hle | Hgt].
    + destruct (IH Hle) as [Hone [[Hlen (r' & d' & Hlc & Hls)] | [Hlen Hn]]].
      * left. split; [lia|]. exists r', d'.
        destruct (calls rest) as [|c0 cs] eqn:Ec;
          [destruct (segments rest); simpl in *; lia|].
        destruct (segments rest) as [|s0 ss] eqn:Es; [simpl in Hone; lia|].
        split.
        -- rewrite <- Hlc.
           change (last (c0 :: cs) (r, d) = last (c0 :: cs) (child, (d + 1)%Z)).
           apply last_default. discriminate.
        -- rewrite <- Hls.
           change (last (s0 :: ss) (escapeSegment r d)
                   = last (s0 :: ss) (escapeSegment child (d + 1))).
           apply last_default. discriminate.
      * right. split; [lia|]. rewrite Hn. lia.
    + right. unfold rest. rewrite (trace_stop prism prismIOR) by lia.
      cbn [segments calls length]. split; [reflexivity | lia].
Qed.

Lemma scanEdges_ext ray ray' vertices indices acc :
  origin ray = origin ray' -> direction ray = direction ray' ->
  scanEdges ray vertices indices acc = scanEdges ray' vertices indices acc.
Proof.
  intros Ho Hd. revert acc.
  induction indices as [|i rest IH]; intros acc; simpl; [reflexivity|].
  destruct (edge vertices i) as [[p1 p2]|]; [|reflexivity].
  rewrite Ho, Hd. apply IH.
Qed.

(** X21: the beam is white up to the prism.  Two rays with the same origin
    and direction, whatever their colors and wavelength offsets, have traces
    whose first segments coincide: same ends, same width, same blur. *)
Theorem first_segment_ignores_wavelength ray ray' depth vertices :
  origin ray = origin ray' ->
  direction ray = direction ray' ->
  let shape := fun seg => (seg_p1 seg, seg_p2 seg, width seg, blur seg) in
  option_map shape
    (hd_error (segments (trace prism prismIOR ray depth vertices)))
  = option_map shape
      (hd_error (segments (trace prism prismIOR ray' depth vertices))).
Proof.
  intros Ho Hd shape.
  assert (Hfind : findClosestHit ray vertices = findClosestHit ray' vertices)
    by (apply scanEdges_ext; assumption).
  destruct (traceRay_shape prism prismIOR ray depth vertices) as
    [Hg _ | Hle Hl _ | Hle Hc _ | c e1 e2 Hle Hc He _].
  - rewrite !(trace_stop prism prismIOR) by assumption. reflexivity.
  - rewrite !(trace_throw prism prismIOR) by assumption. reflexivity.
  - rewrite (trace_escape prism prismIOR ray) by assumption.
    rewrite (trace_escape prism prismIOR ray') by congruence.
    unfold shape, escapeSegment. simpl. rewrite Ho, Hd. reflexivity.
  - rewrite (trace_hit prism prismIOR ray depth vertices c e1 e2)
      by assumption.
    rewrite (trace_hit prism prismIOR ray' depth vertices c e1 e2)
      by congruence.
    unfold shape, hitSegment. simpl. rewrite Ho. reflexivity.
Qed.

End TracerMore.

(** *** Instances *)

Lemma oriented_normal_is_hit_normal_witness :
  exists c e1 e2,
    findClosestHit demoRay demoVertices = Ok (Some c) /\
    edge demoVertices (boundaryIndex c) = Some (e1, e2) /\
    let L := direction demoRay in
    let gN := geoNormal demoPrism e1 e2 in
    orientedN (entering L gN) gN = normal (hit c) /\
    0 < c1 L (orientedN (entering L gN) gN) <= 1.
Proof.
  destruct demo_closest as (c & Hc & Hi & _).
  pose proof (demo_edge0 c Hi) as He.
  destruct (oriented_normal_is_hit_normal demoPrism demoRay demoVertices c
              _ _ Hc He) as (H1 & H2 & H3).
  exists c, {| x := 0; y := 0 |}, {| x := 4; y := 0 |}.
  split; [exact Hc|]. split; [exact He|].
  split; [exact H1|]. split; [exact H2|].
  apply H3. exact demo_mag_direction.
Defined.

Lemma reflection_mirror_law_witness :
  mag (reflectedDir {| x := 3; y := 4 |} {| x := 0; y := -1 |})
  = mag {| x := 3; y := 4 |}.
Proof.
  apply (reflection_mirror_law {| x := 3; y := 4 |} {| x := 0; y := -1 |}).
  apply mag_of_sq; simpl; lra.
Defined.

Lemma refraction_snell_law_witness :
  3 * cross (refractDir {| x := 0; y := 1 |} {| x := 0; y := -1 |} (2 / 3)
               (c1 {| x := 0; y := 1 |} {| x := 0; y := -1 |})
               (cs2 (2 / 3) (c1 {| x := 0; y := 1 |} {| x := 0; y := -1 |})))
        {| x := 0; y := -1 |}
  = 2 * cross {| x := 0; y := 1 |} {| x := 0; y := -1 |}.
Proof.
  assert (HN : mag {| x := 0; y := -1 |} = 1) by (apply mag_of_sq; simpl; lra).
  assert (Hk : 0 <= cs2 (2 / 3) (c1 {| x := 0; y := 1 |} {| x := 0; y := -1 |}))
    by (unfold cs2, c1, dot; simpl; lra).
  destruct (refraction_snell_law {| x := 0; y := 1 |} {| x := 0; y := -1 |}
              (2 / 3) HN Hk) as (_ & _ & _ & H).
  apply (H 2 3); [lra | reflexivity].
Defined.

Lemma entering_always_refracts_witness :
  exists c e1 e2,
    findClosestHit demoRay demoVertices = Ok (Some c) /\
    edge demoVertices (boundaryIndex c) = Some (e1, e2) /\
    let L := direction demoRay in
    let gN := geoNormal demoPrism e1 e2 in
    let e := eta 1 (1.5 + wavelength demoRay) in
    direction (childRay demoPrism 1.5 demoRay (point (hit c)) e1 e2)
    = normalize (refractDir L gN e (c1 L gN) (cs2 e (c1 L gN))).
Proof.
  destruct demo_closest as (c & Hc & Hi & _).
  pose proof (demo_edge0 c Hi) as He.
  exists c, {| x := 0; y := 0 |}, {| x := 4; y := 0 |}.
  split; [exact Hc|]. split; [exact He|].
  apply (entering_always_refracts demoPrism 1.5 demoRay demoVertices c
           _ _ Hc He).
  - exact demo_entering.
  - simpl. lra.
Defined.

Lemma index_one_goes_straight_witness :
  exists c e1 e2,
    findClosestHit demoRay demoVertices = Ok (Some c) /\
    edge demoVertices (boundaryIndex c) = Some (e1, e2) /\
    direction (childRay demoPrism 1 demoRay (point (hit c)) e1 e2)
    = direction demoRay.
Proof.
  destruct demo_closest as (c & Hc & Hi & _).
  pose proof (demo_edge0 c Hi) as He.
  exists c, {| x := 0; y := 0 |}, {| x := 4; y := 0 |}.
  split; [exact Hc|]. split; [exact He|].
  apply (index_one_goes_straight demoPrism 1 demoRay demoVertices c
           _ _ Hc He).
  - exact demo_mag_direction.
  - simpl. lra.
Defined.

Lemma traceRay_throws_iff_witness :
  exists st, traceRay demoPrism 1.5 demoRay 0 [] emptyStore = Threw st.
Proof.
  apply (traceRay_throws_iff demoPrism 1.5 demoRay 0 [] emptyStore).
  split; [lia | simpl; lia].
Defined.

Lemma demo_glass_index : 1.5 + wavelength demoRay <> 0.
Proof. simpl. lra. Qed.

(** The child of the head-on ray starts at [(1, 0.01)], goes straight up and
    meets the slanted side at [(1, 2.25)]. *)
Lemma demo_second_hit (c : ClosestHit) :
  point (hit c) = {| x := 1; y := 0 |} ->
  exists c2,
    findClosestHit
      (childRay demoPrism 1.5 demoRay (point (hit c))
         {| x := 0; y := 0 |} {| x := 4; y := 0 |})
      demoVertices = Ok (Some c2).
Proof.
  intros Hp.
  destruct (demo_child 1.5 (point (hit c))) as [Hdir Hor]; [lra|].
  apply findClosestHit_finds; [simpl; lia|].
  destruct (side_hit
              (origin (childRay demoPrism 1.5 demoRay (point (hit c))
                         {| x := 0; y := 0 |} {| x := 4; y := 0 |}))
              (direction (childRay demoPrism 1.5 demoRay (point (hit c))
                            {| x := 0; y := 0 |} {| x := 4; y := 0 |}))
              {| x := 4; y := 0 |} {| x := 0; y := 3 |} 2.24 (3 / 4))
    as (h & Hh & _).
  - rewrite Hdir, Hor, Hp.
    replace (denom _ _ _ _) with 4 by (unfold denom; simpl; lra).
    rewrite Rabs_pos_eq by lra. lra.
  - rewrite Hdir, Hor, Hp. apply point_eq; simpl; lra.
  - lra.
  - lra.
  - exists 1%nat, {| x := 4; y := 0 |}, {| x := 0; y := 3 |}, h.
    split; [lia|]. split; [reflexivity | exact Hh].
Qed.

Lemma trace_keeps_ray_attributes_witness :
  Forall (fun call => mag (direction (fst call)) = 1 /\
                      1.5 + wavelength (fst call) <> 0)
         (calls (trace demoPrism 1.5 demoObliqueRay 0 demoVertices)).
Proof.
  apply (trace_keeps_ray_attributes demoPrism 1.5 demoObliqueRay 0
           demoVertices).
  - exact demo_oblique_mag.
  - simpl. lra.
Defined.

Lemma trace_segments_chain_witness :
  exists a b rest,
    segments (trace demoPrism 1.5 demoRay 0 demoVertices) = a :: b :: rest /\
    seg_p1 a = origin demoRay /\
    seg_p2 a = {| x := 1; y := 0 |} /\
    distance (seg_p2 a) (seg_p1 b) = 0.01.
Proof.
  destruct (trace_segments_chain demoPrism 1.5 demoRay 0 demoVertices
              demo_mag_direction demo_glass_index) as [Hhd Hgap].
  destruct demo_closest as (c & Hc & Hi & _ & Hp).
  assert (H04 : (0 <= 4)%Z) by lia.
  assert (H14 : (0 + 1 <= 4)%Z) by lia.
  destruct (demo_second_hit c Hp) as [c2 Hc2].
  destruct (validHit_edge _ _ _ Hc2) as (e1 & e2 & He2 & _).
  destruct (hit_recursion demoPrism 1.5 demoRay 0 demoVertices c _ _
              H04 Hc (demo_edge0 c Hi)) as (_ & Hsegs & _).
  destruct (hit_recursion demoPrism 1.5 _ (0 + 1) demoVertices c2 e1 e2
              H14 Hc2 He2) as (_ & Hsegs2 & _).
  rewrite Hsegs2 in Hsegs.
  eexists _, _, _. split; [exact Hsegs|].
  rewrite Hsegs in Hhd, Hgap.
  split; [apply Hhd; reflexivity|].
  split; [exact Hp|].
  apply (Hgap 0%nat); reflexivity.
Defined.

Lemma trace_segments_length_witness :
  Forall (fun seg => distance (seg_p1 seg) (seg_p2 seg) > 0.001)
         (segments (trace demoPrism 1.5 demoRay 0 demoVertices)).
Proof.
  apply (trace_segments_length demoPrism 1.5 demoRay 0 demoVertices).
  - exact demo_mag_direction.
  - exact demo_glass_index.
Defined.

Lemma trace_segments_count_witness :
  (1 <= length (segments (trace demoPrism 1.5 demoRay 0 demoVertices)))%nat.
Proof.
  apply (trace_segments_count demoPrism 1.5 demoRay 0 demoVertices).
  - lia.
  - simpl. lia.
Defined.

Lemma first_segment_ignores_wavelength_witness :
  option_map (fun seg => (seg_p1 seg, seg_p2 seg, width seg, blur seg))
    (hd_error (segments (trace demoPrism 1.5 (spectralRay demoLight demoRed)
                           0 demoVertices)))
  = option_map (fun seg => (seg_p1 seg, seg_p2 seg, width seg, blur seg))
      (hd_error (segments (trace demoPrism 1.5
                             (spectralRay demoLight demoViolet)
                             0 demoVertices))).
Proof.
  apply (first_segment_ignores_wavelength demoPrism 1.5
           (spectralRay demoLight demoRed)
           (spectralRay demoLight demoViolet) 0 demoVertices);
    reflexivity.
Defined.

(** ** More on getPrismVertices *)

(** X22: moving the center of the prism moves its three vertices by the
    same vector. *)
Theorem getPrismVertices_translate (p : PrismData) (v : Vector) :
  getPrismVertices (withCenter p (add (center p) v))
  = map (fun q => add q v) (getPrismVertices p).
Proof.
  unfold getPrismVertices, withCenter; simpl.
  repeat f_equal; apply point_eq; simpl; ring.
Qed.

Lemma cos_sin_full_turn (a : R) :
  cos (a + 2 * PI) = cos a /\ sin (a + 2 * PI) = sin a.
Proof.
  rewrite cos_plus, sin_plus, cos_2PI, sin_2PI. split; ring.
Qed.

(** X23: turning the prism by [delta] turns each vertex about the center by
    [delta], as [rotate] does; and a third of a turn gives the same three
    points, with vertex 1 in place of vertex 0, 2 in place of 1 and 0 in
    place of 2. *)
Theorem getPrismVertices_rotate (p : PrismData) (delta : R) :
  getPrismVertices (withRotation p (rotation p + delta))
  = map (fun q => add (center p) (rotate (sub q (center p)) delta))
        (getPrismVertices p) /\
  exists v0 v1 v2,
    getPrismVertices p = [v0; v1; v2] /\
    getPrismVertices (withRotation p (rotation p + 2 * PI / 3))
    = [v1; v2; v0].
Proof.
  split.
  - unfold getPrismVertices, withRotation; simpl.
    replace (rotation p + delta - PI / 2)
      with (rotation p - PI / 2 + delta) by lra.
    replace (rotation p - PI / 2 + delta + 2 * PI / 3)
      with (rotation p - PI / 2 + 2 * PI / 3 + delta) by lra.
    replace (rotation p - PI / 2 + delta + 4 * PI / 3)
      with (rotation p - PI / 2 + 4 * PI / 3 + delta) by lra.
    set (a0 := rotation p - PI / 2).
    set (a1 := a0 + 2 * PI / 3). set (a2 := a0 + 4 * PI / 3).
    set (r := sideLength p / sqrt 3).
    rewrite (cos_plus a0), (cos_plus a1), (cos_plus a2).
    rewrite (sin_plus a0), (sin_plus a1), (sin_plus a2).
    repeat f_equal; apply point_eq; simpl; ring.
  - eexists _, _, _. split; [reflexivity|].
    unfold getPrismVertices, withRotation; simpl.
    set (a := rotation p - PI / 2).
    replace (rotation p + 2 * PI / 3 - PI / 2) with (a + 2 * PI / 3)
      by (unfold a; lra).
    replace (a + 2 * PI / 3 + 2 * PI / 3) with (a + 4 * PI / 3) by lra.
    replace (a + 2 * PI / 3 + 4 * PI / 3) with (a + 2 * PI) by lra.
    destruct (cos_sin_full_turn a) as [-> ->]. reflexivity.
Qed.

(** The edge from the vertex at angle [a] to the vertex at angle
    [a + 2 PI / 3]: its normal is a unit vector and the center is half a
    circumradius behind it. *)
Lemma geoNormal_outward (p : PrismData) (a : R) :
  0 < sideLength p ->
  let c := center p in
  let r := sideLength p / sqrt 3 in
  let A := {| x := x c + r * cos a; y := y c + r * sin a |} in
  let B := {| x := x c + r * cos (a + 2 * PI / 3);
              y := y c + r * sin (a + 2 * PI / 3) |} in
  mag (geoNormal p A B) = 1 /\
  dot (geoNormal p A B) (sub c A) = - (r / 2).
Proof.
  intros Hs c r A B.
  pose proof sqrt3_sq as Hq. pose proof sqrt3_pos as Hq0.
  pose proof (cos2_sin2 a) as Hcs.
  assert (Hr : 0 < r) by (apply Rdiv_lt_0_compat; assumption).
  clearbody r.
  unfold geoNormal. fold c.
  set (perp := {| x := - y (sub B A); y := x (sub B A) |}).
  assert (Hm : mag perp = r * sqrt 3).
  { apply mag_of_sq; [nra|]. unfold perp, B, A; simpl.
    rewrite cos_third, sin_third.
    set (C := cos a) in *. set (S := sin a) in *. set (q := sqrt 3) in *.
    replace (r * q * (r * q)) with (3 * (r * r)) by (rewrite <- Hq; ring).
    replace (3 * (r * r))
      with (r * r * ((9 / 4 + q * q / 4) * (C * C + S * S)))
      by (rewrite Hq, Hcs; field).
    field. }
  assert (Hm0 : mag perp <> 0) by nra.
  assert (Hd : dot (normalize perp) (sub c A) = r / 2).
  { rewrite normalize_nonzero by exact Hm0. rewrite Hm.
    unfold dot, perp, B, A; simpl.
    rewrite cos_third, sin_third.
    set (C := cos a) in *. set (S := sin a) in *. set (q := sqrt 3) in *.
    replace (r / 2) with (r * (C * C + S * S) / 2)
      by (rewrite Hcs; field).
    field. split; lra. }
  rewrite Hd.
  destruct (r / 2 >? 0) eqn:E.
  - split.
    + rewrite mag_scale_neg. now apply mag_normalize.
    + unfold dot, scale in *; simpl in *. lra.
  - apply Rgtb_false in E. lra.
Qed.

(** X24: on the prism's own vertices the geometric normal does point out.
    For a positive side length the center lies in the triangle of the three
    vertices, and for each of the three edges the geometric normal is a unit
    vector whose dot product with the vector from the first end of the edge
    to the center is [- s / (2 sqrt 3)]: the center is strictly behind every
    edge, at the distance of the inradius. *)
Theorem prism_normals_point_outward (p : PrismData) :
  0 < sideLength p ->
  (exists v0 v1 v2,
     getPrismVertices p = [v0; v1; v2] /\ inTriangle v0 v1 v2 (center p)) /\
  forall i e1 e2,
    edge (getPrismVertices p) i = Some (e1, e2) ->
    mag (geoNormal p e1 e2) = 1 /\
    dot (geoNormal p e1 e2) (sub (center p) e1)
    = - (sideLength p / (2 * sqrt 3)).
Proof.
  intros Hs. pose proof sqrt3_pos as Hq0. split.
  - eexists _, _, _. split; [reflexivity|].
    exists (1 / 3), (1 / 3), (1 / 3). simpl.
    rewrite cos_third, sin_third, cos_two_thirds, sin_two_thirds.
    repeat split; try lra; field; lra.
  - intros i e1 e2 He.
    set (a := rotation p - PI / 2).
    assert (Hhalf : sideLength p / sqrt 3 / 2 = sideLength p / (2 * sqrt 3))
      by (field; lra).
    rewrite <- Hhalf.
    destruct i as [|[|[|i]]].
    + injection He as <- <-. apply (geoNormal_outward p a Hs).
    + injection He as <- <-.
      replace (rotation p - PI / 2 + 4 * PI / 3)
        with (a + 2 * PI / 3 + 2 * PI / 3) by (unfold a; lra).
      apply (geoNormal_outward p (a + 2 * PI / 3) Hs).
    + injection He as <- <-.
      destruct (cos_sin_full_turn a) as [Hc2 Hs2].
      fold a. rewrite <- Hc2, <- Hs2.
      replace (a + 2 * PI) with (a + 4 * PI / 3 + 2 * PI / 3) by lra.
      apply (geoNormal_outward p (a + 4 * PI / 3) Hs).
    + unfold edge in He. simpl in He.
      destruct i; simpl in He; discriminate.
Qed.

Lemma prism_normals_point_outward_witness :
  exists e1 e2,
    edge (getPrismVertices demoPrism) 0 = Some (e1, e2) /\
    mag (geoNormal demoPrism e1 e2) = 1 /\
    dot (geoNormal demoPrism e1 e2) (sub (center demoPrism) e1)
    = - (sideLength demoPrism / (2 * sqrt 3)).
Proof.
  assert (Hs : 0 < sideLength demoPrism) by (simpl; lra).
  destruct (prism_normals_point_outward demoPrism Hs) as [_ H].
  eexists _, _. split; [reflexivity|].
  apply (H 0%nat). reflexivity.
Defined.

(** ** The pointer handlers *)

Lemma mouseMoves_idle (cv : Canvas) (path : list Point) :
  dragging (interactionRef cv) = None -> mouseMoves cv path = cv.
Proof.
  intros H. unfold mouseMoves. induction path as [|m rest IH]; simpl.
  - reflexivity.
  - unfold handleMouseMove at 2. rewrite H. exact IH.
Qed.

(** A run of moves while the prism is held. *)
Lemma mouseMoves_prism (path : list Point) :
  forall cv,
    dragging (interactionRef cv) = Some DragPrism ->
    let m0 := lastMouse (interactionRef cv) in
    let cv' := mouseMoves cv path in
    prismState cv'
    = withCenter (prismState cv)
        (add (center (prismState cv)) (sub (last path m0) m0)) /\
    lightState cv' = lightState cv /\
    interactionRef cv'
    = {| dragging := Some DragPrism; lastMouse := last path m0 |}.
Proof.
  induction path as [|m rest IH]; intros cv Hd; cbv zeta.
  - unfold mouseMoves; simpl. split; [|split].
    + destruct (prismState cv) as [c r s n]. unfold withCenter; simpl.
      f_equal. apply point_eq; simpl; ring.
    + reflexivity.
    + destruct (interactionRef cv) as [dr lm]. simpl in *. now subst.
  - change (mouseMoves cv (m :: rest))
      with (mouseMoves (handleMouseMove cv m) rest).
    set (cv1 := handleMouseMove cv m).
    assert (H1 : cv1
                 = {| prismState :=
                        withCenter (prismState cv)
                          {| x := x (center (prismState cv))
                                  + (x m - x (lastMouse (interactionRef cv)));
                             y := y (center (prismState cv))
                                  + (y m - y (lastMouse (interactionRef cv)))
                          |};
                      lightState := lightState cv;
                      interactionRef :=
                        {| dragging := Some DragPrism; lastMouse := m |} |}).
    { unfold cv1, handleMouseMove. rewrite Hd. reflexivity. }
    assert (Hd1 : dragging (interactionRef cv1) = Some DragPrism)
      by (rewrite H1; reflexivity).
    destruct (IH cv1 Hd1) as (Hp & Hl & Hi). cbv zeta in Hp, Hi.
    assert (Hlast : last (m :: rest) (lastMouse (interactionRef cv))
                    = last rest m).
    { destruct rest as [|m' rest']; [reflexivity|].
      change (last (m' :: rest') (lastMouse (interactionRef cv))
              = last (m' :: rest') m).
      clear. revert m'. induction rest' as [|a l IHl]; intros m'.
      - reflexivity.
      - change (last (a :: l) (lastMouse (interactionRef cv))
                = last (a :: l) m). apply IHl. }
    rewrite Hlast.
    split; [|split].
    + rewrite Hp, H1. unfold withCenter; simpl.
      f_equal. apply point_eq; simpl; ring.
    + rewrite Hl, H1. reflexivity.
    + rewrite Hi, H1. reflexivity.
Qed.

Lemma last_cons_default {A : Type} (a : A) (l : list A) (d : A) :
  last (a :: l) d = last l a.
Proof.
  revert a d. induction l as [|b l IH]; intros a d; [reflexivity|].
  change (last (b :: l) d = last (b :: l) a).
  rewrite (IH b d), (IH b a). reflexivity.
Qed.

(** A run of moves while the light is held. *)
Lemma mouseMoves_light (path : list Point) :
  forall cv,
    dragging (interactionRef cv) = Some DragLight ->
    let m0 := lastMouse (interactionRef cv) in
    let cv' := mouseMoves cv path in
    prismState cv' = prismState cv /\
    position (lightState cv')
    = add (position (lightState cv)) (sub (last path m0) m0) /\
    interactionRef cv'
    = {| dragging := Some DragLight; lastMouse := last path m0 |} /\
    (path <> [] ->
     angle (lightState cv')
     = atan2 (y (center (prismState cv)) - y (position (lightState cv')))
             (x (center (prismState cv)) - x (position (lightState cv')))).
Proof.
  induction path as [|m rest IH]; intros cv Hd; cbv zeta.
  - unfold mouseMoves; simpl. split; [reflexivity|]. split; [|split].
    + apply point_eq; simpl; ring.
    + destruct (interactionRef cv) as [dr lm]. simpl in *. now subst.
    + intros H. contradiction.
  - change (mouseMoves cv (m :: rest))
      with (mouseMoves (handleMouseMove cv m) rest).
    set (cv1 := handleMouseMove cv m).
    set (newPos := {| x := x (position (lightState cv))
                           + (x m - x (lastMouse (interactionRef cv)));
                      y := y (position (lightState cv))
                           + (y m - y (lastMouse (interactionRef cv))) |}).
    assert (H1 : cv1
                 = {| prismState := prismState cv;
                      lightState :=
                        {| position := newPos;
                           angle :=
                             atan2 (y (center (prismState cv)) - y newPos)
                                   (x (center (prismState cv)) - x newPos) |};
                      interactionRef :=
                        {| dragging := Some DragLight; lastMouse := m |} |}).
    { unfold cv1, handleMouseMove. rewrite Hd. reflexivity. }
    assert (Hd1 : dragging (interactionRef cv1) = Some DragLight)
      by (rewrite H1; reflexivity).
    destruct (IH cv1 Hd1) as (Hp & Hpos & Hi & Hang).
    cbv zeta in Hpos, Hi, Hang.
    rewrite last_cons_default.
    assert (Hp1 : prismState cv1 = prismState cv) by (rewrite H1; reflexivity).
    assert (Hm1 : lastMouse (interactionRef cv1) = m)
      by (rewrite H1; reflexivity).
    rewrite Hm1 in Hpos, Hi.
    split; [congruence|]. split; [|split].
    + rewrite Hpos, H1. apply point_eq; simpl; ring.
    + exact Hi.
    + intros _. destruct rest as [|m' rest'].
      * unfold mouseMoves; simpl. fold cv1. rewrite H1. reflexivity.
      * rewrite <- Hp1. apply Hang. discriminate.
Qed.

(** A run of moves while the prism is being turned. *)
Lemma mouseMoves_rotate (path : list Point) :
  forall cv,
    dragging (interactionRef cv) = Some DragRotatePrism ->
    let m0 := lastMouse (interactionRef cv) in
    let c := center (prismState cv) in
    let angleOf := fun m => atan2 (y m - y c) (x m - x c) in
    let cv' := mouseMoves cv path in
    prismState cv'
    = withRotation (prismState cv)
        (rotation (prismState cv) + (angleOf (last path m0) - angleOf m0)) /\
    lightState cv' = lightState cv /\
    interactionRef cv'
    = {| dragging := Some DragRotatePrism; lastMouse := last path m0 |}.
Proof.
  induction path as [|m rest IH]; intros cv Hd; cbv zeta.
  - unfold mouseMoves; simpl. split; [|split].
    + destruct (prismState cv) as [c r s n]. unfold withRotation; simpl.
      f_equal. ring.
    + reflexivity.
    + destruct (interactionRef cv) as [dr lm]. simpl in *. now subst.
  - change (mouseMoves cv (m :: rest))
      with (mouseMoves (handleMouseMove cv m) rest).
    set (cv1 := handleMouseMove cv m).
    set (c := center (prismState cv)).
    set (m0 := lastMouse (interactionRef cv)).
    assert (H1 : cv1
                 = {| prismState :=
                        withRotation (prismState cv)
                          (rotation (prismState cv)
                           + (atan2 (y m - y c) (x m - x c)
                              - atan2 (y m0 - y c) (x m0 - x c)));
                      lightState := lightState cv;
                      interactionRef :=
                        {| dragging := Some DragRotatePrism;
                           lastMouse := m |} |}).
    { unfold cv1, handleMouseMove. rewrite Hd. reflexivity. }
    assert (Hd1 : dragging (interactionRef cv1) = Some DragRotatePrism)
      by (rewrite H1; reflexivity).
    destruct (IH cv1 Hd1) as (Hp & Hl & Hi). cbv zeta in Hp, Hi.
    rewrite last_cons_default.
    split; [|split].
    + rewrite Hp, H1. unfold withRotation; simpl. fold c. f_equal. ring.
    + rewrite Hl, H1. reflexivity.
    + rewrite Hi, H1. reflexivity.
Qed.

Lemma handleMouseDown_grab (cv : Canvas) (mouse : Point) :
  let light := lightState cv in
  let prism := prismState cv in
  let grab := fun target =>
    {| prismState := prism; lightState := light;
       interactionRef := {| dragging := Some target; lastMouse := mouse |} |} in
  (distance mouse (position light) < 20 ->
   handleMouseDown cv mouse = grab DragLight) /\
  (~ distance mouse (position light) < 20 ->
   distance mouse (center prism) < 30 ->
   handleMouseDown cv mouse = grab DragPrism) /\
  (~ distance mouse (position light) < 20 ->
   ~ distance mouse (center prism) < 30 ->
   distance mouse (center prism) < sideLength prism / 2 ->
   handleMouseDown cv mouse = grab DragRotatePrism) /\
  (~ distance mouse (position light) < 20 ->
   ~ distance mouse (center prism) < 30 ->
   ~ distance mouse (center prism) < sideLength prism / 2 ->
   handleMouseDown cv mouse = cv).
Proof.
  cbv zeta. unfold handleMouseDown.
  destruct (distance mouse (position (lightState cv)) <? 20) eqn:A;
    [apply Rltb_true in A | apply Rltb_false in A];
  destruct (distance mouse (center (prismState cv)) <? 30) eqn:B;
    [apply Rltb_true in B | apply Rltb_false in B | apply Rltb_true in B
     | apply Rltb_false in B];
  destruct (distance mouse (center (prismState cv))
            <? sideLength (prismState cv) / 2) eqn:C;
    [apply Rltb_true in C | apply Rltb_false in C | apply Rltb_true in C
     | apply Rltb_false in C | apply Rltb_true in C | apply Rltb_false in C
     | apply Rltb_true in C | apply Rltb_false in C];
  repeat split; intros; try reflexivity; try contradiction.
Qed.

Lemma vertices_translate (p : PrismData) (v : Vector) :
  getPrismVertices (withCenter p (add (center p) v))
  = map (fun q => add q v) (getPrismVertices p).
Proof.
  unfold getPrismVertices, withCenter; simpl.
  repeat f_equal; apply point_eq; simpl; ring.
Qed.

Lemma vertices_rotate (p : PrismData) (delta : R) :
  getPrismVertices (withRotation p (rotation p + delta))
  = map (fun q => add (center p) (rotate (sub q (center p)) delta))
        (getPrismVertices p).
Proof.
  unfold getPrismVertices, withRotation; simpl.
  replace (rotation p + delta - PI / 2)
    with (rotation p - PI / 2 + delta) by lra.
  replace (rotation p - PI / 2 + delta + 2 * PI / 3)
    with (rotation p - PI / 2 + 2 * PI / 3 + delta) by lra.
  replace (rotation p - PI / 2 + delta + 4 * PI / 3)
    with (rotation p - PI / 2 + 4 * PI / 3 + delta) by lra.
  set (a0 := rotation p - PI / 2).
  set (a1 := a0 + 2 * PI / 3). set (a2 := a0 + 4 * PI / 3).
  set (r := sideLength p / sqrt 3).
  rewrite (cos_plus a0), (cos_plus a1), (cos_plus a2).
  rewrite (sin_plus a0), (sin_plus a1), (sin_plus a2).
  repeat f_equal; apply point_eq; simpl; ring.
Qed.

(** X25: dragging the prism.  A press within 30 of the center of the prism
    (and not within 20 of the light), any run of moves, then a release: the
    center has moved by the vector from the press to the last position of
    the pointer, the three vertices have moved by that vector, rotation,
    side length and light are untouched, and nothing is held any more. *)
Theorem prism_drag_gesture (cv : Canvas) (press : Point) (path : list Point) :
  ~ distance press (position (lightState cv)) < 20 ->
  distance press (center (prismState cv)) < 30 ->
  let cv' := handleMouseUp (mouseMoves (handleMouseDown cv press) path) in
  let delta := sub (last path press) press in
  prismState cv'
  = withCenter (prismState cv) (add (center (prismState cv)) delta) /\
  getPrismVertices (prismState cv')
  = map (fun q => add q delta) (getPrismVertices (prismState cv)) /\
  lightState cv' = lightState cv /\
  dragging (interactionRef cv') = None.
Proof.
  intros Hl Hp cv' delta.
  destruct (handleMouseDown_grab cv press) as (_ & Hgrab & _).
  cbv zeta in Hgrab. specialize (Hgrab Hl Hp).
  destruct (mouseMoves_prism path (handleMouseDown cv press))
    as (Hpr & Hli & _); [rewrite Hgrab; reflexivity|].
  cbv zeta in Hpr. rewrite Hgrab in Hpr, Hli. simpl in Hpr, Hli.
  fold delta in Hpr.
  assert (Hprism : prismState cv'
                   = withCenter (prismState cv)
                       (add (center (prismState cv)) delta))
    by (unfold cv'; simpl; rewrite Hgrab; exact Hpr).
  split; [exact Hprism|]. split; [|split].
  - rewrite Hprism. apply vertices_translate.
  - unfold cv'; simpl. rewrite Hgrab. exact Hli.
  - reflexivity.
Qed.

Lemma sqrt_one_plus_sq (dy dx : R) :
  0 < dx ->
  sqrt (1 + (dy / dx)²) = sqrt (dx * dx + dy * dy) / dx.
Proof.
  intros Hx. apply sqrt_lem_1.
  - pose proof (Rle_0_sqr (dy / dx)). lra.
  - apply Rle_mult_inv_pos; [apply sqrt_pos | exact Hx].
  - unfold Rsqr.
    replace (sqrt (dx * dx + dy * dy) / dx * (sqrt (dx * dx + dy * dy) / dx))
      with (sqrt (dx * dx + dy * dy) * sqrt (dx * dx + dy * dy) / (dx * dx))
      by (field; lra).
    rewrite sqrt_sqrt by nra. field. lra.
Qed.

(** [atan2] gives the angle of a point: cosine and sine of the result are
    the coordinates of the point divided by its distance to the origin. *)
Lemma atan2_cos_sin (dy dx : R) :
  let m := sqrt (dx * dx + dy * dy) in
  m <> 0 ->
  cos (atan2 dy dx) = dx / m /\ sin (atan2 dy dx) = dy / m.
Proof.
  intros m Hm.
  assert (Hmpos : 0 < m) by (pose proof (sqrt_pos (dx * dx + dy * dy)); unfold m in *; lra).
  unfold atan2.
  destruct (dx >? 0) eqn:A.
  { apply Rgtb_true in A.
    rewrite cos_atan, sin_atan, sqrt_one_plus_sq by lra. fold m.
    split; field; lra. }
  apply Rgtb_false in A.
  destruct (dx <? 0) eqn:B.
  { apply Rltb_true in B.
    assert (Hs : sqrt (1 + (dy / dx)²) = m / - dx).
    { replace (dy / dx) with (- dy / - dx) by (field; lra).
      rewrite sqrt_one_plus_sq by lra.
      unfold m. do 2 f_equal. ring. }
    destruct (dy >=? 0).
    - rewrite neg_cos, neg_sin, cos_atan, sin_atan, Hs.
      split; field; lra.
    - rewrite cos_minus, sin_minus, cos_PI, sin_PI, cos_atan, sin_atan, Hs.
      split; field; lra. }
  apply Rltb_false in B.
  assert (Hx : dx = 0) by lra.
  assert (Hm2 : m * m = dy * dy).
  { unfold m. rewrite sqrt_sqrt by nra. rewrite Hx. ring. }
  clearbody m.
  destruct (dy >? 0) eqn:C.
  { apply Rgtb_true in C.
    assert (Hmd : m = dy) by nra.
    rewrite cos_PI2, sin_PI2, Hx, Hmd. split; field; lra. }
  apply Rgtb_false in C.
  destruct (dy <? 0) eqn:D.
  { apply Rltb_true in D.
    assert (Hmd : m = - dy) by nra.
    rewrite cos_neg, sin_neg, cos_PI2, sin_PI2, Hx, Hmd. split; field; lra. }
  apply Rltb_false in D. exfalso.
  assert (dy = 0) by lra. nra.
Qed.

(** X26: dragging the light.  A press within 20 of the light, any run of
    moves, then a release: the light has moved by the vector from the press
    to the last position of the pointer, the prism is untouched and nothing
    is held any more; and after at least one move the light is aimed at the
    center of the prism: the direction of every spectral ray it emits is the
    unit vector from the light to the center (when the two differ). *)
Theorem light_drag_gesture (cv : Canvas) (press : Point) (path : list Point) :
  distance press (position (lightState cv)) < 20 ->
  let cv' := handleMouseUp (mouseMoves (handleMouseDown cv press) path) in
  let delta := sub (last path press) press in
  position (lightState cv') = add (position (lightState cv)) delta /\
  prismState cv' = prismState cv /\
  dragging (interactionRef cv') = None /\
  (path <> [] ->
   position (lightState cv') <> center (prismState cv) ->
   forall spec,
     direction (spectralRay (lightState cv') spec)
     = normalize (sub (center (prismState cv)) (position (lightState cv')))).
Proof.
  intros Hl cv' delta.
  destruct (handleMouseDown_grab cv press) as (Hgrab & _).
  cbv zeta in Hgrab. specialize (Hgrab Hl).
  destruct (mouseMoves_light path (handleMouseDown cv press))
    as (Hpr & Hpos & _ & Hang); [rewrite Hgrab; reflexivity|].
  cbv zeta in Hpos, Hang. rewrite Hgrab in Hpr, Hpos, Hang.
  simpl in Hpr, Hpos, Hang. fold delta in Hpos.
  rewrite <- Hgrab in Hpos, Hang.
  change (lightState cv')
    with (lightState (mouseMoves (handleMouseDown cv press) path)).
  change (prismState cv')
    with (prismState (mouseMoves (handleMouseDown cv press) path)).
  set (lt := lightState (mouseMoves (handleMouseDown cv press) path)) in *.
  split; [exact Hpos|]. split; [rewrite Hgrab; exact Hpr|].
  split; [reflexivity|].
  intros Hne Hdiff spec. unfold spectralRay. cbn [direction].
  rewrite (Hang Hne).
  set (v := sub (center (prismState cv)) (position lt)).
  assert (Hmv : mag v <> 0).
  { intros H0. apply mag_zero_inv in H0. apply Hdiff.
    injection H0 as Hx Hy. apply point_eq; lra. }
  destruct (atan2_cos_sin (y v) (x v) Hmv) as [Hc Hs].
  change (y (center (prismState cv)) - y (position lt)) with (y v).
  change (x (center (prismState cv)) - x (position lt)) with (x v).
  rewrite Hc, Hs. rewrite normalize_nonzero by exact Hmv. reflexivity.
Qed.

(** X27: turning the prism.  A press in the ring between 30 and half a side
    from the center (and not within 20 of the light), any run of moves, then
    a release: the rotation has changed by the angle, seen from the center,
    between the press and the last position of the pointer, whatever the
    path in between; the three vertices have turned about the center by that
    angle; center, side length and light are untouched. *)
Theorem rotate_drag_gesture (cv : Canvas) (press : Point) (path : list Point) :
  ~ distance press (position (lightState cv)) < 20 ->
  ~ distance press (center (prismState cv)) < 30 ->
  distance press (center (prismState cv)) < sideLength (prismState cv) / 2 ->
  let cv' := handleMouseUp (mouseMoves (handleMouseDown cv press) path) in
  let c := center (prismState cv) in
  let angleOf := fun m => atan2 (y m - y c) (x m - x c) in
  let delta := angleOf (last path press) - angleOf press in
  prismState cv'
  = withRotation (prismState cv) (rotation (prismState cv) + delta) /\
  getPrismVertices (prismState cv')
  = map (fun q => add c (rotate (sub q c) delta))
        (getPrismVertices (prismState cv)) /\
  lightState cv' = lightState cv /\
  dragging (interactionRef cv') = None.
Proof.
  intros Hl Hp Hr cv' c angleOf delta.
  destruct (handleMouseDown_grab cv press) as (_ & _ & Hgrab & _).
  cbv zeta in Hgrab. specialize (Hgrab Hl Hp Hr).
  destruct (mouseMoves_rotate path (handleMouseDown cv press))
    as (Hpr & Hli & _); [rewrite Hgrab; reflexivity|].
  cbv zeta in Hpr. rewrite Hgrab in Hpr, Hli. simpl in Hpr, Hli.
  assert (Hprism : prismState cv'
                   = withRotation (prismState cv)
                       (rotation (prismState cv) + delta))
    by (unfold cv'; simpl; rewrite Hgrab; exact Hpr).
  split; [exact Hprism|]. split; [|split].
  - rewrite Hprism. apply vertices_rotate.
  - unfold cv'; simpl. rewrite Hgrab. exact Hli.
  - reflexivity.
Qed.

(** X28: when nothing is held, nothing moves.  Pointer moves with no press
    before them, or after a release, leave the whole state as it is; and a
    press or a release by itself never changes the prism or the light. *)
Theorem no_drag_no_change (cv : Canvas) (mouse : Point) (path : list Point) :
  (dragging (interactionRef cv) = None -> mouseMoves cv path = cv) /\
  mouseMoves (handleMouseUp cv) path = handleMouseUp cv /\
  prismState (handleMouseUp cv) = prismState cv /\
  lightState (handleMouseUp cv) = lightState cv /\
  prismState (handleMouseDown cv mouse) = prismState cv /\
  lightState (handleMouseDown cv mouse) = lightState cv.
Proof.
  split; [apply mouseMoves_idle|].
  split; [apply mouseMoves_idle; reflexivity|].
  split; [reflexivity|]. split; [reflexivity|].
  unfold handleMouseDown.
  destruct (_ <? 20); [split; reflexivity|].
  destruct (_ <? 30); [split; reflexivity|].
  destruct (_ <? _); split; reflexivity.
Qed.

(** *** Instances *)

Lemma demo_press_far_from_light (press : Point) (d : R) :
  20 <= d ->
  (x (position (lightState demoCanvas)) - x press)
  * (x (position (lightState demoCanvas)) - x press)
  + (y (position (lightState demoCanvas)) - y press)
    * (y (position (lightState demoCanvas)) - y press) = d * d ->
  ~ distance press (position (lightState demoCanvas)) < 20.
Proof.
  intros Hd H. assert (H0 : 0 <= d) by lra.
  rewrite (distance_of_sq _ _ d H0 H). lra.
Qed.

Lemma demo_press_center (press : Point) (d : R) :
  0 <= d ->
  (x (center (prismState demoCanvas)) - x press)
  * (x (center (prismState demoCanvas)) - x press)
  + (y (center (prismState demoCanvas)) - y press)
    * (y (center (prismState demoCanvas)) - y press) = d * d ->
  distance press (center (prismState demoCanvas)) = d.
Proof. intros Hd H. now apply distance_of_sq. Qed.

Lemma prism_drag_gesture_witness :
  getPrismVertices
    (prismState (handleMouseUp
                   (mouseMoves (handleMouseDown demoCanvas demoPressPrism)
                               demoPath)))
  = map (fun q => add q (sub (last demoPath demoPressPrism) demoPressPrism))
        (getPrismVertices (prismState demoCanvas)).
Proof.
  apply (prism_drag_gesture demoCanvas demoPressPrism demoPath).
  - apply (demo_press_far_from_light demoPressPrism 290); simpl; lra.
  - rewrite (demo_press_center demoPressPrism 10); simpl; lra.
Defined.

Lemma light_drag_gesture_witness :
  direction
    (spectralRay
       (lightState (handleMouseUp
                      (mouseMoves (handleMouseDown demoCanvas demoPressLight)
                                  demoPath)))
       demoRed)
  = normalize
      (sub (center (prismState demoCanvas))
           (position
              (lightState
                 (handleMouseUp
                    (mouseMoves (handleMouseDown demoCanvas demoPressLight)
                                demoPath))))).
Proof.
  assert (Hl : distance demoPressLight (position (lightState demoCanvas)) < 20).
  { rewrite (distance_of_sq _ _ 5); simpl; lra. }
  destruct (light_drag_gesture demoCanvas demoPressLight demoPath Hl)
    as (Hpos & _ & _ & Haim).
  apply Haim.
  - discriminate.
  - rewrite Hpos. intros H. injection H as Hx Hy. simpl in Hx, Hy. lra.
Defined.

Lemma rotate_drag_gesture_witness :
  lightState (handleMouseUp
                (mouseMoves (handleMouseDown demoCanvas demoPressRing)
                            demoPath))
  = lightState demoCanvas /\
  dragging (interactionRef
              (handleMouseUp
                 (mouseMoves (handleMouseDown demoCanvas demoPressRing)
                             demoPath))) = None.
Proof.
  assert (Hc : distance demoPressRing (center (prismState demoCanvas)) = 100).
  { apply demo_press_center; simpl; lra. }
  destruct (rotate_drag_gesture demoCanvas demoPressRing demoPath)
    as (_ & _ & Hlight & Hdrag).
  - apply (demo_press_far_from_light demoPressRing 380); simpl; lra.
  - rewrite Hc. lra.
  - rewrite Hc. simpl. lra.
  - split; [exact Hlight | exact Hdrag].
Defined.

Lemma no_drag_no_change_witness : mouseMoves demoCanvas demoPath = demoCanvas.
Proof.
  exact (proj1 (no_drag_no_change demoCanvas demoPressPrism demoPath) eq_refl).
Defined.

(** ** The rendering pass, sample by sample *)





(** ** Moving the whole scene *)

Lemma intersect_shift (o d p1 p2 : Point) (v : Vector) :
  intersectRaySegment (add o v) d (add p1 v) (add p2 v)
  = option_map (translateHit v) (intersectRaySegment o d p1 p2).
Proof.
  unfold intersectRaySegment.
  assert (Hden : denom (add o v) d (add p1 v) (add p2 v) = denom o d p1 p2)
    by (unfold denom, add; simpl; ring).
  assert (Ht : param_t (add o v) d (add p1 v) (add p2 v) = param_t o d p1 p2).
  { unfold param_t. rewrite Hden. f_equal. simpl. ring. }
  assert (Hu : param_u (add o v) d (add p1 v) (add p2 v) = param_u o d p1 p2).
  { unfold param_u. rewrite Hden. f_equal. simpl. ring. }
  assert (Hs : sub (add p2 v) (add p1 v) = sub p2 p1)
    by (apply point_eq; simpl; ring).
  rewrite Hden, Ht, Hu, Hs.
  destruct (Rabs (denom o d p1 p2) <? 1e-6); [reflexivity|].
  destruct ((param_t o d p1 p2 >? 0.001) && (param_u o d p1 p2 >=? 0)
            && (param_u o d p1 p2 <=? 1)); [|reflexivity].
  simpl. f_equal. unfold translateHit. simpl. f_equal.
  apply point_eq; simpl; ring.
Qed.

Lemma edge_map (f : Point -> Point) (vertices : list Point) (i : nat) :
  edge (map f vertices) i
  = option_map (fun e => (f (fst e), f (snd e))) (edge vertices i).
Proof.
  unfold edge. rewrite !nth_error_map.
  destruct (nth_error vertices i); [|reflexivity].
  destruct (nth_error vertices ((i + 1) mod 3)); reflexivity.
Qed.

Lemma updateClosest_translate (v : Vector) acc i found :
  updateClosest (option_map (translateClosest v) acc) i
                (option_map (translateHit v) found)
  = option_map (translateClosest v) (updateClosest acc i found).
Proof.
  destruct found as [h|]; simpl; [|reflexivity].
  destruct acc as [c|]; simpl; [|reflexivity].
  destruct (t h <? t (hit c)); reflexivity.
Qed.

Lemma scanEdges_translate (v : Vector) ray vertices indices :
  forall acc,
    scanEdges (translateRay v ray) (map (fun q => add q v) vertices) indices
              (option_map (translateClosest v) acc)
    = match scanEdges ray vertices indices acc with
      | Ok r => Ok (option_map (translateClosest v) r)
      | TypeError => TypeError
      end.
Proof.
  induction indices as [|i rest IH]; intros acc; simpl; [reflexivity|].
  rewrite edge_map.
  destruct (edge vertices i) as [[p1 p2]|]; simpl; [|reflexivity].
  rewrite intersect_shift, updateClosest_translate. apply IH.
Qed.

Lemma findClosestHit_translate (v : Vector) ray vertices :
  findClosestHit (translateRay v ray) (map (fun q => add q v) vertices)
  = match findClosestHit ray vertices with
    | Ok r => Ok (option_map (translateClosest v) r)
    | TypeError => TypeError
    end.
Proof. apply (scanEdges_translate v ray vertices (seq 0 3) None). Qed.

Lemma geoNormal_translate (p : PrismData) (v : Vector) (e1 e2 : Point) :
  geoNormal (withCenter p (add (center p) v)) (add e1 v) (add e2 v)
  = geoNormal p e1 e2.
Proof.
  unfold geoNormal.
  replace (sub (add e2 v) (add e1 v)) with (sub e2 e1)
    by (apply point_eq; simpl; ring).
  replace (sub (center (withCenter p (add (center p) v))) (add e1 v))
    with (sub (center p) e1) by (apply point_eq; simpl; ring).
  reflexivity.
Qed.

Lemma childRay_translate (p : PrismData) (prismIOR : R) (v : Vector)
    ray hitPoint e1 e2 :
  childRay (withCenter p (add (center p) v)) prismIOR (translateRay v ray)
    (add hitPoint v) (add e1 v) (add e2 v)
  = translateRay v (childRay p prismIOR ray hitPoint e1 e2).
Proof.
  unfold childRay. rewrite geoNormal_translate.
  change (direction (translateRay v ray)) with (direction ray).
  change (n1 prismIOR (translateRay v ray)) with (n1 prismIOR ray).
  change (n2 prismIOR (translateRay v ray)) with (n2 prismIOR ray).
  destruct (_ <? 0); unfold translateRay; simpl; f_equal;
    apply point_eq; simpl; ring.
Qed.

Lemma escapeSegment_translate (v : Vector) ray depth :
  escapeSegment (translateRay v ray) depth
  = translateSegment v (escapeSegment ray depth).
Proof.
  unfold escapeSegment, translateSegment; simpl. f_equal.
  apply point_eq; simpl; ring.
Qed.

(** X30: moving the whole scene moves the whole trace.  When the center of
    the prism, its vertices and the origin of the ray are moved by the same
    vector, [traceRay] makes the same invocations on the moved rays and
    appends the same segments, moved by that vector, with the same colors,
    widths and blurs. *)
Theorem trace_translate (p : PrismData) (prismIOR : R) (v : Vector)
    ray depth vertices :
  trace (withCenter p (add (center p) v)) prismIOR (translateRay v ray) depth
        (map (fun q => add q v) vertices)
  = translateStore v (trace p prismIOR ray depth vertices).
Proof.
  set (p' := withCenter p (add (center p) v)).
  set (vs' := map (fun q => add q v) vertices).
  apply (trace_ind p prismIOR vertices
           (fun r d st =>
              trace p' prismIOR (translateRay v r) d vs'
              = translateStore v st)).
  - intros r d Hstop.
    destruct (Z_gt_dec d 4) as [Hg | Hg].
    + now rewrite trace_stop.
    + destruct Hstop as [H | H]; [contradiction|].
      rewrite trace_throw; [reflexivity | lia |].
      unfold vs'. now rewrite length_map.
  - intros r d Hd Hc.
    rewrite trace_escape; [| exact Hd |].
    + unfold translateStore; simpl. now rewrite escapeSegment_translate.
    + unfold vs'. now rewrite findClosestHit_translate, Hc.
  - intros r d c e1 e2 Hd Hc He child rest IH.
    rewrite (trace_hit p' prismIOR (translateRay v r) d vs'
               (translateClosest v c) (add e1 v) (add e2 v)).
    + cbv zeta.
      change (point (hit (translateClosest v c))) with (add (point (hit c)) v).
      unfold p'. rewrite childRay_translate. fold p'. fold child.
      rewrite IH. reflexivity.
    + exact Hd.
    + unfold vs'. now rewrite findClosestHit_translate, Hc.
    + unfold vs'. rewrite edge_map.
      change (boundaryIndex (translateClosest v c)) with (boundaryIndex c).
      now rewrite He.
Qed.
